(** * coherence-js-client: paged remote sets and the map events manager

    A shallow embedding of [src/cache/streamed_collection.ts] (the remote
    set views and the [PageAdvancer]) and of
    [src/event/map-events-manager.ts] (the [MapEventsManager] and its
    [ListenerGroup]s), with the properties the specification states about
    them.  The [Session] class is embedded as far as its handlers and
    [close()] go. *)

From Stdlib Require Import ZArith String List Bool Lia.
From stdpp Require Import base option list gmap strings pretty.
Import ListNotations.

Local Open Scope Z_scope.
Local Open Scope string_scope.
Local Open Scope list_scope.

(** ** JavaScript values and control flow *)

Module Js.

(** How a synchronous call ends: it returns, or it throws an [Error]
    carrying a message. *)
Inductive Completion (A : Type) : Type :=
| Returns (a : A)
| Throws (message : string).
Arguments Returns {A} a.
Arguments Throws {A} message.

(** The state a promise is found in once the work that can settle it has
    run. *)
Inductive Promise (A : Type) : Type :=
| Fulfilled (a : A)
| Rejected (reason : string)
| Pending.
Arguments Fulfilled {A} a.
Arguments Rejected {A} reason.
Arguments Pending {A}.

(** The values that flow through [KeySet.delete]: [undefined], [null], a
    boolean, or a deserialized cache value. *)
Inductive Value (V : Type) : Type :=
| Undefined
| Null
| Bool (b : bool)
| Obj (v : V).
Arguments Undefined {V}.
Arguments Null {V}.
Arguments Bool {V} b.
Arguments Obj {V} v.

(** [v != null]: loose inequality, false exactly on [null] and
    [undefined]. *)
Definition loose_ne_null {V} (v : Value V) : bool :=
  match v with
  | Undefined | Null => false
  | Bool _ | Obj _ => true
  end.

(** Truthiness; a cache value held in [Obj] stands for an object. *)
Definition truthy {V} (v : Value V) : bool :=
  match v with
  | Undefined | Null => false
  | Bool b => b
  | Obj _ => true
  end.

(** [a || b] *)
Definition or {V} (a b : Value V) : Value V :=
  if truthy a then a else b.

(** [s.indexOf(pat)]: the first position of [pat] in [s], or [-1]. *)
Definition indexOf (s pat : string) : Z :=
  match String.index 0 pat s with
  | Some i => Z.of_nat i
  | None => -1
  end.

(** Truthiness of a number used as a condition. *)
Definition truthy_number (n : Z) : bool := negb (n =? 0)%Z.

End Js.

(** ** [src/cache/streamed_collection.ts] *)

Module StreamedCollection.
Import Js.

(** [type Cookie = Uint8Array | string | undefined] *)
Inductive Cookie : Type :=
| CookieUndefined
| CookieBytes (bytes : list Byte.byte)
| CookieString (s : string).

(** [cookie == null || cookie.length == 0] *)
Definition cookie_is_empty (c : Cookie) : bool :=
  match c with
  | CookieUndefined => true
  | CookieBytes b => (length b =? 0)%nat
  | CookieString s => (String.length s =? 0)%nat
  end.

(** What one server-stream call delivers to its handlers: the ['data']
    messages in order, then either ['end'] ([None]) or ['error'] with the
    error text. *)
Record ServerStream (R : Type) : Type := mkServerStream {
  messages : list R;
  failure : option string
}.
Arguments mkServerStream {R} messages failure.
Arguments messages {R} _.
Arguments failure {R} _.

(** [interface IStreamedDataHelper<R, T>].  [loadNextPage] starts a page
    RPC; the stream the server answers with may depend on the cookies of
    the RPCs issued before (the first argument) and on the cookie sent. *)
Record IStreamedDataHelper (R T : Type) : Type := mkHelper {
  extractCookie : R -> Cookie;
  handleEntry : R -> T;
  loadNextPage : list Cookie -> Cookie -> ServerStream R
}.
Arguments mkHelper {R T} extractCookie handleEntry loadNextPage.
Arguments extractCookie {R T} _ _.
Arguments handleEntry {R T} _ _.
Arguments loadNextPage {R T} _ _ _.

Section PageAdvancer.
Context {R T : Type}.

(** [class PageAdvancer<K, V, R, T>] (the [helper] is passed along). *)
Record PageAdvancer : Type := mkPageAdvancer {
  exhausted : bool;
  data : list R;
  current : Z;
  cookie : Cookie
}.

(** [constructor(helper)] *)
Definition new_PageAdvancer : PageAdvancer :=
  {| exhausted := false; data := []; current := -1;
     cookie := CookieUndefined |}.

(** The ['data'] handler of [loadNextPage], run over the messages of
    one stream: the first message only sets the cookie, the others are
    pushed onto the page. *)
Fixpoint on_data (h : IStreamedDataHelper R T) (msgs : list R)
    (firstEntry : bool) (c : Cookie) (page : list R)
    : Cookie * list R :=
  match msgs with
  | [] => (c, page)
  | r :: rest =>
      if firstEntry
      then on_data h rest false (extractCookie h r) page
      else on_data h rest false c (page ++ [r])
  end.

(** [private loadNextPage(): Promise<R[]>].  The result is the settled
    promise, the cookies of the RPCs issued so far, and the advancer. *)
Definition PageAdvancer_loadNextPage (h : IStreamedDataHelper R T)
    (rpcs : list Cookie) (self : PageAdvancer)
    : Promise (list R) * list Cookie * PageAdvancer :=
  let call := loadNextPage h rpcs (cookie self) in
  let '(c, page) := on_data h (messages call) true (cookie self) [] in
  match failure call with
  | None =>
      (Fulfilled page, rpcs ++ [cookie self],
       {| exhausted := cookie_is_empty c; data := data self;
          current := current self; cookie := c |})
  | Some err =>
      (Rejected err, rpcs ++ [cookie self],
       {| exhausted := exhausted self; data := data self;
          current := current self; cookie := c |})
  end.

(** What [next()] resolves with. *)
Inductive IteratorResult : Type :=
| Done
| Yield (value : T)
| Fails (err : string).

(** [async next()].  [next] calls itself after each page it loads; the
    fuel bounds the number of pages one call may load, and [None] means
    that the call has not resolved within it. *)
Fixpoint next (fuel : nat) (h : IStreamedDataHelper R T)
    (rpcs : list Cookie) (self : PageAdvancer)
    : option (IteratorResult * list Cookie * PageAdvancer) :=
  match fuel with
  | O => None
  | S fuel' =>
      match data self with
      | [] =>
          if negb (exhausted self) then
            let self1 := {| exhausted := exhausted self; data := data self;
                            current := -1; cookie := cookie self |} in
            match PageAdvancer_loadNextPage h rpcs self1 with
            | (Fulfilled page, rpcs', self2) =>
                next fuel' h rpcs'
                  {| exhausted := exhausted self2; data := page;
                     current := current self2; cookie := cookie self2 |}
            | (Rejected err, rpcs', self2) =>
                Some (Fails err, rpcs', self2)
            | (Pending, _, _) => None
            end
          else Some (Done, rpcs, self)
      | r :: rest =>
          Some (Yield (handleEntry h r), rpcs,
                {| exhausted := exhausted self; data := rest;
                   current := current self; cookie := cookie self |})
      end
  end.

(** A consumer that calls [next()] until it is done or fails (as
    [for await] does), collecting the values it is given. *)
Fixpoint drain (fuel : nat) (h : IStreamedDataHelper R T)
    (rpcs : list Cookie) (self : PageAdvancer)
    : option (list T * IteratorResult * list Cookie * PageAdvancer) :=
  match fuel with
  | O => None
  | S fuel' =>
      match next fuel h rpcs self with
      | None => None
      | Some (Yield v, rpcs', self') =>
          match drain fuel' h rpcs' self' with
          | Some (vs, r, rpcs'', self'') => Some (v :: vs, r, rpcs'', self'')
          | None => None
          end
      | Some (r, rpcs', self') => Some ([], r, rpcs', self')
      end
  end.

(** [n] successive calls of [next()], with their results in order. *)
Fixpoint next_times (n fuel : nat) (h : IStreamedDataHelper R T)
    (rpcs : list Cookie) (self : PageAdvancer)
    : option (list IteratorResult * list Cookie * PageAdvancer) :=
  match n with
  | O => Some ([], rpcs, self)
  | S n' =>
      match next fuel h rpcs self with
      | None => None
      | Some (r, rpcs', self') =>
          match next_times n' fuel h rpcs' self' with
          | Some (rs, rpcs'', self'') => Some (r :: rs, rpcs'', self'')
          | None => None
          end
      end
  end.

(** *** The page sequence, in the specification's words *)

(** The cookie a page carries: the one in its first message. *)
Definition page_cookie (h : IStreamedDataHelper R T) (page : list R)
    : Cookie :=
  match page with
  | [] => CookieUndefined
  | r :: _ => extractCookie h r
  end.

(** The pages fetched "until a page whose cookie is empty", that page
    included. *)
Fixpoint pages_fetched (h : IStreamedDataHelper R T)
    (pages : list (list R)) : list (list R) :=
  match pages with
  | [] => []
  | p :: ps =>
      if cookie_is_empty (page_cookie h p) then [p]
      else p :: pages_fetched h ps
  end.

(** "The concatenation of non-first messages across all pages until an
    empty cookie", each passed through [handleEntry]. *)
Definition spec_items (h : IStreamedDataHelper R T)
    (pages : list (list R)) : list T :=
  map (handleEntry h) (concat (map (@tail R) (pages_fetched h pages))).

(** The cookies the page RPCs carry: none for the first, then the
    cookie of each page but the last. *)
Definition spec_cookies (h : IStreamedDataHelper R T)
    (pages : list (list R)) : list Cookie :=
  CookieUndefined
    :: map (page_cookie h) (removelast (pages_fetched h pages)).

(** The server answers the successive page RPCs with [pages], in
    order, each stream ending normally. *)
Definition serves (h : IStreamedDataHelper R T)
    (pages : list (list R)) : Prop :=
  forall (rpcs : list Cookie) (c : Cookie) (p : list R),
    pages !! length rpcs = Some p ->
    loadNextPage h rpcs c = mkServerStream p None.

End PageAdvancer.
Arguments PageAdvancer R : clear implicits.
Arguments IteratorResult T : clear implicits.

(** *** The remote set views *)

Definition Bytes : Type := list Byte.byte.

(** The protobuf [BytesValue] message: its [value] bytes. *)
Definition BytesValue : Type := Bytes.

(** The protobuf [EntryResult] message. *)
Record EntryResult : Type := mkEntryResult {
  getCookie : Bytes;
  getKey_asU8 : Bytes;
  getValue_asU8 : Bytes
}.

(** The [NamedCacheClient] a view is bound to.  Its class is not part of
    these sources, so it is taken as given: each field is what the
    corresponding remote call answers.  [deserializeKey] and
    [deserializeValue] are [getRequestFactory().getSerializer()
    .deserialize] at the key and at the value type. *)
Module NamedCacheClient.
Record t (K V : Type) : Type := mk {
  clear : Promise unit;
  size : Promise Z;
  remove : K -> Promise (Value V);
  containsKey : K -> Promise bool;
  removeMapping : K -> V -> Promise bool;
  nextKeySetPage : list Cookie -> Cookie -> ServerStream BytesValue;
  nextEntrySetPage : list Cookie -> Cookie -> ServerStream EntryResult;
  deserializeKey : Bytes -> K;
  deserializeValue : Bytes -> V
}.
Arguments mk {K V}.
Arguments clear {K V} _.
Arguments size {K V} _.
Arguments remove {K V} _ _.
Arguments containsKey {K V} _ _.
Arguments removeMapping {K V} _ _ _.
Arguments nextKeySetPage {K V} _ _ _.
Arguments nextEntrySetPage {K V} _ _ _.
Arguments deserializeKey {K V} _ _.
Arguments deserializeValue {K V} _ _.
End NamedCacheClient.

Section RemoteSets.
Context {K V : Type}.
Local Abbreviation NamedCache := (NamedCacheClient.t K V).

(** [class NamedCacheEntry<K, V>]: the bytes of an entry; [getKey] and
    [getValue] deserialize them (the source keeps the result for later
    calls). *)
Record NamedCacheEntry : Type := mkNamedCacheEntry {
  keyBytes : Bytes;
  valueBytes : Bytes
}.

Definition getKey (nc : NamedCache) (e : NamedCacheEntry) : K :=
  NamedCacheClient.deserializeKey nc (keyBytes e).

Definition getValue (nc : NamedCache) (e : NamedCacheEntry) : V :=
  NamedCacheClient.deserializeValue nc (valueBytes e).

(** [class EntrySetHelper] *)
Definition EntrySetHelper (nc : NamedCache)
    : IStreamedDataHelper EntryResult NamedCacheEntry :=
  mkHelper
    (fun e => CookieBytes (getCookie e))
    (fun e => mkNamedCacheEntry (getKey_asU8 e) (getValue_asU8 e))
    (NamedCacheClient.nextEntrySetPage nc).

(** [class ValueSetHelper] *)
Definition ValueSetHelper (nc : NamedCache)
    : IStreamedDataHelper EntryResult V :=
  mkHelper
    (fun e => CookieBytes (getCookie e))
    (fun e => NamedCacheClient.deserializeValue nc (getValue_asU8 e))
    (NamedCacheClient.nextEntrySetPage nc).

(** [class KeySetHelper] *)
Definition KeySetHelper (nc : NamedCache)
    : IStreamedDataHelper BytesValue K :=
  mkHelper
    (fun e => CookieBytes e)
    (fun e => NamedCacheClient.deserializeKey nc e)
    (NamedCacheClient.nextKeySetPage nc).

(** The three classes that extend [PagedSet]. *)
Inductive SetView : Type := KeySet | EntrySet | ValueSet.

(** The type [T] each view instantiates [PagedSet<K, V, T>] with. *)
Definition element (s : SetView) : Type :=
  match s with
  | KeySet => K
  | EntrySet => NamedCacheEntry
  | ValueSet => V
  end.

(** The raw message type of the view's pages. *)
Definition raw (s : SetView) : Type :=
  match s with
  | KeySet => BytesValue
  | EntrySet | ValueSet => EntryResult
  end.

(** **** [class PagedSet<K, V, T>] *)

Definition PagedSet_add {T} (value : T) : Completion unit :=
  Throws "add not allowed on paged set.".

Definition PagedSet_clear (nc : NamedCache) : Completion (Promise unit) :=
  Returns (NamedCacheClient.clear nc).

Definition PagedSet_delete {T} (value : T)
    : Completion (Promise (Value V)) :=
  Throws "Method not implemented.".

Definition PagedSet_forEach {T} (callbackfn : T -> T -> unit)
    : Completion unit :=
  Throws "only async iterator supported.".

Definition PagedSet_has {T} (value : T) : Completion (Promise bool) :=
  Throws "Method not implemented.".

Definition PagedSet_size (nc : NamedCache) : Completion (Promise Z) :=
  Returns (NamedCacheClient.size nc).

(** [[Symbol.iterator]()] *)
Definition PagedSet_iterator {T} : Completion (list T) :=
  Throws "only async iterator supported.".

Definition PagedSet_entries {T} : Completion (list (T * T)) :=
  Throws "only async iterator supported.".

Definition PagedSet_keys {T} : Completion (list T) :=
  Throws "only async iterator supported.".

Definition PagedSet_values {T} : Completion (list T) :=
  Throws "only async iterator supported.".

(** **** [class KeySet], [class EntrySet], [class ValueSet] *)

(** [KeySet.delete]: the promise settles only through the [then]
    callback, which resolves it with [v != null || undefined]; a
    rejection of [remove] is not passed on. *)
Definition KeySet_delete (nc : NamedCache) (key : K)
    : Promise (Value V) :=
  match NamedCacheClient.remove nc key with
  | Fulfilled v => Fulfilled (or (Bool (loose_ne_null v)) Undefined)
  | Rejected _ => Pending
  | Pending => Pending
  end.

Definition KeySet_has (nc : NamedCache) (key : K) : Promise bool :=
  NamedCacheClient.containsKey nc key.

(** [EntrySet.delete]; the boolean [removeMapping] answers is kept as a
    JavaScript value, so that the three [delete]s have one type. *)
Definition EntrySet_delete (nc : NamedCache) (e : NamedCacheEntry)
    : Promise (Value V) :=
  match NamedCacheClient.removeMapping nc (getKey nc e) (getValue nc e) with
  | Fulfilled b => Fulfilled (Bool b)
  | Rejected err => Rejected err
  | Pending => Pending
  end.

Definition ValueSet_delete (e : V) : Completion (Promise (Value V)) :=
  Throws "delete not allowed on paged value set.".

(** **** Method lookup through the class hierarchy *)

Definition add (s : SetView) (value : element s) : Completion unit :=
  PagedSet_add value.

Definition clear (s : SetView) (nc : NamedCache)
    : Completion (Promise unit) :=
  PagedSet_clear nc.

Definition delete (s : SetView) (nc : NamedCache)
    : element s -> Completion (Promise (Value V)) :=
  match s with
  | KeySet => fun key => Returns (KeySet_delete nc key)
  | EntrySet => fun e => Returns (EntrySet_delete nc e)
  | ValueSet => fun e => ValueSet_delete e
  end.

Definition forEach (s : SetView)
    (callbackfn : element s -> element s -> unit) : Completion unit :=
  PagedSet_forEach callbackfn.

Definition has (s : SetView) (nc : NamedCache)
    : element s -> Completion (Promise bool) :=
  match s with
  | KeySet => fun key => Returns (KeySet_has nc key)
  | EntrySet => fun value => PagedSet_has value
  | ValueSet => fun value => PagedSet_has value
  end.

Definition size (s : SetView) (nc : NamedCache)
    : Completion (Promise Z) :=
  PagedSet_size nc.

Definition iterator (s : SetView) : Completion (list (element s)) :=
  PagedSet_iterator.

Definition entries (s : SetView)
    : Completion (list (element s * element s)) :=
  PagedSet_entries.

Definition keys (s : SetView) : Completion (list (element s)) :=
  PagedSet_keys.

Definition values (s : SetView) : Completion (list (element s)) :=
  PagedSet_values.

(** The helper each view hands to its advancer. *)
Definition helper_of (s : SetView) (nc : NamedCache)
    : IStreamedDataHelper (raw s) (element s) :=
  match s with
  | KeySet => KeySetHelper nc
  | EntrySet => EntrySetHelper nc
  | ValueSet => ValueSetHelper nc
  end.

(** [[Symbol.asyncIterator]()]: a new [PageAdvancer] over the view's
    helper. *)
Definition asyncIterator (s : SetView) (nc : NamedCache)
    : IStreamedDataHelper (raw s) (element s) * PageAdvancer (raw s) :=
  (helper_of s nc, new_PageAdvancer).

End RemoteSets.

(** *** Concrete inputs *)

(** A server that answers the successive page RPCs with [pages], and
    with an empty stream once they are used up. *)
Definition page_server {R : Type} (pages : list (list R))
    : list Cookie -> Cookie -> ServerStream R :=
  fun rpcs _ => mkServerStream (nth (length rpcs) pages []) None.

(** A helper over text messages: the cookie is the text of the first
    message, entries are handed out as they are. *)
Definition text_helper (pages : list (list string))
    : IStreamedDataHelper string string :=
  mkHelper CookieString (fun e => e) (page_server pages).

(** Scenario "paged entry iteration": two pages, the second with an
    empty cookie. *)
Definition two_pages : list (list string) :=
  [["a"; "e1"; "e2"]; [""; "e3"]].

(** A first page that holds nothing but a cookie, then a last page. *)
Definition cookie_only_pages : list (list string) :=
  [["a"]; [""; "e1"]].

(** A cache in which the key removed has no prior value, and which
    contains every key asked for. *)
Definition quiet_cache : NamedCacheClient.t string string :=
  NamedCacheClient.mk (Fulfilled tt) (Fulfilled 0%Z)
    (fun _ => Fulfilled Null) (fun _ => Fulfilled true)
    (fun _ _ => Fulfilled false)
    (page_server []) (page_server [])
    (fun _ => "") (fun _ => "").

(** A cache whose [remove] reports the prior value ["v"]. *)
Definition stocked_cache : NamedCacheClient.t string string :=
  NamedCacheClient.mk (Fulfilled tt) (Fulfilled 1%Z)
    (fun _ => Fulfilled (Obj "v")) (fun _ => Fulfilled true)
    (fun _ _ => Fulfilled true)
    (page_server []) (page_server [])
    (fun _ => "") (fun _ => "").

(** Whether a call failed by throwing. *)
Definition fails {A} (c : Completion A) : bool :=
  match c with
  | Throws _ => true
  | Returns _ => false
  end.

(** *** Streams that fail *)

(** The server answers the successive page RPCs with [streams], in
    order. *)
Definition answers {R T : Type} (h : IStreamedDataHelper R T)
    (streams : list (ServerStream R)) : Prop :=
  forall (rpcs : list Cookie) (c : Cookie) (s : ServerStream R),
    streams !! length rpcs = Some s -> loadNextPage h rpcs c = s.

(** A server that answers the successive page RPCs with [streams], and
    with an empty stream once they are used up. *)
Definition stream_server {R : Type} (streams : list (ServerStream R))
    : list Cookie -> Cookie -> ServerStream R :=
  fun rpcs _ => nth (length rpcs) streams (mkServerStream [] None).

(** A helper over text messages, as [text_helper], on such a server. *)
Definition text_stream_helper (streams : list (ServerStream string))
    : IStreamedDataHelper string string :=
  mkHelper CookieString (fun e => e) (stream_server streams).

(** A first page, then a page whose stream breaks after its cookie and
    one entry. *)
Definition broken_streams : list (ServerStream string) :=
  [mkServerStream ["a"; "e1"] None;
   mkServerStream ["b"; "e2"] (Some "14 UNAVAILABLE")].

(** What [next()] resolves with, with [f] applied to the value. *)
Definition map_result {A B : Type} (f : A -> B) (r : IteratorResult A)
    : IteratorResult B :=
  match r with
  | Done => Done
  | Yield v => Yield (f v)
  | Fails err => Fails err
  end.

End StreamedCollection.

(** ** [src/event/map-events-manager.ts] *)

Module MapEvents.
Import Js.

Definition Bytes : Type := list Byte.byte.

(** Map keys: primitive values, which a JavaScript [Map] compares by
    value. *)
Definition Key : Type := string.

(** [Serializer] (its module is not part of these sources; taken as
    given). *)
Record Serializer : Type := mkSerializer {
  serialize : Key -> Bytes;
  deserialize : Bytes -> Key
}.

(** A [MapEventFilter] object, known by its identity; [DEFAULT_FILTER] is
    the manager's singleton. *)
Inductive MapEventFilter : Type :=
| DEFAULT_FILTER
| UserFilter (ref : nat).

#[global] Instance MapEventFilter_eq_dec : EqDecision MapEventFilter.
Proof. solve_decision. Defined.

#[global] Instance MapEventFilter_countable : Countable MapEventFilter.
Proof.
  refine (inj_countable'
    (fun f => match f with DEFAULT_FILTER => None | UserFilter n => Some n end)
    (fun o => match o with None => DEFAULT_FILTER | Some n => UserFilter n end)
    _).
  by intros [|n].
Defined.

(** Modelled from the spec: the [MapListenerRequest] message and the
    [RequestFactory] that builds it are not part of these sources.  The
    fields are those of section 6: [uid], [type] (INIT, SUBSCRIBE or
    UNSUBSCRIBE), the [subscribe] flag, [lite], and either the key bytes
    or a filter with a client-chosen filter id. *)
Inductive RequestType : Type := INIT | SUBSCRIBE | UNSUBSCRIBE.

Record MapListenerRequest : Type := mkRequest {
  getUid : string;
  getType : RequestType;
  getSubscribe : bool;
  getLite : bool;
  getKey : Bytes;
  getFilter : option MapEventFilter;
  getFilterid : Z
}.

(** The [event] payload of a response. *)
Record MapEventResponse : Type := mkMapEventResponse {
  getId : Z;
  getEventKey : Bytes;
  getFilteridsList : list Z
}.

(** [MapListenerResponse], by its [ResponseTypeCase]. *)
Inductive MapListenerResponse : Type :=
| Subscribed (uid : string)
| Unsubscribed (uid : string)
| Destroyed (cache : string)
| Truncated (cache : string)
| Event (event : MapEventResponse)
| RESPONSE_TYPE_NOT_SET.

(** [new MapEvent(mapName, namedMap, event, serializer)] *)
Record MapEvent : Type := mkMapEvent {
  source : string;
  payload : MapEventResponse;
  eventSerializer : Serializer
}.

(** Modelled from the spec: [MapEvent]'s class is not part of these
    sources; the ids are those of the three event kinds of section 6. *)
Definition ENTRY_INSERTED : Z := 1.
Definition ENTRY_UPDATED : Z := 2.
Definition ENTRY_DELETED : Z := 3.

Definition MapEvent_getId (e : MapEvent) : Z := getId (payload e).

Definition MapEvent_getKey (e : MapEvent) : Key :=
  deserialize (eventSerializer e) (getEventKey (payload e)).

(** A [MapListener] object: its identity, and how each of its sinks ends
    when it is called with an event. *)
Record MapListener : Type := mkMapListener {
  identity : nat;
  entryDeleted : MapEvent -> Completion unit;
  entryInserted : MapEvent -> Completion unit;
  entryUpdated : MapEvent -> Completion unit
}.

(** The gRPC client (not part of these sources; taken as given): what the
    server sends back on the duplex stream in reply to a request written
    on it, and the text ([err.toString()]) of the error the stream emits
    once the client has cancelled it. *)
Record NamedCacheServiceClient : Type := mkClient {
  respond : MapListenerRequest -> list MapListenerResponse;
  cancelStatus : string
}.

(** Modelled from the spec: the state of the [RequestFactory];
    correlation ids are sequence numbers, written in decimal. *)
Record RequestFactory : Type := mkRequestFactory {
  nextUid : nat;
  nextFilterId : Z
}.

(** *** [ListenerGroup] *)

(** [keyOrFilter]; it also tells a [KeyListenerGroup] from a
    [FilterListenerGroup]. *)
Inductive KeyOrFilter : Type :=
| OfKey (key : Key)
| OfFilter (filter : MapEventFilter).

Record ListenerGroup : Type := mkListenerGroup {
  isActive : bool;
  keyOrFilter : KeyOrFilter;
  registeredIsLite : bool;
  listeners : list (MapListener * bool);
  isLiteFalseCount : Z
}.

(** [protected constructor(helper, keyOrFilter)] with the field
    initializers. *)
Definition new_ListenerGroup (kf : KeyOrFilter) : ListenerGroup :=
  {| isActive := true; keyOrFilter := kf; registeredIsLite := true;
     listeners := []; isLiteFalseCount := 0 |}.

(** The [listeners] map: a JavaScript [Map] keyed by the listener
    object, in insertion order. *)
Fixpoint listeners_get (ls : list (MapListener * bool)) (l : MapListener)
    : option bool :=
  match ls with
  | [] => None
  | (l', isLite) :: rest =>
      if (identity l' =? identity l)%nat then Some isLite
      else listeners_get rest l
  end.

Fixpoint listeners_set (ls : list (MapListener * bool)) (l : MapListener)
    (isLite : bool) : list (MapListener * bool) :=
  match ls with
  | [] => [(l, isLite)]
  | (l', v) :: rest =>
      if (identity l' =? identity l)%nat then (l', isLite) :: rest
      else (l', v) :: listeners_set rest l isLite
  end.

Fixpoint listeners_delete (ls : list (MapListener * bool)) (l : MapListener)
    : list (MapListener * bool) :=
  match ls with
  | [] => []
  | (l', v) :: rest =>
      if (identity l' =? identity l)%nat then rest
      else (l', v) :: listeners_delete rest l
  end.

(** *** [MapEventsManager] *)

(** A reference to a [ListenerGroup] object.  The same group is held by
    [keyMap] or [filterMap] and by [filterId2ListenerGroup], and changes
    under them, so the maps hold references into [groups]. *)
Definition GroupRef : Type := nat.

(** A [SubscriptionCallback]: the closure kept in [pendingSubscriptions].
    When called it deletes its uid from the map and settles the promise
    it was created with, named here by the uid of the request that the
    promise waits for. *)
Record SubscriptionCallback : Type := mkCallback {
  settles : string
}.

(** What the manager does on its duplex stream. *)
Inductive WireAction : Type :=
| Opened
| Sent (request : MapListenerRequest)
| Cancelled.

(** An [emitter.emit(name, ...args)]. *)
Record Emission : Type := mkEmission {
  eventName : string;
  eventArgs : list string
}.

(** The sink of a listener that a dispatch called. *)
Inductive Sink : Type := ViaDeleted | ViaInserted | ViaUpdated.

(** A call of a listener's sink, by the listener's identity. *)
Definition Invocation : Type := (nat * Sink)%type.

(** The manager with what surrounds it.  The fields down to [emitter]
    are those of the class ([emitter] holds what was emitted on the
    [EventEmitter]; [streamPromise] names its promise by the uid of the
    INIT request).  The others are the objects and the surroundings that
    the code acts on: the [ListenerGroup] objects, the state of the
    promises that wait for an acknowledgement, what went out on the
    stream, the responses the server has sent that the ['data'] handler
    has not yet been given, the listener sinks called, and the errors
    that escaped from the ['data'] handler. *)
Record MapEventsManager : Type := mkMapEventsManager {
  mapName : string;
  client : NamedCacheServiceClient;
  reqFactory : RequestFactory;
  streamPromise : option string;
  markedForClose : bool;
  pendingSubscriptions : gmap string SubscriptionCallback;
  keyMap : gmap Key GroupRef;
  filterMap : gmap MapEventFilter GroupRef;
  filterId2ListenerGroup : gmap Z GroupRef;
  serializer : Serializer;
  emitter : list Emission;
  groups : gmap GroupRef ListenerGroup;
  promises : gmap string (Promise unit);
  wire : list WireAction;
  inflight : list MapListenerResponse;
  notified : list Invocation;
  uncaught : list string
}.

Definition set_reqFactory (x : RequestFactory)
    (m : MapEventsManager) : MapEventsManager :=
  {| mapName := mapName m; client := client m; reqFactory := x;
     streamPromise := streamPromise m; markedForClose := markedForClose m;
     pendingSubscriptions := pendingSubscriptions m; keyMap := keyMap m;
     filterMap := filterMap m;
     filterId2ListenerGroup := filterId2ListenerGroup m;
     serializer := serializer m; emitter := emitter m; groups := groups m;
     promises := promises m; wire := wire m; inflight := inflight m;
     notified := notified m; uncaught := uncaught m |}.

Definition set_streamPromise (x : option string)
    (m : MapEventsManager) : MapEventsManager :=
  {| mapName := mapName m; client := client m; reqFactory := reqFactory m;
     streamPromise := x; markedForClose := markedForClose m;
     pendingSubscriptions := pendingSubscriptions m; keyMap := keyMap m;
     filterMap := filterMap m;
     filterId2ListenerGroup := filterId2ListenerGroup m;
     serializer := serializer m; emitter := emitter m; groups := groups m;
     promises := promises m; wire := wire m; inflight := inflight m;
     notified := notified m; uncaught := uncaught m |}.

Definition set_markedForClose (x : bool)
    (m : MapEventsManager) : MapEventsManager :=
  {| mapName := mapName m; client := client m; reqFactory := reqFactory m;
     streamPromise := streamPromise m; markedForClose := x;
     pendingSubscriptions := pendingSubscriptions m; keyMap := keyMap m;
     filterMap := filterMap m;
     filterId2ListenerGroup := filterId2ListenerGroup m;
     serializer := serializer m; emitter := emitter m; groups := groups m;
     promises := promises m; wire := wire m; inflight := inflight m;
     notified := notified m; uncaught := uncaught m |}.

Definition set_pendingSubscriptions (x : gmap string SubscriptionCallback)
    (m : MapEventsManager) : MapEventsManager :=
  {| mapName := mapName m; client := client m; reqFactory := reqFactory m;
     streamPromise := streamPromise m; markedForClose := markedForClose m;
     pendingSubscriptions := x; keyMap := keyMap m;
     filterMap := filterMap m;
     filterId2ListenerGroup := filterId2ListenerGroup m;
     serializer := serializer m; emitter := emitter m; groups := groups m;
     promises := promises m; wire := wire m; inflight := inflight m;
     notified := notified m; uncaught := uncaught m |}.

Definition set_keyMap (x : gmap Key GroupRef)
    (m : MapEventsManager) : MapEventsManager :=
  {| mapName := mapName m; client := client m; reqFactory := reqFactory m;
     streamPromise := streamPromise m; markedForClose := markedForClose m;
     pendingSubscriptions := pendingSubscriptions m; keyMap := x;
     filterMap := filterMap m;
     filterId2ListenerGroup := filterId2ListenerGroup m;
     serializer := serializer m; emitter := emitter m; groups := groups m;
     promises := promises m; wire := wire m; inflight := inflight m;
     notified := notified m; uncaught := uncaught m |}.

Definition set_filterMap (x : gmap MapEventFilter GroupRef)
    (m : MapEventsManager) : MapEventsManager :=
  {| mapName := mapName m; client := client m; reqFactory := reqFactory m;
     streamPromise := streamPromise m; markedForClose := markedForClose m;
     pendingSubscriptions := pendingSubscriptions m; keyMap := keyMap m;
     filterMap := x; filterId2ListenerGroup := filterId2ListenerGroup m;
     serializer := serializer m; emitter := emitter m; groups := groups m;
     promises := promises m; wire := wire m; inflight := inflight m;
     notified := notified m; uncaught := uncaught m |}.

Definition set_filterId2ListenerGroup (x : gmap Z GroupRef)
    (m : MapEventsManager) : MapEventsManager :=
  {| mapName := mapName m; client := client m; reqFactory := reqFactory m;
     streamPromise := streamPromise m; markedForClose := markedForClose m;
     pendingSubscriptions := pendingSubscriptions m; keyMap := keyMap m;
     filterMap := filterMap m; filterId2ListenerGroup := x;
     serializer := serializer m; emitter := emitter m; groups := groups m;
     promises := promises m; wire := wire m; inflight := inflight m;
     notified := notified m; uncaught := uncaught m |}.

Definition set_emitter (x : list Emission)
    (m : MapEventsManager) : MapEventsManager :=
  {| mapName := mapName m; client := client m; reqFactory := reqFactory m;
     streamPromise := streamPromise m; markedForClose := markedForClose m;
     pendingSubscriptions := pendingSubscriptions m; keyMap := keyMap m;
     filterMap := filterMap m;
     filterId2ListenerGroup := filterId2ListenerGroup m;
     serializer := serializer m; emitter := x; groups := groups m;
     promises := promises m; wire := wire m; inflight := inflight m;
     notified := notified m; uncaught := uncaught m |}.

Definition set_groups (x : gmap GroupRef ListenerGroup)
    (m : MapEventsManager) : MapEventsManager :=
  {| mapName := mapName m; client := client m; reqFactory := reqFactory m;
     streamPromise := streamPromise m; markedForClose := markedForClose m;
     pendingSubscriptions := pendingSubscriptions m; keyMap := keyMap m;
     filterMap := filterMap m;
     filterId2ListenerGroup := filterId2ListenerGroup m;
     serializer := serializer m; emitter := emitter m; groups := x;
     promises := promises m; wire := wire m; inflight := inflight m;
     notified := notified m; uncaught := uncaught m |}.

Definition set_promises (x : gmap string (Promise unit))
    (m : MapEventsManager) : MapEventsManager :=
  {| mapName := mapName m; client := client m; reqFactory := reqFactory m;
     streamPromise := streamPromise m; markedForClose := markedForClose m;
     pendingSubscriptions := pendingSubscriptions m; keyMap := keyMap m;
     filterMap := filterMap m;
     filterId2ListenerGroup := filterId2ListenerGroup m;
     serializer := serializer m; emitter := emitter m; groups := groups m;
     promises := x; wire := wire m; inflight := inflight m;
     notified := notified m; uncaught := uncaught m |}.

Definition set_wire (x : list WireAction)
    (m : MapEventsManager) : MapEventsManager :=
  {| mapName := mapName m; client := client m; reqFactory := reqFactory m;
     streamPromise := streamPromise m; markedForClose := markedForClose m;
     pendingSubscriptions := pendingSubscriptions m; keyMap := keyMap m;
     filterMap := filterMap m;
     filterId2ListenerGroup := filterId2ListenerGroup m;
     serializer := serializer m; emitter := emitter m; groups := groups m;
     promises := promises m; wire := x; inflight := inflight m;
     notified := notified m; uncaught := uncaught m |}.

Definition set_inflight (x : list MapListenerResponse)
    (m : MapEventsManager) : MapEventsManager :=
  {| mapName := mapName m; client := client m; reqFactory := reqFactory m;
     streamPromise := streamPromise m; markedForClose := markedForClose m;
     pendingSubscriptions := pendingSubscriptions m; keyMap := keyMap m;
     filterMap := filterMap m;
     filterId2ListenerGroup := filterId2ListenerGroup m;
     serializer := serializer m; emitter := emitter m; groups := groups m;
     promises := promises m; wire := wire m; inflight := x;
     notified := notified m; uncaught := uncaught m |}.

Definition set_notified (x : list Invocation)
    (m : MapEventsManager) : MapEventsManager :=
  {| mapName := mapName m; client := client m; reqFactory := reqFactory m;
     streamPromise := streamPromise m; markedForClose := markedForClose m;
     pendingSubscriptions := pendingSubscriptions m; keyMap := keyMap m;
     filterMap := filterMap m;
     filterId2ListenerGroup := filterId2ListenerGroup m;
     serializer := serializer m; emitter := emitter m; groups := groups m;
     promises := promises m; wire := wire m; inflight := inflight m;
     notified := x; uncaught := uncaught m |}.

Definition set_uncaught (x : list string)
    (m : MapEventsManager) : MapEventsManager :=
  {| mapName := mapName m; client := client m; reqFactory := reqFactory m;
     streamPromise := streamPromise m; markedForClose := markedForClose m;
     pendingSubscriptions := pendingSubscriptions m; keyMap := keyMap m;
     filterMap := filterMap m;
     filterId2ListenerGroup := filterId2ListenerGroup m;
     serializer := serializer m; emitter := emitter m; groups := groups m;
     promises := promises m; wire := wire m; inflight := inflight m;
     notified := notified m; uncaught := x |}.

(** *** Asynchronous code *)

(** How an [async] function has ended once the event loop has nothing
    left to run: its promise is fulfilled ([Ok]), or rejected ([Raised]),
    or it still waits for a promise that nothing settles ([Blocked]). *)
Inductive Outcome (A : Type) : Type :=
| Ok (a : A)
| Blocked
| Raised (err : string).
Arguments Ok {A} a.
Arguments Blocked {A}.
Arguments Raised {A} err.

(** Code that runs against the manager. *)
Definition M (A : Type) : Type :=
  MapEventsManager -> Outcome A * MapEventsManager.

Definition ret {A : Type} (a : A) : M A := fun m => (Ok a, m).

Definition bind {A B : Type} (c : M A) (k : A -> M B) : M B :=
  fun m =>
    match c m with
    | (Ok a, m') => k a m'
    | (Blocked, m') => (Blocked, m')
    | (Raised err, m') => (Raised err, m')
    end.

Definition gets {A : Type} (f : MapEventsManager -> A) : M A :=
  fun m => (Ok (f m), m).

Definition modify (f : MapEventsManager -> MapEventsManager) : M unit :=
  fun m => (Ok tt, f m).

Declare Scope async_scope.
Delimit Scope async_scope with async.
Bind Scope async_scope with M.

Notation "'let*' x ':=' c 'in' k" := (bind c (fun x => k))
  (at level 10, x name, c at level 100, k at level 200) : async_scope.
Notation "c1 ';;' c2" := (bind c1 (fun _ => c2))
  (at level 100, c2 at level 200, right associativity) : async_scope.

Local Open Scope async_scope.

(** **** The request factory *)

(** Modelled from the spec: [reqFactory.mapEventSubscribe()], the INIT
    request, stamped with the next correlation id. *)
Definition mapEventSubscribe : M MapListenerRequest :=
  fun m =>
    let f := reqFactory m in
    (Ok (mkRequest (pretty (nextUid f)) INIT true false [] None 0),
     set_reqFactory (mkRequestFactory (S (nextUid f)) (nextFilterId f)) m).

(** Modelled from the spec: [reqFactory.mapListenerRequest(subscribe,
    keyOrFilter, isLite?)]: a request stamped with the next correlation
    id, carrying the serialized key, or the filter with the next
    client-chosen filter id. *)
Definition mapListenerRequest (subscribe : bool) (kf : KeyOrFilter)
    (isLite : option bool) : M MapListenerRequest :=
  fun m =>
    let f := reqFactory m in
    let uid := pretty (nextUid f) in
    let type := if subscribe then SUBSCRIBE else UNSUBSCRIBE in
    let lite := default false isLite in
    match kf with
    | OfKey key =>
        (Ok (mkRequest uid type subscribe lite
               (serialize (serializer m) key) None 0),
         set_reqFactory (mkRequestFactory (S (nextUid f)) (nextFilterId f)) m)
    | OfFilter filter =>
        (Ok (mkRequest uid type subscribe lite [] (Some filter)
               (nextFilterId f)),
         set_reqFactory
           (mkRequestFactory (S (nextUid f)) (nextFilterId f + 1)) m)
    end.

(** **** Promises and the duplex stream *)

(** [new Promise(...)], waiting for the acknowledgement of [uid]. *)
Definition new_promise (uid : string) (m : MapEventsManager)
    : MapEventsManager :=
  set_promises (<[uid := Pending]> (promises m)) m.

Definition promise_state (p : string) (m : MapEventsManager)
    : Promise unit :=
  default Pending (promises m !! p).

(** [resolve()] or [reject(err)]: only a pending promise changes. *)
Definition settle (p : string) (v : Promise unit) (m : MapEventsManager)
    : MapEventsManager :=
  match promise_state p m with
  | Pending => set_promises (<[p := v]> (promises m)) m
  | _ => m
  end.

(** Calling a callback kept in [pendingSubscriptions]:
    [(uid, resp, err) => { pendingSubscriptions.delete(uid); if (err)
    reject(err) else resolve(...) }]. *)
Definition invoke_callback (callback : SubscriptionCallback) (uid : string)
    (err : option string) (m : MapEventsManager) : MapEventsManager :=
  let m1 := set_pendingSubscriptions (delete uid (pendingSubscriptions m)) m in
  match err with
  | Some e => settle (settles callback) (Rejected e) m1
  | None => settle (settles callback) (Fulfilled tt) m1
  end.

(** [stream.write(request)]: the request goes out, and what the server
    answers to it is on its way back. *)
Definition stream_write (request : MapListenerRequest) : M unit :=
  modify (fun m =>
    set_inflight (inflight m ++ respond (client m) request)
      (set_wire (wire m ++ [Sent request]) m)).

(** [bidiStream.cancel()]: a cancelled call hands over no further
    message. *)
Definition stream_cancel : M unit :=
  modify (fun m => set_inflight [] (set_wire (wire m ++ [Cancelled]) m)).

Definition emit (name : string) (args : list string) : M unit :=
  modify (fun m => set_emitter (emitter m ++ [mkEmission name args]) m).

(** A promise that nothing settles. *)
Definition block {A : Type} : M A := fun m => (Blocked, m).

(** **** [ListenerGroup.notifyListeners] *)

(** The [switch (mapEvent.getId())] of the loop body, for one
    listener. *)
Definition dispatch (listener : MapListener) (mapEvent : MapEvent)
    : list Invocation * Completion unit :=
  if (MapEvent_getId mapEvent =? ENTRY_DELETED)%Z then
    ([(identity listener, ViaDeleted)], entryDeleted listener mapEvent)
  else if (MapEvent_getId mapEvent =? ENTRY_INSERTED)%Z then
    ([(identity listener, ViaInserted)], entryInserted listener mapEvent)
  else if (MapEvent_getId mapEvent =? ENTRY_UPDATED)%Z then
    ([(identity listener, ViaUpdated)], entryUpdated listener mapEvent)
  else ([], Returns tt).

(** [for (const listener of this.listeners.keys()) ...]: the sinks
    called, in order, and how the loop ended. *)
Fixpoint notify_each (keys : list MapListener) (mapEvent : MapEvent)
    : list Invocation * Completion unit :=
  match keys with
  | [] => ([], Returns tt)
  | listener :: rest =>
      match dispatch listener mapEvent with
      | (calls, Returns _) =>
          let '(calls', r) := notify_each rest mapEvent in
          (calls ++ calls', r)
      | (calls, Throws err) => (calls, Throws err)
      end
  end.

Definition notifyListeners (self : ListenerGroup) (mapEvent : MapEvent)
    : list Invocation * Completion unit :=
  notify_each (map fst (listeners self)) mapEvent.

(** **** Inbound messages *)

(** Modelled from the spec: the names of [CacheLifecycleEvent] (its
    module is not part of these sources). *)
Definition CacheLifecycleEvent_DESTROYED : string := "cache_destroyed".
Definition CacheLifecycleEvent_TRUNCATED : string := "cache_truncated".

(** [group.notifyListeners(mapEvent)] on the group behind a reference;
    the sinks called are recorded. *)
Definition notify_group (group : GroupRef) (mapEvent : MapEvent)
    (m : MapEventsManager) : Completion unit * MapEventsManager :=
  match groups m !! group with
  | Some self =>
      let '(calls, r) := notifyListeners self mapEvent in
      (r, set_notified (notified m ++ calls) m)
  | None => (Returns tt, m)
  end.

(** [for (const id of event.getFilteridsList()) ...] *)
Fixpoint notify_filter_groups (ids : list Z) (mapEvent : MapEvent)
    (m : MapEventsManager) : Completion unit * MapEventsManager :=
  match ids with
  | [] => (Returns tt, m)
  | id :: rest =>
      match filterId2ListenerGroup m !! id with
      | Some group =>
          match notify_group group mapEvent m with
          | (Returns _, m') => notify_filter_groups rest mapEvent m'
          | (Throws err, m') => (Throws err, m')
          end
      | None => notify_filter_groups rest mapEvent m
      end
  end.

(** [handleResponse(resp)], the ['data'] handler of the stream. *)
Definition handleResponse (resp : MapListenerResponse)
    (m : MapEventsManager) : Completion unit * MapEventsManager :=
  match resp with
  | Subscribed uid | Unsubscribed uid =>
      if String.eqb uid "" then (Returns tt, m)
      else
        let callback := pendingSubscriptions m !! uid in
        let m1 :=
          set_pendingSubscriptions (delete uid (pendingSubscriptions m)) m in
        match callback with
        | Some cb => (Returns tt, invoke_callback cb uid None m1)
        | None => (Returns tt, m1)
        end
  | Destroyed cache =>
      if String.eqb cache (mapName m) then
        (Returns tt,
         set_emitter
           (emitter m ++ [mkEmission CacheLifecycleEvent_DESTROYED [mapName m]])
           m)
      else (Returns tt, m)
  | Truncated cache =>
      if String.eqb cache (mapName m) then
        (Returns tt,
         set_emitter
           (emitter m ++ [mkEmission CacheLifecycleEvent_TRUNCATED [mapName m]])
           m)
      else (Returns tt, m)
  | Event event =>
      let mapEvent := mkMapEvent (mapName m) event (serializer m) in
      match notify_filter_groups (getFilteridsList event) mapEvent m with
      | (Returns _, m1) =>
          match keyMap m1 !! MapEvent_getKey mapEvent with
          | Some keyGroup => notify_group keyGroup mapEvent m1
          | None => (Returns tt, m1)
          end
      | (Throws err, m1) => (Throws err, m1)
      end
  | RESPONSE_TYPE_NOT_SET => (Returns tt, m)
  end.

(** The event loop hands the responses to the ['data'] handler one by
    one; an error a listener throws escapes from the handler. *)
Fixpoint handle_all (resps : list MapListenerResponse)
    (m : MapEventsManager) : MapEventsManager :=
  match resps with
  | [] => m
  | resp :: rest =>
      match handleResponse resp m with
      | (Returns _, m1) => handle_all rest m1
      | (Throws err, m1) =>
          handle_all rest (set_uncaught (uncaught m1 ++ [err]) m1)
      end
  end.

(** The responses on their way are delivered. *)
Definition deliver (m : MapEventsManager) : MapEventsManager :=
  handle_all (inflight m) (set_inflight [] m).

(** The event loop between two calls of the application. *)
Definition idle : M unit := modify deliver.

(** [await p].  A settled promise lets the code go on at once; on a
    pending one the event loop runs, the stream delivers what the server
    has sent, and the code goes on if that settled the promise. *)
Definition await (p : string) : M unit :=
  fun m =>
    match promise_state p m with
    | Fulfilled _ => (Ok tt, m)
    | Rejected err => (Raised err, m)
    | Pending =>
        let m' := deliver m in
        match promise_state p m' with
        | Fulfilled _ => (Ok tt, m')
        | Rejected err => (Raised err, m')
        | Pending => (Blocked, m')
        end
    end.

(** Stream errors, ends and cancellations are emitted on the map's
    emitter unless the manager is closing. *)
Definition onError (err : string) : M unit :=
  let* closing := gets markedForClose in
  if negb closing then
    let* name := gets mapName in
    emit "error" [String.append name ": Received onError"; err]
  else ret tt.

Definition onEnd : M unit :=
  let* closing := gets markedForClose in
  if negb closing then
    let* name := gets mapName in
    emit "error" [String.append name ": Received onEnd"]
  else ret tt.

Definition onCancel : M unit :=
  let* closing := gets markedForClose in
  if negb closing then emit "error" ["** Received onCancel"]
  else ret tt.

(** **** The stream *)

(** [ensureStream()]; the result is the stream promise. *)
Definition ensureStream : M string :=
  let* current := gets streamPromise in
  match current with
  | None =>
      modify (fun m => set_wire (wire m ++ [Opened]) m) ;;
      let* request := mapEventSubscribe in
      let initUid := getUid request in
      modify (new_promise initUid) ;;
      modify (fun m =>
        set_pendingSubscriptions
          (<[initUid := mkCallback initUid]> (pendingSubscriptions m)) m) ;;
      stream_write request ;;
      modify (set_streamPromise (Some initUid)) ;;
      ret initUid
  | Some p => ret p
  end.

(** [await writeRequest(request)]: the stream is awaited, the callback
    is registered, the request is written, and the caller waits for the
    acknowledgement. *)
Definition writeRequest (request : MapListenerRequest) : M unit :=
  let* stream := ensureStream in
  await stream ;;
  modify (new_promise (getUid request)) ;;
  modify (fun m =>
    set_pendingSubscriptions
      (<[getUid request := mkCallback (getUid request)]>
         (pendingSubscriptions m)) m) ;;
  stream_write request ;;
  await (getUid request).

(** [closeEventStream()].  After [cancel()] the stream emits ['error']
    with its cancellation status: [onError] runs first, then the handler
    installed here, which resolves the promise awaited when
    [err.toString().indexOf('CANCELLED')] is truthy. *)
Definition closeEventStream : M unit :=
  let* closing := gets markedForClose in
  let* current := gets streamPromise in
  match current with
  | Some p =>
      if negb closing then
        modify (set_markedForClose true) ;;
        await p ;;
        stream_cancel ;;
        let* err := gets (fun m => cancelStatus (client m)) in
        onError err ;;
        if truthy_number (indexOf err "CANCELLED") then
          modify (set_streamPromise None)
        else block
      else ret tt
  | None => ret tt
  end.

(** **** Index maintenance *)

Definition keyGroupUnsubscribed (key : Key) : M unit :=
  modify (fun m => set_keyMap (delete key (keyMap m)) m).

Definition filterGroupSubscribed (filterId : Z) (group : GroupRef) : M unit :=
  modify (fun m =>
    set_filterId2ListenerGroup
      (<[filterId := group]> (filterId2ListenerGroup m)) m).

Definition filterGroupUnsubscribed (filterId : Z) (filter : MapEventFilter)
    : M unit :=
  modify (fun m =>
    set_filterId2ListenerGroup (delete filterId (filterId2ListenerGroup m)) m) ;;
  modify (fun m => set_filterMap (delete filter (filterMap m)) m).

(** **** [ListenerGroup]'s methods, on the group behind a reference *)

(** The fields of [this]. *)
Definition this (g : GroupRef) : M ListenerGroup :=
  fun m =>
    match groups m !! g with
    | Some self => (Ok self, m)
    | None => (Raised "TypeError: no such group", m)
    end.

(** An assignment to fields of [this]. *)
Definition update (g : GroupRef) (f : ListenerGroup -> ListenerGroup)
    : M unit :=
  fun m =>
    match groups m !! g with
    | Some self => (Ok tt, set_groups (<[g := f self]> (groups m)) m)
    | None => (Raised "TypeError: no such group", m)
    end.

Definition set_registeredIsLite (x : bool) (self : ListenerGroup)
    : ListenerGroup :=
  {| isActive := isActive self; keyOrFilter := keyOrFilter self;
     registeredIsLite := x; listeners := listeners self;
     isLiteFalseCount := isLiteFalseCount self |}.

Definition set_listeners (x : list (MapListener * bool))
    (self : ListenerGroup) : ListenerGroup :=
  {| isActive := isActive self; keyOrFilter := keyOrFilter self;
     registeredIsLite := registeredIsLite self; listeners := x;
     isLiteFalseCount := isLiteFalseCount self |}.

Definition set_isLiteFalseCount (x : Z) (self : ListenerGroup)
    : ListenerGroup :=
  {| isActive := isActive self; keyOrFilter := keyOrFilter self;
     registeredIsLite := registeredIsLite self; listeners := listeners self;
     isLiteFalseCount := x |}.

(** [KeyListenerGroup.postSubscribe] does nothing;
    [FilterListenerGroup.postSubscribe] indexes the group by the filter
    id of the request. *)
Definition postSubscribe (g : GroupRef) (request : MapListenerRequest)
    : M unit :=
  let* self := this g in
  match keyOrFilter self with
  | OfKey _ => ret tt
  | OfFilter _ => filterGroupSubscribed (getFilterid request) g
  end.

(** [KeyListenerGroup.postUnsubscribe] and
    [FilterListenerGroup.postUnsubscribe]. *)
Definition postUnsubscribe (g : GroupRef) (request : MapListenerRequest)
    : M unit :=
  let* self := this g in
  match keyOrFilter self with
  | OfKey _ =>
      let* ser := gets serializer in
      let key := deserialize ser (getKey request) in
      keyGroupUnsubscribed key
  | OfFilter filter => filterGroupUnsubscribed (getFilterid request) filter
  end.

Definition doSubscribe (g : GroupRef) (isLite : bool) : M unit :=
  let* self := this g in
  let* request := mapListenerRequest true (keyOrFilter self) (Some isLite) in
  writeRequest request ;;
  postSubscribe g request.

Definition doUnsubscribe (g : GroupRef) : M unit :=
  let* self := this g in
  let* request := mapListenerRequest false (keyOrFilter self) None in
  writeRequest request ;;
  postUnsubscribe g request.

(** [async addListener(listener, isLite)] *)
Definition addListener (g : GroupRef) (listener : MapListener)
    (isLite : bool) : M unit :=
  let* self := this g in
  let prevStatus := listeners_get (listeners self) listener in
  if match prevStatus with
     | Some prevIsLite => Bool.eqb prevIsLite isLite
     | None => false
     end
  then ret tt
  else
    update g (fun self =>
      set_listeners (listeners_set (listeners self) listener isLite) self) ;;
    (if negb isLite
     then update g (fun self =>
            set_isLiteFalseCount (isLiteFalseCount self + 1) self)
     else ret tt) ;;
    let* self := this g in
    let requireRegistrationRequest :=
      (length (listeners self) =? 1)%nat
      || (registeredIsLite self && negb isLite) in
    if requireRegistrationRequest then
      update g (set_registeredIsLite isLite) ;;
      (if (1 <? length (listeners self))%nat
       then doUnsubscribe g
       else ret tt) ;;
      doSubscribe g isLite
    else ret tt.

(** [async removeListener(listener)] *)
Definition removeListener (g : GroupRef) (listener : MapListener) : M unit :=
  let* self := this g in
  match listeners_get (listeners self) listener with
  | None => ret tt
  | Some prevIsLite =>
      if (length (listeners self) =? 0)%nat then ret tt
      else
        update g (fun self =>
          set_listeners (listeners_delete (listeners self) listener) self) ;;
        let* self := this g in
        if (length (listeners self) =? 0)%nat then doUnsubscribe g
        else if negb prevIsLite then
          update g (fun self =>
            set_isLiteFalseCount (isLiteFalseCount self - 1) self) ;;
          let* self := this g in
          if (isLiteFalseCount self =? 0)%Z then
            doUnsubscribe g ;;
            doSubscribe g true
          else ret tt
        else ret tt
  end.

(** **** The manager's registration methods *)

(** [new KeyListenerGroup(this, key)] or [new FilterListenerGroup(this,
    filter)]: a new object. *)
Definition new_group (kf : KeyOrFilter) : M GroupRef :=
  fun m =>
    let g := size (groups m) in
    (Ok g, set_groups (<[g := new_ListenerGroup kf]> (groups m)) m).

(** [registerKeyListener(listener, key, isLite = false)] *)
Definition registerKeyListener (listener : MapListener) (key : Key)
    (isLite : option bool) : M unit :=
  let* found := gets (fun m => keyMap m !! key) in
  let* group :=
    match found with
    | Some group => ret group
    | None =>
        let* group := new_group (OfKey key) in
        modify (fun m => set_keyMap (<[key := group]> (keyMap m)) m) ;;
        ret group
    end in
  addListener group listener (default false isLite).

Definition removeKeyListener (listener : MapListener) (key : Key) : M unit :=
  let* found := gets (fun m => keyMap m !! key) in
  match found with
  | Some group => removeListener group listener
  | None => ret tt
  end.

(** [registerFilterListener(listener, mapFilter, isLite = false)];
    [None] is a [null] filter. *)
Definition registerFilterListener (listener : MapListener)
    (mapFilter : option MapEventFilter) (isLite : option bool) : M unit :=
  let filter := default DEFAULT_FILTER mapFilter in
  let* found := gets (fun m => filterMap m !! filter) in
  let* group :=
    match found with
    | Some group => ret group
    | None =>
        let* group := new_group (OfFilter filter) in
        modify (fun m => set_filterMap (<[filter := group]> (filterMap m)) m) ;;
        ret group
    end in
  addListener group listener (default false isLite).

Definition removeFilterListener (listener : MapListener)
    (mapFilter : option MapEventFilter) : M unit :=
  let filter := default DEFAULT_FILTER mapFilter in
  let* found := gets (fun m => filterMap m !! filter) in
  match found with
  | None => ret tt
  | Some group => removeListener group listener
  end.

(** [constructor(namedMap, client, serializer, emitter)]: the fields are
    initialized, then [this.streamPromise = this.ensureStream()]. *)
Definition new_MapEventsManager (name : string)
    (client : NamedCacheServiceClient) (serializer : Serializer)
    : MapEventsManager :=
  let m :=
    {| mapName := name; client := client;
       reqFactory := mkRequestFactory 1 1;
       streamPromise := None; markedForClose := false;
       pendingSubscriptions := ∅;
       keyMap := ∅; filterMap := ∅; filterId2ListenerGroup := ∅;
       serializer := serializer; emitter := [];
       groups := ∅; promises := ∅; wire := []; inflight := [];
       notified := []; uncaught := [] |} in
  match ensureStream m with
  | (Ok p, m') => set_streamPromise (Some p) m'
  | (_, m') => m'
  end.

(** The sinks a dispatch calls on the listeners [keys], in order. *)
Definition sinks_called (keys : list MapListener) (mapEvent : MapEvent)
    : list Invocation :=
  concat (map (fun listener => fst (dispatch listener mapEvent)) keys).

(** A computation leaves an observation [proj] of the manager as it
    was, however it ends. *)
Definition keeps {X A : Type} (proj : MapEventsManager -> X) (c : M A)
    : Prop :=
  forall m o m', c m = (o, m') -> proj m' = proj m.

(** An application that starts a call and does not wait for it: the call
    runs as far as it can. *)
Definition start {A : Type} (c : M A) : M unit :=
  fun m => (Ok tt, snd (c m)).

(** The SUBSCRIBE requests among what went out on the stream. *)
Definition subscribes (w : list WireAction) : list MapListenerRequest :=
  omap (fun a =>
          match a with
          | Sent request =>
              match getType request with
              | SUBSCRIBE => Some request
              | _ => None
              end
          | _ => None
          end) w.

Definition subscribed (m : MapEventsManager) : list MapListenerRequest :=
  subscribes (wire m).

(** *** Concrete inputs *)

Definition utf8 : Serializer :=
  mkSerializer list_byte_of_string string_of_list_byte.

(** A server that acknowledges every request. *)
Definition acking_client : NamedCacheServiceClient :=
  mkClient
    (fun request =>
       match getType request with
       | INIT | SUBSCRIBE => [Subscribed (getUid request)]
       | UNSUBSCRIBE => [Unsubscribed (getUid request)]
       end)
    "Error: 1 CANCELLED: Cancelled on client".

(** A server that acknowledges the INIT request and nothing else. *)
Definition silent_client : NamedCacheServiceClient :=
  mkClient
    (fun request =>
       match getType request with
       | INIT => [Subscribed (getUid request)]
       | _ => []
       end)
    "Error: 1 CANCELLED: Cancelled on client".

(** A listener whose sinks return, and one whose sinks throw. *)
Definition quiet_listener (id : nat) : MapListener :=
  mkMapListener id
    (fun _ => Returns tt) (fun _ => Returns tt) (fun _ => Returns tt).

Definition throwing_listener (id : nat) : MapListener :=
  mkMapListener id
    (fun _ => Throws "boom") (fun _ => Throws "boom")
    (fun _ => Throws "boom").

(** An INSERTED event for key ["k"]. *)
Definition inserted_k : MapEvent :=
  mkMapEvent "m"
    (mkMapEventResponse ENTRY_INSERTED (list_byte_of_string "k") [])
    utf8.

(** A group with a throwing listener followed by a quiet one. *)
Definition mixed_group : ListenerGroup :=
  {| isActive := true; keyOrFilter := OfKey "k"; registeredIsLite := true;
     listeners := [(throwing_listener 1, true); (quiet_listener 2, true)];
     isLiteFalseCount := 0 |}.

(** A manager in which the group of key ["k"] has just been created, as
    [registerKeyListener] does before it calls [addListener]. *)
Definition manager_with_new_group : MapEventsManager :=
  snd ((let* group := new_group (OfKey "k") in
        modify (fun m => set_keyMap (<["k" := group]> (keyMap m)) m))
         (new_MapEventsManager "m" acking_client utf8)).

(** Scenario "close with pending ack": a listener is registered, the
    acknowledgement of its SUBSCRIBE does not arrive. *)
Definition manager_with_pending_ack : MapEventsManager :=
  snd (registerKeyListener (quiet_listener 1) "k" (Some true)
         (new_MapEventsManager "m" silent_client utf8)).

(** *** Notions used to state further properties *)

(** The part of the manager that the inbound path ([handleResponse] and
    the callbacks it calls) leaves alone. *)
Definition core (m : MapEventsManager) :=
  (mapName m, client m, reqFactory m, streamPromise m, markedForClose m,
   keyMap m, filterMap m, filterId2ListenerGroup m, serializer m,
   groups m, wire m).

(** The requests other than INIT among what went out on the stream. *)
Definition requests (w : list WireAction) : list MapListenerRequest :=
  omap (fun a =>
          match a with
          | Sent request =>
              match getType request with
              | INIT => None
              | _ => Some request
              end
          | _ => None
          end) w.

Definition requested (m : MapEventsManager) : list MapListenerRequest :=
  requests (wire m).

(** The number of duplex streams opened. *)
Definition streams_opened (m : MapEventsManager) : nat :=
  length (omap (fun a => match a with Opened => Some tt | _ => None end)
            (wire m)).

(** Every callback in [pendingSubscriptions] is kept under the uid of
    the request whose promise it settles. *)
Definition callbacks_consistent (m : MapEventsManager) : Prop :=
  forall uid cb,
    pendingSubscriptions m !! uid = Some cb -> settles cb = uid.

(** The groups an event is dispatched to: those of its filter ids that
    are indexed, in the order of the ids, then the group of its key. *)
Definition event_targets (event : MapEventResponse) (m : MapEventsManager)
    : list GroupRef :=
  omap (fun id => filterId2ListenerGroup m !! id) (getFilteridsList event)
  ++ match keyMap m !! deserialize (serializer m) (getEventKey event) with
     | Some keyGroup => [keyGroup]
     | None => []
     end.

(** The sinks called when [mapEvent] is dispatched to the groups
    [targets], none of the listeners throwing. *)
Definition calls_on (targets : list GroupRef) (mapEvent : MapEvent)
    (m : MapEventsManager) : list Invocation :=
  concat (map (fun g =>
                 match groups m !! g with
                 | Some self => sinks_called (map fst (listeners self)) mapEvent
                 | None => []
                 end) targets).

(** No listener of any group throws on [mapEvent]. *)
Definition listeners_return (mapEvent : MapEvent) (m : MapEventsManager)
    : Prop :=
  forall g self,
    groups m !! g = Some self ->
    Forall (fun x => snd (dispatch x mapEvent) = Returns tt)
      (map fst (listeners self)).

(** The serializer gives a key back from its bytes. *)
Definition key_round_trip (m : MapEventsManager) (key : Key) : Prop :=
  deserialize (serializer m) (serialize (serializer m) key) = key.

(** A client whose stream reports its cancellation with a text that
    begins with the word the close handler looks for. *)
Definition terse_client : NamedCacheServiceClient :=
  mkClient
    (fun request =>
       match getType request with
       | INIT | SUBSCRIBE => [Subscribed (getUid request)]
       | UNSUBSCRIBE => [Unsubscribed (getUid request)]
       end)
    "CANCELLED".

(** A manager whose stream is established: the INIT request has been
    acknowledged. *)
Definition established_manager (client : NamedCacheServiceClient)
    : MapEventsManager :=
  deliver (new_MapEventsManager "m" client utf8).

(** A manager with one lite listener registered on key ["k"]. *)
Definition manager_with_listener : MapEventsManager :=
  snd (registerKeyListener (quiet_listener 1) "k" (Some true)
         (new_MapEventsManager "m" acking_client utf8)).

(** A manager with a listener on every event (the default filter) and
    another on key ["k"]. *)
Definition manager_with_filter_and_key : MapEventsManager :=
  snd ((registerFilterListener (quiet_listener 1) None (Some true) ;;
        registerKeyListener (quiet_listener 2) "k" (Some true))
         (new_MapEventsManager "m" acking_client utf8)).

(** An INSERTED event for key ["k"] that matched the filters 1 and 9. *)
Definition inserted_k_event : MapEventResponse :=
  mkMapEventResponse ENTRY_INSERTED (list_byte_of_string "k") [1%Z; 9%Z].

(** What no registration, removal or inbound message changes. *)
Definition config (m : MapEventsManager) :=
  (mapName m, client m, serializer m, markedForClose m).

(** A computation that, run while the stream promise is set, leaves the
    promise as it is and opens no stream. *)
Definition stream_kept {A : Type} (c : M A) : Prop :=
  forall m o m' p,
    streamPromise m = Some p -> c m = (o, m') ->
    streamPromise m' = Some p /\ streams_opened m' = streams_opened m.

(** The indexes of the manager and the groups they lead to. *)
Definition indexes (m : MapEventsManager) :=
  (groups m, keyMap m, filterMap m, filterId2ListenerGroup m, serializer m).

(** The request names the key or the filter [kf]. *)
Definition request_targets (m : MapEventsManager)
    (request : MapListenerRequest) (kf : KeyOrFilter) : Prop :=
  match kf with
  | OfKey key =>
      getKey request = serialize (serializer m) key /\
      getFilter request = None
  | OfFilter filter => getFilter request = Some filter
  end.

(** The group is no longer found under its key (when the serializer
    gives the key back) or its filter. *)
Definition unindexed (m : MapEventsManager) (kf : KeyOrFilter) : Prop :=
  match kf with
  | OfKey key => key_round_trip m key -> keyMap m !! key = None
  | OfFilter filter => filterMap m !! filter = None
  end.

(** The manager with one lite listener on key ["k"], after a second
    listener has asked for full events on that key. *)
Definition manager_after_upgrade : MapEventsManager :=
  snd (addListener 0%nat (quiet_listener 2) false manager_with_listener).

(** The group [self] with one more record. *)
Definition with_listener (listener : MapListener) (isLite : bool)
    (self : ListenerGroup) : ListenerGroup :=
  {| isActive := isActive self; keyOrFilter := keyOrFilter self;
     registeredIsLite := registeredIsLite self;
     listeners := listeners self ++ [(listener, isLite)];
     isLiteFalseCount :=
       if isLite then isLiteFalseCount self else isLiteFalseCount self + 1 |}.

(** The promises and the callbacks that wait for an acknowledgement. *)
Definition waiting (m : MapEventsManager) :=
  (promises m, pendingSubscriptions m).

(** The promise of the request [uid] is pending as long as its callback
    is kept. *)
Definition callback_pending (uid : string) (m : MapEventsManager) : Prop :=
  promise_state uid m = Pending \/ pendingSubscriptions m !! uid = None.

(** The stream promise is set and is fulfilled, or is found fulfilled
    when it is awaited: the acknowledgement of INIT has arrived or is on
    its way. *)
Definition stream_established (m : MapEventsManager) : Prop :=
  exists p, streamPromise m = Some p /\ fst (await p m) = Ok tt.

End MapEvents.

(** ** The session: the [Session] class *)

Module Session.
Import Js.

(** [Session.makeCacheKey(cacheName, format)] *)
Definition makeCacheKey (cacheName format : string) : string :=
  String.append (String.append cacheName ":") format.

(** [Session.isKeyForCacheName(key, cacheName)]:
    [key.startsWith(cacheName + ':')]. *)
Definition isKeyForCacheName (key cacheName : string) : bool :=
  String.prefix (String.append cacheName ":") key.

(** What [emit] was called with on the session. *)
Record Emission : Type := mkEmission {
  eventName : string;
  eventArgs : list string
}.

(** How [close()] has ended once the event loop has nothing left to
    run; [OutOfFuel] is not an end of the code, but of the bound given
    to its loop. *)
Inductive Outcome (A : Type) : Type :=
| Ok (a : A)
| Blocked
| Raised (err : string)
| OutOfFuel.
Arguments Ok {A} a.
Arguments Blocked {A}.
Arguments Raised {A} err.
Arguments OutOfFuel {A}.

Section Clients.

(** The class [NamedCacheClient] is not part of these sources; the
    session only keeps its instances and calls [release()] on them. *)
Variable NamedCacheClient : Type.

(** The [caches] map, a JavaScript [Map]: its entries in insertion
    order.  [delete] empties the slot of an entry and iteration skips
    empty slots, which is how a loop over the map sees the deletions
    made while it runs. *)
Local Abbreviation CacheMap := (list (option (string * NamedCacheClient))).

Definition map_entries (m : CacheMap) : list (string * NamedCacheClient) :=
  omap id m.

(** [m.size] *)
Definition map_size (m : CacheMap) : nat := length (map_entries m).

(** [m.get(key)] *)
Definition map_get (key : string) (m : CacheMap) : option NamedCacheClient :=
  snd <$> List.find (fun entry => String.eqb (fst entry) key) (map_entries m).

(** [m.delete(key)] *)
Definition map_delete (key : string) (m : CacheMap) : CacheMap :=
  (fun slot =>
     match slot with
     | Some (k, client) =>
         if String.eqb k key then None else Some (k, client)
     | None => None
     end) <$> m.

(** The fields of a [Session] that its handlers and [close()] use, with
    what the session has emitted and whether [channel.close()] was
    called. *)
Record Session : Type := mkSession {
  markedForClose : bool;
  closed : bool;
  caches : CacheMap;
  sessionClosedPromise : Promise bool;
  channelClosed : bool;
  emitted : list Emission
}.

Definition set_markedForClose (b : bool) (s : Session) : Session :=
  mkSession b (closed s) (caches s) (sessionClosedPromise s)
    (channelClosed s) (emitted s).

Definition set_closed (b : bool) (s : Session) : Session :=
  mkSession (markedForClose s) b (caches s) (sessionClosedPromise s)
    (channelClosed s) (emitted s).

Definition set_caches (m : CacheMap) (s : Session) : Session :=
  mkSession (markedForClose s) (closed s) m (sessionClosedPromise s)
    (channelClosed s) (emitted s).

Definition set_sessionClosedPromise (p : Promise bool) (s : Session)
    : Session :=
  mkSession (markedForClose s) (closed s) (caches s) p
    (channelClosed s) (emitted s).

Definition set_channelClosed (b : bool) (s : Session) : Session :=
  mkSession (markedForClose s) (closed s) (caches s) (sessionClosedPromise s)
    b (emitted s).

Definition set_emitted (l : list Emission) (s : Session) : Session :=
  mkSession (markedForClose s) (closed s) (caches s) (sessionClosedPromise s)
    (channelClosed s) l.

(** [resolve(true)] of [sessionClosedPromise]: only a pending promise
    changes. *)
Definition resolve (v : bool) (s : Session) : Session :=
  match sessionClosedPromise s with
  | Pending => set_sessionClosedPromise (Fulfilled v) s
  | _ => s
  end.

(** The listener the constructor installs:
    [self.on('event', ...)]. *)
Definition on_event (s : Session) : Session :=
  if markedForClose s && (map_size (caches s) =? 0)%nat
  then resolve true (set_closed true s)
  else s.

(** [self.emit(name, ...args)]: the call is recorded and the session's
    own listener runs; listeners of the application are not part of the
    model. *)
Definition emit (name : string) (args : list string) (s : Session)
    : Session :=
  let s1 := set_emitted (emitted s ++ [mkEmission name args]) s in
  if String.eqb name "event" then on_event s1 else s1.

(** [for (let key of self.caches.keys()) body]: the slot [i] is read
    from the map as it is when the loop gets there.  [n] bounds the
    slots still to visit. *)
Fixpoint for_keys (n i : nat) (body : string -> Session -> Session)
    (s : Session) : Session :=
  match n with
  | O => s
  | S n' =>
      match caches s !! i with
      | None => s
      | Some None => for_keys n' (S i) body s
      | Some (Some (key, _)) => for_keys n' (S i) body (body key s)
      end
  end.

(** The body of the loop of the ['cache_destroyed'] handler. *)
Definition destroy_key (cacheName key : string) (s : Session) : Session :=
  if isKeyForCacheName key cacheName then
    emit "event" ["cache_destroyed"; cacheName]
      (emit "cache_destroyed" [cacheName]
         (set_caches (map_delete key (caches s)) s))
  else s.

(** The handlers [setupEventHandlers] installs on the emitter of a
    cache.  The body of the first one adds no entry to the map, so the
    number of slots at the start bounds its loop. *)
Definition on_cache_destroyed (cacheName : string) (s : Session) : Session :=
  for_keys (length (caches s)) 0 (destroy_key cacheName) s.

Definition on_cache_released (cacheName format : string) (s : Session)
    : Session :=
  emit "event" ["cache_released"; cacheName; format]
    (emit "cache_released" [cacheName; format]
       (set_caches (map_delete (makeCacheKey cacheName format) (caches s)) s)).

Definition on_cache_closed (cacheName format : string) (s : Session)
    : Session :=
  emit "event" ["cache_closed"; cacheName; format]
    (emit "cache_closed" [cacheName; format]
       (set_caches (map_delete (makeCacheKey cacheName format) (caches s)) s)).

(** [getActiveCacheCount()], [isClosed()] and [waitUntilClosed()] *)
Definition getActiveCacheCount (s : Session) : nat := map_size (caches s).
Definition isClosed (s : Session) : bool := closed s.
Definition waitUntilClosed (s : Session) : Promise bool :=
  sessionClosedPromise s.

(** [entry[1].release()] as awaited by [close()]: what the call does to
    the session and how its promise ends. *)
Variable release : NamedCacheClient -> Session -> Outcome unit * Session.

(** [for (let entry of this.caches.entries()) { await
    entry[1].release(); }], from slot [i] on. *)
Fixpoint release_all (fuel i : nat) (s : Session) : Outcome unit * Session :=
  match caches s !! i with
  | None => (Ok tt, s)
  | Some slot =>
      match fuel with
      | O => (OutOfFuel, s)
      | S fuel' =>
          match slot with
          | None => release_all fuel' (S i) s
          | Some (_, client) =>
              match release client s with
              | (Ok _, s1) => release_all fuel' (S i) s1
              | (o, s1) => (o, s1)
              end
          end
      end
  end.

(** [close()] *)
Definition close (fuel : nat) (s : Session) : Outcome unit * Session :=
  if markedForClose s then (Ok tt, s)
  else
    match release_all fuel 0 (set_markedForClose true s) with
    | (Ok _, s1) => (Ok tt, set_channelClosed true s1)
    | (o, s1) => (o, s1)
    end.

(** The map without the clients of the cache [cacheName]. *)
Definition without_cache (cacheName : string) (m : CacheMap) : CacheMap :=
  (fun slot =>
     match slot with
     | Some (k, client) =>
         if isKeyForCacheName k cacheName then None else Some (k, client)
     | None => None
     end) <$> m.

(** Every client is kept under the key of its own name and format. *)
Definition keyed_by (cacheName cacheFormat : NamedCacheClient -> string)
    (m : CacheMap) : Prop :=
  forall key client,
    In (Some (key, client)) m ->
    key = makeCacheKey (cacheName client) (cacheFormat client).

End Clients.

Arguments map_entries {NamedCacheClient} m.
Arguments map_size {NamedCacheClient} m.
Arguments map_get {NamedCacheClient} key m.
Arguments map_delete {NamedCacheClient} key m.
Arguments mkSession {NamedCacheClient}.
Arguments markedForClose {NamedCacheClient} s.
Arguments closed {NamedCacheClient} s.
Arguments caches {NamedCacheClient} s.
Arguments sessionClosedPromise {NamedCacheClient} s.
Arguments channelClosed {NamedCacheClient} s.
Arguments emitted {NamedCacheClient} s.
Arguments set_markedForClose {NamedCacheClient} b s.
Arguments set_closed {NamedCacheClient} b s.
Arguments set_caches {NamedCacheClient} m s.
Arguments set_sessionClosedPromise {NamedCacheClient} p s.
Arguments set_channelClosed {NamedCacheClient} b s.
Arguments set_emitted {NamedCacheClient} l s.
Arguments resolve {NamedCacheClient} v s.
Arguments on_event {NamedCacheClient} s.
Arguments emit {NamedCacheClient} name args s.
Arguments for_keys {NamedCacheClient} n i body s.
Arguments destroy_key {NamedCacheClient} cacheName key s.
Arguments on_cache_destroyed {NamedCacheClient} cacheName s.
Arguments on_cache_released {NamedCacheClient} cacheName format s.
Arguments on_cache_closed {NamedCacheClient} cacheName format s.
Arguments getActiveCacheCount {NamedCacheClient} s.
Arguments isClosed {NamedCacheClient} s.
Arguments waitUntilClosed {NamedCacheClient} s.
Arguments release_all {NamedCacheClient} release fuel i s.
Arguments close {NamedCacheClient} release fuel s.
Arguments without_cache {NamedCacheClient} cacheName m.
Arguments keyed_by {NamedCacheClient} cacheName cacheFormat m.

(** *** Concrete inputs *)

(** A client that stands for a cache name and a format, and whose
    [release()] raises ['cache_released'] for them at once. *)
Definition releasing_client : Type := string * string.

Definition release_now (client : releasing_client)
    (s : Session releasing_client) : Outcome unit * Session releasing_client :=
  (Ok tt, on_cache_released (fst client) (snd client) s).

Definition new_session (m : list (option (string * releasing_client)))
    : Session releasing_client :=
  mkSession false false m Pending false [].

(** A session with clients of the caches ["a"] and ["a:b"], and a slot
    left empty by an earlier release. *)
Definition two_caches : Session releasing_client :=
  new_session
    [Some ("a:json", ("a", "json")); None;
     Some ("a:b:json", ("a:b", "json"))].

End Session.


(** ** Properties of the paged remote sets *)

Module StreamedCollectionSpec.
Import Js StreamedCollection.

Section Advancer.
Context {R T : Type}.
Implicit Types (h : IStreamedDataHelper R T) (self : PageAdvancer R).
Implicit Types (rpcs : list Cookie) (pages : list (list R)).

Lemma on_data_rest h msgs c page :
  on_data h msgs false c page = (c, page ++ msgs).
Proof.
  revert page; induction msgs as [|r rest IH]; intros page; simpl.
  - by rewrite app_nil_r.
  - rewrite IH. by rewrite <- app_assoc.
Qed.

Lemma on_data_first h r es c :
  on_data h (r :: es) true c [] = (extractCookie h r, es).
Proof. simpl. by rewrite on_data_rest. Qed.

(** Loading a page whose stream ends normally and starts with [r]. *)
Lemma loadNextPage_page h rpcs self r es :
  loadNextPage h rpcs (cookie self) = mkServerStream (r :: es) None ->
  PageAdvancer_loadNextPage h rpcs self =
    (Fulfilled es, rpcs ++ [cookie self],
     {| exhausted := cookie_is_empty (extractCookie h r);
        data := data self; current := current self;
        cookie := extractCookie h r |}).
Proof.
  intros Hcall. unfold PageAdvancer_loadNextPage.
  rewrite Hcall. cbn [messages failure]. by rewrite on_data_first.
Qed.

Lemma next_mono fuel h rpcs self res :
  next fuel h rpcs self = Some res ->
  forall fuel', (fuel <= fuel')%nat -> next fuel' h rpcs self = Some res.
Proof.
  revert rpcs self res.
  induction fuel as [|fuel IH]; intros rpcs self res Hn fuel' Hle.
  - discriminate.
  - destruct fuel' as [|fuel']; [lia|].
    simpl in Hn |- *.
    destruct (data self); [|exact Hn].
    destruct (negb (exhausted self)); [|exact Hn].
    destruct (PageAdvancer_loadNextPage h rpcs _) as [[[page|err|] rpcs'] self2];
      [|exact Hn|discriminate].
    apply (IH _ _ _ Hn). lia.
Qed.

Lemma drain_mono fuel h rpcs self res :
  drain fuel h rpcs self = Some res ->
  forall fuel', (fuel <= fuel')%nat -> drain fuel' h rpcs self = Some res.
Proof.
  revert rpcs self res.
  induction fuel as [|fuel IH]; intros rpcs self res Hd fuel' Hle.
  - discriminate.
  - destruct fuel' as [|fuel']; [lia|].
    cbn [drain] in Hd |- *.
    destruct (next (S fuel) h rpcs self) as [[[r rpcs'] self']|] eqn:Hn;
      [|discriminate].
    rewrite (next_mono _ _ _ _ _ Hn (S fuel')) by lia.
    destruct r as [|v|err]; try exact Hd.
    destruct (drain fuel h rpcs' self') as [[[[vs r'] rpcs''] self'']|] eqn:Hd';
      [|discriminate].
    rewrite (IH _ _ _ Hd' fuel') by lia. exact Hd.
Qed.

(** The buffered entries are handed out first, in order. *)
Lemma drain_buffer h rpcs ex cur c es fuel res vs r rpcs' self' :
  drain fuel h rpcs
    {| exhausted := ex; data := []; current := cur; cookie := c |} = Some res ->
  res = (vs, r, rpcs', self') ->
  drain (length es + fuel) h rpcs
    {| exhausted := ex; data := es; current := cur; cookie := c |}
  = Some (map (handleEntry h) es ++ vs, r, rpcs', self').
Proof.
  intros Hd ->. induction es as [|e es IH].
  - exact Hd.
  - cbn [length Nat.add drain next data exhausted current cookie].
    rewrite IH. reflexivity.
Qed.

(** A call of [next()] on an empty buffer that loads a page carries on
    as [next()] on the loaded page. *)
Lemma next_load h rpcs self r es fuel :
  data self = [] -> exhausted self = false ->
  loadNextPage h rpcs (cookie self) = mkServerStream (r :: es) None ->
  next (S fuel) h rpcs self =
  next fuel h (rpcs ++ [cookie self])
    {| exhausted := cookie_is_empty (extractCookie h r); data := es;
       current := -1; cookie := extractCookie h r |}.
Proof.
  intros Hdata Hex Hcall. cbn [next]. rewrite Hdata, Hex. cbn [negb].
  rewrite (loadNextPage_page h rpcs _ r es) by exact Hcall.
  reflexivity.
Qed.

Lemma drain_load h rpcs self r es fuel res :
  data self = [] -> exhausted self = false ->
  loadNextPage h rpcs (cookie self) = mkServerStream (r :: es) None ->
  drain fuel h (rpcs ++ [cookie self])
    {| exhausted := cookie_is_empty (extractCookie h r); data := es;
       current := -1; cookie := extractCookie h r |} = Some res ->
  drain (S fuel) h rpcs self = Some res.
Proof.
  intros Hdata Hex Hcall Hd.
  destruct fuel as [|fuel]; [discriminate|].
  cbn [drain] in Hd.
  remember (S fuel) as f eqn:Hf.
  cbn [drain]. rewrite (next_load h rpcs self r es f Hdata Hex Hcall).
  subst f.
  destruct (next (S fuel) h _ _) as [[[r0 rpcs'] self']|] eqn:Hn;
    [|discriminate].
  destruct r0 as [|v|err]; try exact Hd.
  destruct (drain fuel h rpcs' self') as [[[[vs r'] rpcs''] self'']|] eqn:Hd';
    [|discriminate].
  rewrite (drain_mono _ _ _ _ _ Hd' (S fuel)) by lia. exact Hd.
Qed.

(** The RPC log only grows. *)
Lemma next_rpcs_grow fuel h rpcs self res rpcs' self' :
  next fuel h rpcs self = Some (res, rpcs', self') ->
  exists more, rpcs' = rpcs ++ more.
Proof.
  revert rpcs self.
  induction fuel as [|fuel IH]; intros rpcs self Hn; [discriminate|].
  cbn [next] in Hn.
  destruct (data self).
  - destruct (negb (exhausted self)).
    + unfold PageAdvancer_loadNextPage in Hn.
      cbn [cookie] in Hn.
      destruct (on_data h _ true (cookie self) []) as [c page].
      destruct (failure _).
      * injection Hn as _ <- _. by eexists.
      * apply IH in Hn as [more ->]. exists (cookie self :: more).
        by rewrite <- app_assoc.
    + injection Hn as _ <- _. exists []. by rewrite app_nil_r.
  - injection Hn as _ <- _. exists []. by rewrite app_nil_r.
Qed.

Lemma pages_fetched_nonempty h p ps : pages_fetched h (p :: ps) <> [].
Proof. simpl. by destruct (cookie_is_empty _). Qed.

(** From an empty buffer, with the server about to answer with the
    pages [ps]: the consumer receives the entries of the pages up to the
    first empty cookie and is then told that the iteration is done. *)
Lemma drain_pages h pages :
  serves h pages ->
  forall ps rpcs self,
    drop (length rpcs) pages = ps ->
    Forall (fun p => p <> []) ps ->
    Exists (fun p => cookie_is_empty (page_cookie h p) = true) ps ->
    data self = [] -> exhausted self = false ->
    exists fuel0 self',
      drain fuel0 h rpcs self =
      Some (spec_items h ps, Done,
            rpcs ++ cookie self
              :: map (page_cookie h) (removelast (pages_fetched h ps)),
            self').
Proof.
  intros Hserves ps.
  induction ps as [|p ps IH]; intros rpcs self Hdrop Hne Hex Hdata Hexh.
  - by apply Exists_nil in Hex.
  - assert (Hp : pages !! length rpcs = Some p).
    { rewrite <- (Nat.add_0_r (length rpcs)), <- lookup_drop, Hdrop.
      reflexivity. }
    assert (Hps : drop (S (length rpcs)) pages = ps).
    { replace (S (length rpcs)) with (length rpcs + 1)%nat by lia.
      rewrite <- drop_drop, Hdrop. reflexivity. }
    apply Forall_cons in Hne as [Hpne Hne].
    destruct p as [|r es]; [done|].
    pose proof (Hserves rpcs (cookie self) _ Hp) as Hcall.
    unfold spec_items. cbn [pages_fetched page_cookie].
    destruct (cookie_is_empty (extractCookie h r)) eqn:Hc.
    + exists (S (length es + 1)). eexists.
      eapply drain_load; [done..|]. rewrite Hc.
      cbn [map tail concat removelast]. rewrite app_nil_r.
      rewrite <- (app_nil_r (map (handleEntry h) es)) at 1.
      eapply drain_buffer; reflexivity.
    + apply Exists_cons in Hex as [Hex|Hex];
        [cbn [page_cookie] in Hex; congruence|].
      destruct (IH (rpcs ++ [cookie self])
                  {| exhausted := false; data := []; current := -1;
                     cookie := extractCookie h r |}) as (fuel1 & self' & Hd);
        [by rewrite length_app, Nat.add_1_r|done..|].
      exists (S (length es + fuel1)), self'.
      eapply drain_load; [done..|]. rewrite Hc.
      cbn [map tail concat]. rewrite map_app.
      erewrite drain_buffer; [|exact Hd|reflexivity].
      cbn [cookie]. rewrite <- app_assoc. cbn [app].
      destruct ps as [|p' ps']; [by apply Exists_nil in Hex|].
      destruct (pages_fetched h (p' :: ps')) eqn:Hpf;
        [by apply pages_fetched_nonempty in Hpf|].
      unfold spec_items. rewrite Hpf. reflexivity.
Qed.

Lemma next_done_state fuel h rpcs self rpcs' self' :
  next fuel h rpcs self = Some (Done, rpcs', self') ->
  exhausted self' = true /\ data self' = [].
Proof.
  revert rpcs self.
  induction fuel as [|fuel IH]; intros rpcs self Hn; [discriminate|].
  cbn [next] in Hn.
  destruct (data self) eqn:Hdata; [|discriminate].
  destruct (exhausted self) eqn:Hexh; cbn [negb] in Hn.
  - injection Hn as _ <-. by split.
  - destruct (PageAdvancer_loadNextPage h rpcs _)
      as [[[page|err|] rpcs1] self1]; [|discriminate..].
    by apply IH in Hn.
Qed.

Lemma drain_done_state fuel h rpcs self vs rpcs' self' :
  drain fuel h rpcs self = Some (vs, Done, rpcs', self') ->
  exhausted self' = true /\ data self' = [].
Proof.
  revert rpcs self vs.
  induction fuel as [|fuel IH]; intros rpcs self vs Hd; [discriminate|].
  cbn [drain] in Hd.
  destruct (next (S fuel) h rpcs self) as [[[r rpcs1] self1]|] eqn:Hn;
    [|discriminate].
  destruct r as [|v|err].
  - injection Hd as _ <- <-. by apply next_done_state in Hn.
  - destruct (drain fuel h rpcs1 self1) as [[[[vs1 r1] rpcs2] self2]|] eqn:Hd1;
      [|discriminate].
    injection Hd as _ -> -> ->. by apply IH in Hd1.
  - discriminate.
Qed.

Lemma page_server_serves (eh : R -> Cookie) (he : R -> T) pages :
  serves (mkHelper eh he (page_server pages)) pages.
Proof.
  intros rpcs c p Hp. cbn [loadNextPage]. unfold page_server.
  by rewrite (nth_lookup_Some _ _ _ _ Hp).
Qed.

(** C2.  For every sequence of server pages (each beginning with its
    cookie message, one of them with an empty cookie), the values that
    repeated [next()] calls produce are, in order, [handleEntry] of the
    non-first messages of the pages fetched up to the first empty
    cookie; then [next()] reports the end.  One RPC is issued per page
    fetched, each carrying the cookie of the page before. *)
Theorem C2_items_are_page_entries h pages :
  serves h pages ->
  Forall (fun p => p <> []) pages ->
  Exists (fun p => cookie_is_empty (page_cookie h p) = true) pages ->
  exists fuel0, forall fuel, (fuel0 <= fuel)%nat ->
    exists self',
      drain fuel h [] new_PageAdvancer =
      Some (spec_items h pages, Done, spec_cookies h pages, self') /\
      exhausted self' = true /\ data self' = [].
Proof.
  intros Hserves Hne Hex.
  destruct (drain_pages h pages Hserves pages [] new_PageAdvancer)
    as (fuel0 & self' & Hd); [done..|].
  exists fuel0. intros fuel Hle. exists self'.
  split; [by apply (drain_mono _ _ _ _ _ Hd)|].
  by apply drain_done_state in Hd.
Qed.

(** C4.  A page whose cookie is empty is the last one: after its
    entries [next()] reports the end, and no further page is asked for.
    A page that holds only a non-empty cookie makes [next()] go on with
    that cookie to the next page RPC. *)
Theorem C4_empty_cookie_ends_iteration h rpcs self r es :
  data self = [] -> exhausted self = false ->
  loadNextPage h rpcs (cookie self) = mkServerStream (r :: es) None ->
  (cookie_is_empty (extractCookie h r) = true ->
   forall fuel, (length es + 2 <= fuel)%nat ->
     drain fuel h rpcs self =
     Some (map (handleEntry h) es, Done, rpcs ++ [cookie self],
           {| exhausted := true; data := []; current := -1;
              cookie := extractCookie h r |}))
  /\
  (cookie_is_empty (extractCookie h r) = false -> es = [] ->
   let advanced :=
     {| exhausted := false; data := []; current := -1;
        cookie := extractCookie h r |} in
   (forall fuel,
      next (S fuel) h rpcs self = next fuel h (rpcs ++ [cookie self]) advanced)
   /\
   snd (fst (PageAdvancer_loadNextPage h (rpcs ++ [cookie self]) advanced)) =
     rpcs ++ [cookie self; extractCookie h r]
   /\
   (forall fuel res rpcs' self',
      next fuel h rpcs self = Some (res, rpcs', self') ->
      exists more,
        rpcs' = rpcs ++ cookie self :: extractCookie h r :: more)).
Proof.
  intros Hdata Hexh Hcall. split.
  - intros Hc fuel Hle.
    apply (drain_mono (S (length es + 1))); [|lia].
    eapply drain_load; [done..|]. rewrite Hc.
    rewrite <- (app_nil_r (map (handleEntry h) es)).
    eapply drain_buffer; reflexivity.
  - intros Hc -> advanced.
    assert (Hnext : forall fuel,
      next (S fuel) h rpcs self = next fuel h (rpcs ++ [cookie self]) advanced).
    { intros fuel.
      by rewrite (next_load h rpcs self r [] fuel Hdata Hexh Hcall), Hc. }
    assert (Hsent :
      snd (fst (PageAdvancer_loadNextPage h (rpcs ++ [cookie self]) advanced))
      = rpcs ++ [cookie self; extractCookie h r]).
    { unfold PageAdvancer_loadNextPage. cbn [cookie advanced].
      destruct (on_data h _ true (extractCookie h r) []) as [c page].
      destruct (failure _); cbn [fst snd]; by rewrite <- app_assoc. }
    split; [exact Hnext|]. split; [exact Hsent|].
    intros fuel res rpcs' self' Hn.
    destruct fuel as [|fuel]; [discriminate|]. rewrite Hnext in Hn.
    destruct fuel as [|fuel]; [discriminate|].
    cbn [next data exhausted advanced negb] in Hn.
    destruct (PageAdvancer_loadNextPage h (rpcs ++ [cookie self]) _)
      as [[[page|err|] rpcs1] self1] eqn:Hload; cbn [fst snd] in Hsent;
      subst rpcs1; [|injection Hn as _ <- _|discriminate].
    + apply next_rpcs_grow in Hn as [more ->]. exists more.
      by rewrite <- app_assoc.
    + by exists [].
Qed.

(** C10.  Once [next()] has resolved with [done], the advancer is
    exhausted with an empty buffer, and every later [next()] resolves
    with [done] again, leaving the advancer and the RPCs issued as they
    are. *)
Theorem C10_done_is_final fuel h rpcs self rpcs' self' :
  next fuel h rpcs self = Some (Done, rpcs', self') ->
  exhausted self' = true /\ data self' = [] /\
  forall n fuel',
    next_times n (S fuel') h rpcs' self' =
    Some (repeat Done n, rpcs', self').
Proof.
  intros Hn. apply next_done_state in Hn as [Hexh Hdata].
  split; [done|]. split; [done|].
  intros n fuel'. induction n as [|n IH]; [reflexivity|].
  cbn [next_times next]. rewrite Hdata, Hexh. cbn [negb].
  cbn [next_times] in IH. by rewrite IH.
Qed.

End Advancer.

(** Witness of C2: the two pages of the scenario. *)
Lemma C2_items_witness :
  exists fuel0, forall fuel, (fuel0 <= fuel)%nat ->
    exists self',
      drain fuel (text_helper two_pages) [] new_PageAdvancer =
      Some (["e1"; "e2"; "e3"], Done,
            [CookieUndefined; CookieString "a"], self') /\
      exhausted self' = true /\ data self' = [].
Proof.
  apply (C2_items_are_page_entries (text_helper two_pages) two_pages).
  - apply page_server_serves.
  - repeat constructor; discriminate.
  - apply Exists_cons_tl, Exists_cons_hd. reflexivity.
Defined.

(** Witness of C4: the last page of the scenario, and a page that holds
    only a cookie. *)
Lemma C4_empty_cookie_witness :
  (forall fuel, (3 <= fuel)%nat ->
     drain fuel (text_helper two_pages) [CookieUndefined]
       (@mkPageAdvancer string false [] (-1) (CookieString "a")) =
     Some (["e3"], Done, [CookieUndefined; CookieString "a"],
           @mkPageAdvancer string true [] (-1) (CookieString "")))
  /\
  (forall fuel res rpcs' self',
     next fuel (text_helper cookie_only_pages) [] new_PageAdvancer =
     Some (res, rpcs', self') ->
     exists more, rpcs' = [CookieUndefined; CookieString "a"] ++ more).
Proof.
  split.
  - apply (C4_empty_cookie_ends_iteration (text_helper two_pages)
             [CookieUndefined]
             (@mkPageAdvancer string false [] (-1) (CookieString "a"))
             "" ["e3"]); reflexivity.
  - apply (C4_empty_cookie_ends_iteration (text_helper cookie_only_pages)
             [] new_PageAdvancer "a" []); reflexivity.
Defined.

(** Witness of C10: the advancer of the scenario after its last entry. *)
Lemma C10_done_witness :
  exhausted (@mkPageAdvancer string true [] (-1) (CookieString "")) = true /\
  data (@mkPageAdvancer string true [] (-1) (CookieString "")) = [] /\
  forall n fuel',
    next_times n (S fuel') (text_helper two_pages)
      [CookieUndefined; CookieString "a"]
      (@mkPageAdvancer string true [] (-1) (CookieString "")) =
    Some (repeat Done n, [CookieUndefined; CookieString "a"],
          @mkPageAdvancer string true [] (-1) (CookieString "")).
Proof.
  apply (C10_done_is_final 1 (text_helper two_pages)
           [CookieUndefined; CookieString "a"]
           (@mkPageAdvancer string true [] (-1) (CookieString ""))).
  reflexivity.
Defined.

Section Views.
Context {K V : Type}.
Implicit Types (nc : NamedCacheClient.t K V) (s : SetView).

(** C7, as the code has it.  On every view [add], [forEach], the
    synchronous iterator and [entries], [keys], [values] throw; [has]
    throws on [EntrySet] and [ValueSet], while [KeySet.has] asks the
    cache whether it contains the key; asynchronous iteration hands out
    a new advancer. *)
Theorem C7_sync_operations (s : SetView) nc :
  (forall value : @element K V s, fails (add s value) = true) /\
  (forall f : @element K V s -> @element K V s -> unit,
     fails (forEach s f) = true) /\
  fails (iterator (K:=K) (V:=V) s) = true /\
  fails (entries (K:=K) (V:=V) s) = true /\
  fails (keys (K:=K) (V:=V) s) = true /\
  fails (values (K:=K) (V:=V) s) = true /\
  (forall e, fails (has EntrySet nc e) = true) /\
  (forall v, fails (has ValueSet nc v) = true) /\
  (forall key,
     has KeySet nc key = Returns (NamedCacheClient.containsKey nc key)) /\
  asyncIterator s nc = (helper_of s nc, new_PageAdvancer).
Proof. repeat split. Qed.

(** C8, as the code has it.  [KeySet.delete(k)] resolves with the
    outcome of the remote remove-by-key: [true] exactly when a prior
    value was reported, and [undefined] when there was none. *)
Theorem C8_KeySet_delete nc (key : K) (v : Value V) :
  NamedCacheClient.remove nc key = Fulfilled v ->
  delete KeySet nc key = Returns (KeySet_delete nc key) /\
  (KeySet_delete nc key = Fulfilled (Bool true) <->
   v <> Null /\ v <> Undefined) /\
  (v = Null \/ v = Undefined ->
   KeySet_delete nc key = Fulfilled Undefined).
Proof.
  intros Hrm. split; [reflexivity|].
  unfold KeySet_delete. rewrite Hrm. split; [split|].
  - destruct v; cbn; intros H; try discriminate; by split.
  - intros [Hn Hu]. by destruct v.
  - by intros [-> | ->].
Qed.

End Views.

(** C7 as stated fails: [KeySet.has] does not throw. *)
Lemma C7_has_counterexample :
  has KeySet quiet_cache "k" = Returns (Fulfilled true) /\
  fails (has KeySet quiet_cache "k") = false.
Proof. split; reflexivity. Qed.

(** C8 as stated fails: without a prior value the promise resolves with
    [undefined], not with [false]. *)
Lemma C8_delete_counterexample :
  NamedCacheClient.remove quiet_cache "k" = Fulfilled Null /\
  KeySet_delete quiet_cache "k" = Fulfilled Undefined /\
  KeySet_delete quiet_cache "k" <> Fulfilled (Bool false).
Proof. repeat split. discriminate. Qed.

(** Witness of C8: a key with the prior value ["v"]. *)
Lemma C8_KeySet_delete_witness :
  delete KeySet stocked_cache "k" = Returns (KeySet_delete stocked_cache "k") /\
  (KeySet_delete stocked_cache "k" = Fulfilled (Bool true) <->
   Obj "v" <> Null /\ Obj "v" <> @Undefined string) /\
  (Obj "v" = Null \/ Obj "v" = @Undefined string ->
   KeySet_delete stocked_cache "k" = Fulfilled Undefined).
Proof.
  apply (C8_KeySet_delete stocked_cache "k" (Obj "v")). reflexivity.
Defined.

(** *** Failing streams, empty streams, buffered entries *)

Section AdvancerEdges.
Context {R T : Type}.
Implicit Types (h : IStreamedDataHelper R T) (self : PageAdvancer R).
Implicit Types (rpcs : list Cookie).

Lemma on_data_stream h msgs c :
  on_data h msgs true c [] =
  (match msgs with [] => c | r :: _ => extractCookie h r end, tail msgs).
Proof. destruct msgs as [|r es]; [reflexivity|apply on_data_first]. Qed.

(** When the stream of a page breaks, [next()] fails with the stream's
    error and the entries received are dropped: the buffer stays empty
    and the advancer is not exhausted.  The cookie of the broken page,
    if it was received, is kept: the next page RPC carries it, so the
    entries of the broken page are not asked for again. *)
Theorem next_fails_with_stream_error h rpcs self msgs err fuel :
  data self = [] -> exhausted self = false ->
  loadNextPage h rpcs (cookie self) = mkServerStream msgs (Some err) ->
  let kept := match msgs with [] => cookie self | r :: _ => extractCookie h r end in
  let after := {| exhausted := false; data := []; current := -1;
                  cookie := kept |} in
  next (S fuel) h rpcs self = Some (Fails err, rpcs ++ [cookie self], after)
  /\
  snd (fst (PageAdvancer_loadNextPage h (rpcs ++ [cookie self]) after)) =
    rpcs ++ [cookie self; kept].
Proof.
  intros Hdata Hexh Hcall kept after. split.
  - cbn [next]. rewrite Hdata, Hexh. cbn [negb].
    unfold PageAdvancer_loadNextPage. cbn [cookie]. rewrite Hcall.
    cbn [messages failure]. rewrite on_data_stream. reflexivity.
  - unfold PageAdvancer_loadNextPage. cbn [cookie after].
    destruct (on_data h _ true kept []) as [c page].
    destruct (failure _); cbn [fst snd]; by rewrite <- app_assoc.
Qed.

(** A stream that ends without any message, in answer to a request that
    carried no cookie or an empty one, ends the iteration: [next()]
    reports the end after that one RPC, without any item. *)
Theorem empty_stream_ends_iteration h rpcs self fuel :
  data self = [] -> exhausted self = false ->
  cookie_is_empty (cookie self) = true ->
  loadNextPage h rpcs (cookie self) = mkServerStream [] None ->
  next (S (S fuel)) h rpcs self =
  Some (Done, rpcs ++ [cookie self],
        {| exhausted := true; data := []; current := -1;
           cookie := cookie self |}).
Proof.
  intros Hdata Hexh Hc Hcall. cbn [next]. rewrite Hdata, Hexh. cbn [negb].
  unfold PageAdvancer_loadNextPage. cbn [cookie]. rewrite Hcall.
  cbn [messages failure on_data]. by rewrite Hc.
Qed.

(** With a non-empty cookie, a stream that ends without any message
    leaves the cookie as it is and the advancer asks again.  Against a
    server that answers every request with such a stream, [next()] does
    not resolve, whatever the number of pages it may load. *)
Theorem empty_streams_never_resolve h rpcs self fuel :
  (forall rpcs' c, loadNextPage h rpcs' c = mkServerStream [] None) ->
  data self = [] -> exhausted self = false ->
  cookie_is_empty (cookie self) = false ->
  next fuel h rpcs self = None.
Proof.
  intros Hempty. revert rpcs self.
  induction fuel as [|fuel IH]; intros rpcs self Hdata Hexh Hc; [reflexivity|].
  cbn [next]. rewrite Hdata, Hexh. cbn [negb].
  unfold PageAdvancer_loadNextPage. cbn [cookie]. rewrite Hempty.
  cbn [messages failure on_data]. rewrite Hc. by apply IH.
Qed.

(** While entries are buffered, [next()] hands them out in the order
    they arrived, one per call, without any page RPC and whatever the
    state of the advancer otherwise is. *)
Theorem buffered_entries_need_no_rpc h rpcs ex cur c es fuel :
  next_times (length es) (S fuel) h rpcs
    {| exhausted := ex; data := es; current := cur; cookie := c |} =
  Some (map (fun e => Yield (handleEntry h e)) es, rpcs,
        {| exhausted := ex; data := []; current := cur; cookie := c |}).
Proof.
  induction es as [|e es IH]; [reflexivity|].
  cbn [length next_times next data exhausted current cookie].
  cbn [next_times] in IH. by rewrite IH.
Qed.

(** The consumer of pages that are followed by a broken stream. *)
Lemma drain_until_failure h streams :
  answers h streams ->
  forall pre msgs err rest rpcs self,
    drop (length rpcs) streams =
      map (fun p => mkServerStream p None) pre
        ++ mkServerStream msgs (Some err) :: rest ->
    Forall (fun p => p <> [] /\ cookie_is_empty (page_cookie h p) = false)
      pre ->
    data self = [] -> exhausted self = false ->
    exists fuel0 self',
      drain fuel0 h rpcs self =
      Some (map (handleEntry h) (concat (map (@tail R) pre)), Fails err,
            rpcs ++ cookie self :: map (page_cookie h) pre, self') /\
      data self' = [].
Proof.
  intros Hanswers pre.
  induction pre as [|p pre IH];
    intros msgs err rest rpcs self Hdrop Hpre Hdata Hexh.
  - assert (Hs : streams !! length rpcs = Some (mkServerStream msgs (Some err))).
    { rewrite <- (Nat.add_0_r (length rpcs)), <- lookup_drop, Hdrop.
      reflexivity. }
    pose proof (Hanswers rpcs (cookie self) _ Hs) as Hcall.
    exists 1%nat. eexists. split.
    + cbn [drain next]. rewrite Hdata, Hexh. cbn [negb].
      unfold PageAdvancer_loadNextPage. cbn [cookie]. rewrite Hcall.
      cbn [messages failure]. rewrite on_data_stream. reflexivity.
    + reflexivity.
  - assert (Hs : streams !! length rpcs = Some (mkServerStream p None)).
    { rewrite <- (Nat.add_0_r (length rpcs)), <- lookup_drop, Hdrop.
      reflexivity. }
    assert (Hrest : drop (S (length rpcs)) streams =
                    map (fun p => mkServerStream p None) pre
                      ++ mkServerStream msgs (Some err) :: rest).
    { replace (S (length rpcs)) with (length rpcs + 1)%nat by lia.
      rewrite <- drop_drop, Hdrop. reflexivity. }
    apply Forall_cons in Hpre as [[Hpne Hc] Hpre].
    destruct p as [|r es]; [done|]. cbn [page_cookie] in Hc.
    pose proof (Hanswers rpcs (cookie self) _ Hs) as Hcall.
    destruct (IH msgs err rest (rpcs ++ [cookie self])
                {| exhausted := false; data := []; current := -1;
                   cookie := extractCookie h r |})
      as (fuel1 & self' & Hd & Hdata'); [by rewrite length_app, Nat.add_1_r|done..|].
    exists (S (length es + fuel1)), self'. split; [|done].
    eapply drain_load; [done..|]. rewrite Hc.
    cbn [map tail concat]. rewrite map_app.
    erewrite drain_buffer; [|exact Hd|reflexivity].
    cbn [cookie page_cookie]. by rewrite <- app_assoc.
Qed.

(** When the stream of a page breaks, the consumer has received the
    entries of the pages before it, in order, and is then given the
    stream's error; the entries of the broken page are not handed out. *)
Theorem drain_stops_at_broken_stream h pre msgs err rest :
  answers h (map (fun p => mkServerStream p None) pre
               ++ mkServerStream msgs (Some err) :: rest) ->
  Forall (fun p => p <> [] /\ cookie_is_empty (page_cookie h p) = false) pre ->
  exists fuel0, forall fuel, (fuel0 <= fuel)%nat ->
    exists self',
      drain fuel h [] new_PageAdvancer =
      Some (map (handleEntry h) (concat (map (@tail R) pre)), Fails err,
            CookieUndefined :: map (page_cookie h) pre, self') /\
      data self' = [].
Proof.
  intros Hanswers Hpre.
  destruct (drain_until_failure h _ Hanswers pre msgs err rest []
              new_PageAdvancer) as (fuel0 & self' & Hd & Hdata); [done..|].
  exists fuel0. intros fuel Hle. exists self'. split; [|done].
  by apply (drain_mono _ _ _ _ _ Hd).
Qed.

Lemma stream_server_answers (eh : R -> Cookie) (he : R -> T) streams :
  answers (mkHelper eh he (stream_server streams)) streams.
Proof.
  intros rpcs c s Hs. cbn [loadNextPage]. unfold stream_server.
  by rewrite (nth_lookup_Some _ _ _ _ Hs).
Qed.

End AdvancerEdges.

Lemma next_fails_witness :
  next 1 (text_stream_helper broken_streams) [CookieUndefined]
    (@mkPageAdvancer string false [] (-1) (CookieString "a")) =
  Some (Fails "14 UNAVAILABLE", [CookieUndefined; CookieString "a"],
        @mkPageAdvancer string false [] (-1) (CookieString "b"))
  /\
  snd (fst (PageAdvancer_loadNextPage (text_stream_helper broken_streams)
              [CookieUndefined; CookieString "a"]
              (@mkPageAdvancer string false [] (-1) (CookieString "b")))) =
    [CookieUndefined; CookieString "a"; CookieString "b"].
Proof.
  apply (next_fails_with_stream_error (text_stream_helper broken_streams)
           [CookieUndefined]
           (@mkPageAdvancer string false [] (-1) (CookieString "a"))
           ["b"; "e2"] "14 UNAVAILABLE" 0); reflexivity.
Defined.

Lemma empty_stream_ends_witness :
  next 2 (text_helper []) [] new_PageAdvancer =
  Some (Done, [CookieUndefined],
        @mkPageAdvancer string true [] (-1) CookieUndefined).
Proof.
  apply (empty_stream_ends_iteration (text_helper []) [] new_PageAdvancer 0);
    reflexivity.
Defined.

Lemma empty_streams_witness :
  next 1000 (text_helper []) [CookieUndefined]
    (@mkPageAdvancer string false [] (-1) (CookieString "a")) = None.
Proof.
  apply (empty_streams_never_resolve (text_helper []) [CookieUndefined]
           (@mkPageAdvancer string false [] (-1) (CookieString "a")) 1000).
  - intros rpcs' c. cbn. unfold page_server. by destruct (length rpcs').
  - reflexivity.
  - reflexivity.
  - reflexivity.
Defined.

Lemma drain_stops_witness :
  exists fuel0, forall fuel, (fuel0 <= fuel)%nat ->
    exists self',
      drain fuel (text_stream_helper broken_streams) [] new_PageAdvancer =
      Some (["e1"], Fails "14 UNAVAILABLE",
            [CookieUndefined; CookieString "a"], self') /\
      data self' = [].
Proof.
  apply (drain_stops_at_broken_stream (text_stream_helper broken_streams)
           [["a"; "e1"]] ["b"; "e2"] "14 UNAVAILABLE" []).
  - apply stream_server_answers.
  - repeat constructor; discriminate.
Defined.

(** *** The views compared *)

Section TwoHelpers.
Context {R A B : Type}.
Context (h1 : IStreamedDataHelper R A) (h2 : IStreamedDataHelper R B).
Context (f : A -> B).
Hypothesis same_cookie : forall r, extractCookie h2 r = extractCookie h1 r.
Hypothesis same_pages :
  forall rpcs c, loadNextPage h2 rpcs c = loadNextPage h1 rpcs c.
Hypothesis entry_through : forall r, handleEntry h2 r = f (handleEntry h1 r).

Lemma on_data_same msgs first c page :
  on_data h2 msgs first c page = on_data h1 msgs first c page.
Proof.
  revert first c page. induction msgs as [|r msgs IH]; intros first c page;
    [reflexivity|].
  cbn [on_data]. destruct first; by rewrite ?same_cookie, IH.
Qed.

Lemma loadNextPage_same rpcs self :
  PageAdvancer_loadNextPage h2 rpcs self = PageAdvancer_loadNextPage h1 rpcs self.
Proof.
  unfold PageAdvancer_loadNextPage. by rewrite same_pages, on_data_same.
Qed.

Lemma next_through fuel rpcs self :
  next fuel h2 rpcs self =
  option_map (fun '(r, rpcs', self') => (map_result f r, rpcs', self'))
    (next fuel h1 rpcs self).
Proof.
  revert rpcs self. induction fuel as [|fuel IH]; intros rpcs self;
    [reflexivity|].
  cbn [next]. destruct (data self) as [|r rest].
  - destruct (negb (exhausted self)); [|reflexivity].
    rewrite loadNextPage_same.
    destruct (PageAdvancer_loadNextPage h1 rpcs _)
      as [[[page|err|] rpcs'] self2]; [apply IH|reflexivity..].
  - cbn [option_map map_result]. by rewrite entry_through.
Qed.

Lemma drain_through fuel rpcs self :
  drain fuel h2 rpcs self =
  option_map
    (fun '(vs, r, rpcs', self') => (map f vs, map_result f r, rpcs', self'))
    (drain fuel h1 rpcs self).
Proof.
  revert rpcs self. induction fuel as [|fuel IH]; intros rpcs self;
    [reflexivity|].
  cbn [drain]. rewrite next_through.
  destruct (next (S fuel) h1 rpcs self) as [[[r rpcs'] self']|];
    [|reflexivity].
  cbn [option_map]. destruct r as [|v|err]; cbn [map_result]; [reflexivity| |reflexivity].
  rewrite IH.
  by destruct (drain fuel h1 rpcs' self') as [[[[vs r'] rpcs''] self'']|].
Qed.

End TwoHelpers.

Section ViewsCompared.
Context {K V : Type}.
Implicit Types (nc : NamedCacheClient.t K V).

(** Iterating the values of a map and iterating its entries go through
    the same pages: a [ValueSet] consumer is given exactly the values of
    the entries an [EntrySet] consumer is given, in the same order, with
    the same RPCs and the same end. *)
Theorem ValueSet_yields_EntrySet_values nc fuel rpcs self :
  drain fuel (ValueSetHelper nc) rpcs self =
  option_map
    (fun '(es, r, rpcs', self') =>
       (map (getValue nc) es, map_result (getValue nc) r, rpcs', self'))
    (drain fuel (EntrySetHelper nc) rpcs self).
Proof. by apply drain_through. Qed.

(** [KeySet.delete] never rejects and never resolves with [false]: it
    resolves with [true] or [undefined], and when the remote remove
    fails or does not answer, its promise is never settled. *)
Theorem KeySet_delete_never_rejects nc (key : K) :
  (forall err, KeySet_delete nc key <> Rejected err) /\
  KeySet_delete nc key <> Fulfilled (Bool false) /\
  (KeySet_delete nc key = Pending <->
   forall v, NamedCacheClient.remove nc key <> Fulfilled v).
Proof.
  unfold KeySet_delete.
  destruct (NamedCacheClient.remove nc key) as [v|err|].
  - repeat split; try discriminate.
    + by destruct v as [| |[]|].
    + intros H. by destruct (H v).
  - repeat split; discriminate.
  - repeat split; discriminate.
Qed.

End ViewsCompared.

End StreamedCollectionSpec.


(** ** Properties of the map events manager *)

Module MapEventsSpec.
Import Js MapEvents.
Local Open Scope async_scope.

(** C6 requires that no duplex stream exists before a listener is
    registered.  The constructor calls [ensureStream()]: a manager just
    built, with no group in any of its maps, has opened the stream and
    written the INIT request. *)
Theorem C6_stream_opened_by_constructor name client serializer :
  let m := new_MapEventsManager name client serializer in
  keyMap m = ∅ /\ filterMap m = ∅ /\ groups m = ∅ /\
  streamPromise m = Some "1" /\
  wire m = [Opened; Sent (mkRequest "1" INIT true false [] None 0)].
Proof. repeat split. Qed.

(** C1 requires [registeredIsLite = (isLiteFalseCount == 0)] for the
    groups held by the key map.  Registering a listener as non-lite and
    then again as lite leaves the group of the key registered lite with
    a count of one, although no record is non-lite. *)
Theorem C1_flag_and_count_diverge :
  let l := quiet_listener 1 in
  let r := (registerKeyListener l "k" (Some false) ;;
            registerKeyListener l "k" (Some true))
             (new_MapEventsManager "m" acking_client utf8) in
  fst r = Ok tt /\
  exists g self,
    keyMap (snd r) !! "k" = Some g /\
    groups (snd r) !! g = Some self /\
    registeredIsLite self = true /\
    isLiteFalseCount self = 1%Z /\
    forallb snd (listeners self) = true.
Proof.
  split; [by vm_compute|].
  exists 0%nat. eexists. repeat split; by vm_compute.
Qed.

(** *** Dispatch to the listeners of a group *)

Lemma notify_each_all_return keys mapEvent :
  Forall (fun x => snd (dispatch x mapEvent) = Returns tt) keys ->
  notify_each keys mapEvent = (sinks_called keys mapEvent, Returns tt).
Proof.
  induction 1 as [|x keys Hx _ IH]; [reflexivity|].
  cbn [notify_each]. unfold sinks_called. cbn [map concat].
  destruct (dispatch x mapEvent) as [calls r]. cbn [snd fst] in *. subst r.
  by rewrite IH.
Qed.

Lemma notify_each_throw pre l post mapEvent err :
  Forall (fun x => snd (dispatch x mapEvent) = Returns tt) pre ->
  snd (dispatch l mapEvent) = Throws err ->
  notify_each (pre ++ l :: post) mapEvent =
  (sinks_called (pre ++ [l]) mapEvent, Throws err).
Proof.
  intros Hpre Hl. induction Hpre as [|x pre Hx _ IH].
  - cbn [app notify_each]. unfold sinks_called. cbn [map concat].
    destruct (dispatch l mapEvent) as [calls r]. cbn [snd fst] in *. subst r.
    by rewrite app_nil_r.
  - cbn [app notify_each]. unfold sinks_called. cbn [map concat].
    destruct (dispatch x mapEvent) as [calls r]. cbn [snd fst] in *. subst r.
    by rewrite IH.
Qed.

(** C5, as the code has it.  [notifyListeners] calls the listeners in
    insertion order and catches nothing: an error thrown by a listener
    ends the dispatch and reaches the caller; the listeners before it
    have been called, those after it are not. *)
Theorem C5_throw_ends_dispatch self mapEvent pre l post err :
  map fst (listeners self) = pre ++ l :: post ->
  Forall (fun x => snd (dispatch x mapEvent) = Returns tt) pre ->
  snd (dispatch l mapEvent) = Throws err ->
  notifyListeners self mapEvent =
  (sinks_called (pre ++ [l]) mapEvent, Throws err).
Proof.
  intros Hkeys Hpre Hl. unfold notifyListeners. rewrite Hkeys.
  by apply notify_each_throw.
Qed.

(** Witness of C5: the throwing listener comes first. *)
Lemma C5_throw_witness :
  notifyListeners mixed_group inserted_k =
  ([(1%nat, ViaInserted)], Throws "boom").
Proof.
  apply (C5_throw_ends_dispatch mixed_group inserted_k
           [] (throwing_listener 1) [quiet_listener 2] "boom").
  - reflexivity.
  - constructor.
  - reflexivity.
Defined.

(** C5 as stated fails: the listener after the one that throws is not
    notified, and the error is not caught. *)
Lemma C5_dispatch_counterexample :
  snd (notifyListeners mixed_group inserted_k) = Throws "boom" /\
  ~ In (2%nat, ViaInserted) (fst (notifyListeners mixed_group inserted_k)).
Proof.
  split; [reflexivity|]. cbn. intros [H|[]]. discriminate.
Qed.

(** When no listener throws, all of them are called. *)
Lemma notifyListeners_all_return self mapEvent :
  Forall (fun x => snd (dispatch x mapEvent) = Returns tt)
    (map fst (listeners self)) ->
  notifyListeners self mapEvent =
  (sinks_called (map fst (listeners self)) mapEvent, Returns tt).
Proof. apply notify_each_all_return. Qed.

(** *** Closing the stream *)

(** C3, as the code has it.  On a manager that is not closing and whose
    stream is established, [closeEventStream()] completes once the
    stream reports its cancellation: the stream is cancelled and nothing
    is emitted on the error channel.  [pendingSubscriptions] and the
    promises of the outstanding requests are left as they were. *)
Theorem C3_close_cancels_stream m p :
  markedForClose m = false ->
  streamPromise m = Some p ->
  promise_state p m = Fulfilled tt ->
  truthy_number (indexOf (cancelStatus (client m)) "CANCELLED") = true ->
  exists m',
    closeEventStream m = (Ok tt, m') /\
    wire m' = wire m ++ [Cancelled] /\
    markedForClose m' = true /\
    streamPromise m' = None /\
    pendingSubscriptions m' = pendingSubscriptions m /\
    promises m' = promises m /\
    emitter m' = emitter m.
Proof.
  intros Hclosing Hstream Hp Hstatus.
  destruct m; cbn in *; subst.
  unfold closeEventStream, bind, gets, modify, await, stream_cancel, onError,
    ret.
  cbn. unfold promise_state in *. cbn in *. rewrite Hp. cbn.
  unfold bind, gets, ret. cbn. rewrite Hstatus.
  eexists. repeat split.
Qed.

(** Witness of C3: the scenario "close with pending ack". *)
Lemma C3_close_witness :
  exists m',
    closeEventStream manager_with_pending_ack = (Ok tt, m') /\
    wire m' = wire manager_with_pending_ack ++ [Cancelled] /\
    markedForClose m' = true /\
    streamPromise m' = None /\
    pendingSubscriptions m' = pendingSubscriptions manager_with_pending_ack /\
    promises m' = promises manager_with_pending_ack /\
    emitter m' = emitter manager_with_pending_ack.
Proof.
  apply (C3_close_cancels_stream manager_with_pending_ack "1");
    by vm_compute.
Defined.

(** C3 as stated fails: after the close of the scenario the
    acknowledgement of the SUBSCRIBE is still awaited, its callback is
    still in [pendingSubscriptions], and its promise is not rejected. *)
Lemma C3_pending_ack_counterexample :
  let r := (start (registerKeyListener (quiet_listener 1) "k" (Some true)) ;;
            closeEventStream)
             (new_MapEventsManager "m" silent_client utf8) in
  fst r = Ok tt /\
  In Cancelled (wire (snd r)) /\
  emitter (snd r) = [] /\
  pendingSubscriptions (snd r) !! "2" = Some (mkCallback "2") /\
  pendingSubscriptions (snd r) <> ∅ /\
  promises (snd r) !! "2" = Some Pending.
Proof.
  cbv zeta.
  assert (Hp : pendingSubscriptions
                 (snd ((start (registerKeyListener (quiet_listener 1) "k"
                                 (Some true)) ;;
                        closeEventStream)
                         (new_MapEventsManager "m" silent_client utf8)))
               !! "2" = Some (mkCallback "2")) by (by vm_compute).
  split; [by vm_compute|]. split; [vm_compute; tauto|].
  split; [by vm_compute|]. split; [exact Hp|]. split; [|by vm_compute].
  intros Hempty. rewrite Hempty in Hp. by rewrite lookup_empty in Hp.
Qed.

(** *** What the asynchronous code leaves untouched *)

Section Keeps.
Context {X : Type} (proj : MapEventsManager -> X).

Lemma keeps_ret {A} (a : A) : keeps proj (ret a).
Proof. intros m o m' [= <- <-]. reflexivity. Qed.

Lemma keeps_gets {A} (f : MapEventsManager -> A) : keeps proj (gets f).
Proof. intros m o m' [= <- <-]. reflexivity. Qed.

Lemma keeps_block {A} : keeps proj (@block A).
Proof. intros m o m' [= <- <-]. reflexivity. Qed.

Lemma keeps_modify f : (forall m, proj (f m) = proj m) -> keeps proj (modify f).
Proof. intros Hf m o m' [= <- <-]. apply Hf. Qed.

Lemma keeps_bind {A B} (c : M A) (k : A -> M B) :
  keeps proj c -> (forall a, keeps proj (k a)) -> keeps proj (bind c k).
Proof.
  intros Hc Hk m o m' Hrun. unfold bind in Hrun.
  destruct (c m) as [[a| |err] m1] eqn:Hcm.
  - rewrite (Hk a _ _ _ Hrun). eapply Hc, Hcm.
  - injection Hrun as <- <-. eapply Hc, Hcm.
  - injection Hrun as <- <-. eapply Hc, Hcm.
Qed.

Lemma keeps_this g : keeps proj (this g).
Proof.
  intros m o m' Hrun. unfold this in Hrun.
  by destruct (groups m !! g); injection Hrun as <- <-.
Qed.

End Keeps.

Create HintDb keeps.

#[local] Hint Resolve keeps_ret keeps_gets keeps_block keeps_this : keeps.

(** Splits a goal [keeps proj c] along the structure of [c]. *)
Ltac keeps_step :=
  first
    [ apply keeps_bind; [|intros ?]
    | apply keeps_modify; intros ?; reflexivity
    | match goal with
      | |- keeps _ (match ?x with _ => _ end) => destruct x
      end
    | solve [auto with keeps] ].

Ltac solve_keeps := repeat keeps_step.

(** The inbound path changes neither the groups nor what went out on
    the stream. *)
Lemma settle_core p v m :
  groups (settle p v m) = groups m /\ wire (settle p v m) = wire m.
Proof. unfold settle. by destruct (promise_state p m). Qed.

Lemma invoke_callback_core cb uid err m :
  groups (invoke_callback cb uid err m) = groups m /\
  wire (invoke_callback cb uid err m) = wire m.
Proof.
  unfold invoke_callback.
  destruct err as [e|];
    match goal with
    | |- context [settle ?p ?v ?m1] =>
        destruct (settle_core p v m1) as [Hg Hw]; rewrite Hg, Hw
    end; done.
Qed.

Lemma notify_group_core g mapEvent m :
  groups (snd (notify_group g mapEvent m)) = groups m /\
  wire (snd (notify_group g mapEvent m)) = wire m.
Proof.
  unfold notify_group. destruct (groups m !! g); [|done].
  by destruct (notifyListeners _ _).
Qed.

Lemma notify_filter_groups_core ids mapEvent m :
  groups (snd (notify_filter_groups ids mapEvent m)) = groups m /\
  wire (snd (notify_filter_groups ids mapEvent m)) = wire m.
Proof.
  revert m. induction ids as [|id ids IH]; intros m; [done|].
  cbn [notify_filter_groups].
  destruct (filterId2ListenerGroup m !! id) as [g|]; [|apply IH].
  pose proof (notify_group_core g mapEvent m) as [Hg Hw].
  destruct (notify_group g mapEvent m) as [[?|?] m1]; cbn [snd] in *.
  - destruct (IH m1) as [Hg' Hw']. split; congruence.
  - done.
Qed.

Lemma handleResponse_core resp m :
  groups (snd (handleResponse resp m)) = groups m /\
  wire (snd (handleResponse resp m)) = wire m.
Proof.
  destruct resp as [uid|uid|cache|cache|event|]; cbn [handleResponse].
  1,2: destruct (String.eqb uid ""); [done|];
       destruct (pendingSubscriptions m !! uid) as [cb|]; [|done];
       cbn [snd];
       match goal with
       | |- context [invoke_callback ?c ?u None ?m1] =>
           destruct (invoke_callback_core c u None m1) as [Hg Hw];
           rewrite Hg, Hw
       end; done.
  1,2: by destruct (String.eqb cache (mapName m)).
  - pose proof (notify_filter_groups_core (getFilteridsList event)
                  (mkMapEvent (mapName m) event (serializer m)) m) as [Hg Hw].
    destruct (notify_filter_groups _ _ m) as [[?|?] m1]; cbn [snd] in *;
      [|done].
    destruct (keyMap m1 !! _) as [g|]; [|done].
    destruct (notify_group_core g
                (mkMapEvent (mapName m) event (serializer m)) m1).
    split; congruence.
  - done.
Qed.

Lemma handle_all_core resps m :
  groups (handle_all resps m) = groups m /\
  wire (handle_all resps m) = wire m.
Proof.
  revert m. induction resps as [|resp resps IH]; intros m; [done|].
  cbn [handle_all].
  pose proof (handleResponse_core resp m) as [Hg Hw].
  destruct (handleResponse resp m) as [[?|?] m1]; cbn [snd] in *.
  - destruct (IH m1). split; congruence.
  - destruct (IH (set_uncaught (uncaught m1 ++ [message]) m1)) as [Hg' Hw'].
    cbn in Hg', Hw'. split; congruence.
Qed.

Lemma deliver_core m :
  groups (deliver m) = groups m /\ wire (deliver m) = wire m.
Proof. unfold deliver. apply (handle_all_core _ (set_inflight [] m)). Qed.

Lemma keeps_await_groups p : keeps groups (await p).
Proof.
  intros m o m' Hrun. unfold await in Hrun.
  destruct (promise_state p m); try by injection Hrun as <- <-.
  destruct (promise_state p (deliver m)); injection Hrun as <- <-;
    apply deliver_core.
Qed.

Lemma keeps_await_wire p : keeps wire (await p).
Proof.
  intros m o m' Hrun. unfold await in Hrun.
  destruct (promise_state p m); try by injection Hrun as <- <-.
  destruct (promise_state p (deliver m)); injection Hrun as <- <-;
    apply deliver_core.
Qed.

Lemma keeps_subscribed_of_wire {A} (c : M A) :
  keeps wire c -> keeps subscribed c.
Proof. intros Hc m o m' Hrun. unfold subscribed. by rewrite (Hc _ _ _ Hrun). Qed.

Lemma keeps_mapEventSubscribe {X} (proj : MapEventsManager -> X) :
  (forall f m, proj (set_reqFactory f m) = proj m) ->
  keeps proj mapEventSubscribe.
Proof. intros Hf m o m' [= <- <-]. apply Hf. Qed.

Lemma keeps_mapListenerRequest {X} (proj : MapEventsManager -> X)
    subscribe kf isLite :
  (forall f m, proj (set_reqFactory f m) = proj m) ->
  keeps proj (mapListenerRequest subscribe kf isLite).
Proof.
  intros Hf m o m' Hrun. unfold mapListenerRequest in Hrun.
  destruct kf; injection Hrun as <- <-; apply Hf.
Qed.

#[local] Hint Resolve keeps_await_groups keeps_await_wire
  keeps_subscribed_of_wire : keeps.
#[local] Hint Extern 1 (keeps _ mapEventSubscribe) =>
  apply keeps_mapEventSubscribe; reflexivity : keeps.
#[local] Hint Extern 1 (keeps _ (mapListenerRequest _ _ _)) =>
  apply keeps_mapListenerRequest; reflexivity : keeps.

Lemma keeps_ensureStream_groups : keeps groups ensureStream.
Proof. unfold ensureStream, stream_write. solve_keeps. Qed.

Lemma keeps_ensureStream_subscribed : keeps subscribed ensureStream.
Proof.
  intros m o m' Hrun.
  unfold ensureStream, bind, gets, modify, mapEventSubscribe, stream_write,
    ret in Hrun.
  cbn in Hrun. destruct (streamPromise m); injection Hrun as <- <-; [done|].
  unfold subscribed. cbn. unfold subscribes.
  rewrite <- app_assoc, omap_app. cbn. by rewrite app_nil_r.
Qed.

#[local] Hint Resolve keeps_ensureStream_groups keeps_ensureStream_subscribed
  : keeps.

Lemma keeps_writeRequest_groups request : keeps groups (writeRequest request).
Proof. unfold writeRequest, stream_write. solve_keeps. Qed.

Lemma keeps_postSubscribe {X} (proj : MapEventsManager -> X) g request :
  (forall x m, proj (set_filterId2ListenerGroup x m) = proj m) ->
  keeps proj (postSubscribe g request).
Proof.
  intros Hf. unfold postSubscribe, filterGroupSubscribed.
  apply keeps_bind; [auto with keeps|]. intros self.
  destruct (keyOrFilter self); [auto with keeps|].
  apply keeps_modify. intros m. apply Hf.
Qed.

Lemma keeps_postUnsubscribe_groups g request :
  keeps groups (postUnsubscribe g request).
Proof.
  unfold postUnsubscribe, keyGroupUnsubscribed, filterGroupUnsubscribed.
  solve_keeps.
Qed.

#[local] Hint Resolve keeps_writeRequest_groups keeps_postUnsubscribe_groups
  : keeps.
#[local] Hint Extern 1 (keeps _ (postSubscribe _ _)) =>
  apply keeps_postSubscribe; reflexivity : keeps.

Lemma keeps_doSubscribe_groups g isLite : keeps groups (doSubscribe g isLite).
Proof. unfold doSubscribe. solve_keeps. Qed.

Lemma keeps_doUnsubscribe_groups g : keeps groups (doUnsubscribe g).
Proof. unfold doUnsubscribe. solve_keeps. Qed.

#[local] Hint Resolve keeps_doSubscribe_groups keeps_doUnsubscribe_groups
  : keeps.

(** *** Running the code step by step *)

Lemma bind_Ok_inv {A B} (c : M A) (k : A -> M B) m b m' :
  bind c k m = (Ok b, m') ->
  exists a m1, c m = (Ok a, m1) /\ k a m1 = (Ok b, m').
Proof.
  unfold bind. destruct (c m) as [[a| |err] m1]; [eauto|discriminate..].
Qed.

Lemma this_run g m self :
  groups m !! g = Some self -> this g m = (Ok self, m).
Proof. intros H. unfold this. by rewrite H. Qed.

Lemma update_run g f m self :
  groups m !! g = Some self ->
  update g f m = (Ok tt, set_groups (<[g := f self]> (groups m)) m).
Proof. intros H. unfold update. by rewrite H. Qed.

Lemma listeners_get_set ls l isLite :
  listeners_get (listeners_set ls l isLite) l = Some isLite.
Proof.
  induction ls as [|[l' v] ls IH]; cbn.
  - by rewrite Nat.eqb_refl.
  - destruct (identity l' =? identity l)%nat eqn:Heq; cbn; by rewrite Heq.
Qed.

Lemma subscribes_app w1 w2 :
  subscribes (w1 ++ w2) = subscribes w1 ++ subscribes w2.
Proof. apply omap_app. Qed.

Lemma bind_run {A B} (c : M A) (k : A -> M B) m a m1 :
  c m = (Ok a, m1) -> bind c k m = k a m1.
Proof. intros H. unfold bind. by rewrite H. Qed.

(** After [addListener], however it ends, the listener is recorded in
    the group with the detail level asked for. *)
Lemma addListener_registers g listener isLite m o m1 self :
  groups m !! g = Some self ->
  addListener g listener isLite m = (o, m1) ->
  exists self1,
    groups m1 !! g = Some self1 /\
    listeners_get (listeners self1) listener = Some isLite.
Proof.
  intros Hg Hrun. unfold addListener in Hrun.
  erewrite bind_run in Hrun by (by apply this_run).
  destruct (match listeners_get (listeners self) listener with
            | Some prevIsLite => Bool.eqb prevIsLite isLite
            | None => false
            end) eqn:Hprev.
  { injection Hrun as <- <-. exists self. split; [done|].
    destruct (listeners_get (listeners self) listener); [|done].
    apply Bool.eqb_prop in Hprev. by subst. }
  erewrite bind_run in Hrun by (by apply update_run).
  assert (Hcount : exists m_b self_b,
    (if negb isLite
     then update g (fun self =>
            set_isLiteFalseCount (isLiteFalseCount self + 1) self)
     else ret tt)
      (set_groups
         (<[g := set_listeners
                   (listeners_set (listeners self) listener isLite) self]>
            (groups m)) m) = (Ok tt, m_b) /\
    groups m_b !! g = Some self_b /\
    listeners self_b = listeners_set (listeners self) listener isLite).
  { destruct isLite; cbn [negb].
    - eexists _, _. split; [reflexivity|]. cbn [groups set_groups].
      by rewrite lookup_insert_eq.
    - eexists _, _. split.
      + apply update_run. cbn [groups set_groups]. by rewrite lookup_insert_eq.
      + cbn [groups set_groups]. by rewrite lookup_insert_eq. }
  destruct Hcount as (m_b & self_b & Hstep & Hgb & Hlb).
  erewrite bind_run in Hrun by exact Hstep.
  erewrite bind_run in Hrun by (by apply this_run).
  destruct ((length (listeners self_b) =? 1)%nat
            || registeredIsLite self_b && negb isLite).
  - erewrite bind_run in Hrun by (by apply update_run).
    match type of Hrun with
    | ?rest ?m_c = _ =>
        assert (Hkeeps : keeps groups rest) by solve_keeps;
        rewrite (Hkeeps _ _ _ Hrun)
    end.
    cbn [groups set_groups]. rewrite lookup_insert_eq.
    eexists. split; [reflexivity|]. cbn [listeners set_registeredIsLite].
    rewrite Hlb. apply listeners_get_set.
  - injection Hrun as <- <-. exists self_b. split; [done|].
    rewrite Hlb. apply listeners_get_set.
Qed.

(** *** The inbound path and the core of the manager *)

Lemma settle_keeps_core p v m : core (settle p v m) = core m.
Proof. unfold settle. by destruct (promise_state p m). Qed.

Lemma invoke_callback_keeps_core cb uid err m :
  core (invoke_callback cb uid err m) = core m.
Proof. unfold invoke_callback. destruct err; by rewrite settle_keeps_core. Qed.

Lemma notify_group_keeps_core g mapEvent m :
  core (snd (notify_group g mapEvent m)) = core m.
Proof.
  unfold notify_group. destruct (groups m !! g); [|done].
  by destruct (notifyListeners _ _).
Qed.

Lemma notify_filter_groups_keeps_core ids mapEvent m :
  core (snd (notify_filter_groups ids mapEvent m)) = core m.
Proof.
  revert m. induction ids as [|id ids IH]; intros m; [done|].
  cbn [notify_filter_groups].
  destruct (filterId2ListenerGroup m !! id) as [g|]; [|apply IH].
  pose proof (notify_group_keeps_core g mapEvent m) as Hg.
  destruct (notify_group g mapEvent m) as [[?|?] m1]; cbn [snd] in *;
    [|done].
  by rewrite IH.
Qed.

Lemma handleResponse_keeps_core resp m :
  core (snd (handleResponse resp m)) = core m.
Proof.
  destruct resp as [uid|uid|cache|cache|event|]; cbn [handleResponse].
  1,2: destruct (String.eqb uid ""); [done|];
       destruct (pendingSubscriptions m !! uid) as [cb|]; [|done];
       cbn [snd]; by rewrite invoke_callback_keeps_core.
  1,2: by destruct (String.eqb cache (mapName m)).
  - pose proof (notify_filter_groups_keeps_core (getFilteridsList event)
                  (mkMapEvent (mapName m) event (serializer m)) m) as Hf.
    destruct (notify_filter_groups _ _ m) as [[?|?] m1]; cbn [snd] in *;
      [|done].
    destruct (keyMap m1 !! _) as [g|]; [|done].
    by rewrite notify_group_keeps_core.
  - done.
Qed.

Lemma handle_all_keeps_core resps m : core (handle_all resps m) = core m.
Proof.
  revert m. induction resps as [|resp resps IH]; intros m; [done|].
  cbn [handle_all].
  pose proof (handleResponse_keeps_core resp m) as Hr.
  destruct (handleResponse resp m) as [[?|?] m1]; cbn [snd] in *;
    rewrite IH; [done|]. by rewrite <- Hr.
Qed.

Lemma deliver_keeps_core m : core (deliver m) = core m.
Proof. unfold deliver. by rewrite handle_all_keeps_core. Qed.

Lemma keeps_await_core p : keeps core (await p).
Proof.
  intros m o m' Hrun. unfold await in Hrun.
  destruct (promise_state p m); try by injection Hrun as <- <-.
  destruct (promise_state p (deliver m)); injection Hrun as <- <-;
    apply deliver_keeps_core.
Qed.

(** A projection of the core is kept by whatever keeps the core. *)
Lemma keeps_through_core {X A} (proj : MapEventsManager -> X) (c : M A) :
  (forall m m', core m' = core m -> proj m' = proj m) ->
  keeps core c -> keeps proj c.
Proof. intros Hproj Hc m o m' Hrun. by eapply Hproj, Hc. Qed.

Ltac by_core :=
  let m := fresh "m" in let m' := fresh "m'" in let H := fresh "H" in
  intros m m' H; unfold core in H; simplify_eq;
  first [ done
        | unfold config, indexes, streams_opened, requested, subscribed;
          congruence ].

#[local] Hint Extern 2 (keeps _ (await _)) =>
  apply keeps_through_core; [by_core | apply keeps_await_core] : keeps.

Lemma keeps_update {X} (proj : MapEventsManager -> X) g f :
  (forall x m, proj (set_groups x m) = proj m) -> keeps proj (update g f).
Proof.
  intros Hf m o m' Hrun. unfold update in Hrun.
  destruct (groups m !! g); injection Hrun as <- <-; [apply Hf|done].
Qed.

Lemma keeps_new_group {X} (proj : MapEventsManager -> X) kf :
  (forall x m, proj (set_groups x m) = proj m) -> keeps proj (new_group kf).
Proof. intros Hf m o m' [= <- <-]. apply Hf. Qed.

#[local] Hint Extern 1 (keeps _ (update _ _)) =>
  apply keeps_update; reflexivity : keeps.
#[local] Hint Extern 1 (keeps _ (new_group _)) =>
  apply keeps_new_group; reflexivity : keeps.

(** Unfolds the asynchronous code down to its steps. *)
Ltac unfold_code :=
  unfold registerKeyListener, removeKeyListener, registerFilterListener,
    removeFilterListener, addListener, removeListener, doSubscribe,
    doUnsubscribe, postSubscribe, postUnsubscribe, keyGroupUnsubscribed,
    filterGroupSubscribed, filterGroupUnsubscribed, writeRequest,
    onError, onEnd, onCancel, emit.

(** *** Inbound messages *)

(** An acknowledgement that nothing waits for is ignored: a response
    with an empty uid, or with a uid that has no callback in
    [pendingSubscriptions] (an acknowledgement delivered twice, for
    one), leaves the manager as it is. *)
Theorem ack_without_callback_is_ignored m uid :
  uid = "" \/ pendingSubscriptions m !! uid = None ->
  handleResponse (Subscribed uid) m = (Returns tt, m) /\
  handleResponse (Unsubscribed uid) m = (Returns tt, m).
Proof.
  intros Hno. cbn [handleResponse].
  destruct (String.eqb uid "") eqn:Huid; [done|].
  destruct Hno as [->|Hno]; [by rewrite String.eqb_refl in Huid|].
  rewrite Hno, (delete_id _ _ Hno). by destruct m.
Qed.

Lemma ack_ignored_witness :
  handleResponse (Subscribed "7") manager_with_listener =
    (Returns tt, manager_with_listener) /\
  handleResponse (Unsubscribed "7") manager_with_listener =
    (Returns tt, manager_with_listener).
Proof.
  apply (ack_without_callback_is_ignored manager_with_listener "7").
  right. by vm_compute.
Defined.

Lemma calls_on_app targets1 targets2 mapEvent m :
  calls_on (targets1 ++ targets2) mapEvent m =
  calls_on targets1 mapEvent m ++ calls_on targets2 mapEvent m.
Proof. unfold calls_on. by rewrite map_app, concat_app. Qed.

Lemma notify_group_returns g mapEvent m :
  listeners_return mapEvent m ->
  notify_group g mapEvent m =
  (Returns tt, set_notified (notified m ++ calls_on [g] mapEvent m) m).
Proof.
  intros Hret. unfold notify_group, calls_on. cbn [map concat].
  destruct (groups m !! g) as [self|] eqn:Hg.
  - rewrite (notifyListeners_all_return _ _ (Hret _ _ Hg)).
    by rewrite app_nil_r.
  - cbn. rewrite app_nil_r. by destruct m.
Qed.

Lemma notify_filter_groups_returns ids mapEvent m :
  listeners_return mapEvent m ->
  notify_filter_groups ids mapEvent m =
  (Returns tt,
   set_notified
     (notified m
        ++ calls_on (omap (fun id => filterId2ListenerGroup m !! id) ids)
             mapEvent m) m).
Proof.
  revert m. induction ids as [|id ids IH]; intros m Hret.
  - cbn. rewrite app_nil_r. by destruct m.
  - cbn [notify_filter_groups].
    destruct (filterId2ListenerGroup m !! id) as [g|] eqn:Hid.
    2: { replace (omap (fun id => filterId2ListenerGroup m !! id) (id :: ids))
           with (omap (fun id => filterId2ListenerGroup m !! id) ids)
           by (cbn; by rewrite Hid).
         by apply IH. }
    replace (omap (fun id => filterId2ListenerGroup m !! id) (id :: ids))
      with ([g] ++ omap (fun id => filterId2ListenerGroup m !! id) ids)
      by (cbn; by rewrite Hid).
    rewrite (notify_group_returns _ _ _ Hret).
    rewrite IH; [|exact Hret].
    rewrite calls_on_app.
    unfold set_notified, calls_on. cbn. by rewrite <- app_assoc.
Qed.

(** An event is dispatched to the groups indexed under its filter ids,
    in the order of the ids (ids that are not indexed are skipped), and
    then to the group of its key; when no listener throws, both kinds
    of groups are notified and nothing else of the manager changes. *)
Theorem event_reaches_filter_groups_then_key_group m event :
  let mapEvent := mkMapEvent (mapName m) event (serializer m) in
  listeners_return mapEvent m ->
  handleResponse (Event event) m =
  (Returns tt,
   set_notified
     (notified m ++ calls_on (event_targets event m) mapEvent m) m).
Proof.
  intros mapEvent Hret. cbn [handleResponse]. fold mapEvent.
  rewrite (notify_filter_groups_returns _ _ _ Hret).
  unfold event_targets. rewrite calls_on_app.
  cbn [keyMap set_notified]. unfold MapEvent_getKey. cbn [eventSerializer payload mapEvent].
  destruct (keyMap m !! _) as [g|].
  - rewrite notify_group_returns; [|exact Hret].
    unfold set_notified, calls_on. cbn. by rewrite <- app_assoc.
  - unfold calls_on at 2. cbn. by rewrite app_nil_r.
Qed.

Lemma listeners_return_by_list mapEvent m :
  Forall (fun entry =>
            Forall (fun x => snd (dispatch x mapEvent) = Returns tt)
              (map fst (listeners (snd entry))))
    (map_to_list (groups m)) ->
  listeners_return mapEvent m.
Proof.
  intros Hall g self Hg. apply elem_of_map_to_list in Hg.
  rewrite Forall_forall in Hall. apply (Hall (g, self) Hg).
Qed.

Lemma event_dispatch_witness :
  handleResponse (Event inserted_k_event) manager_with_filter_and_key =
  (Returns tt,
   set_notified [(1%nat, ViaInserted); (2%nat, ViaInserted)]
     manager_with_filter_and_key).
Proof.
  apply (event_reaches_filter_groups_then_key_group
           manager_with_filter_and_key inserted_k_event).
  apply listeners_return_by_list. vm_compute. repeat constructor.
Defined.

(** *** Removing what is not there *)

(** Removing a listener from a key that has no group, or from a group
    that does not hold the listener, changes nothing and sends
    nothing. *)
Theorem removing_unregistered_listener_is_noop listener key m :
  match keyMap m !! key with
  | Some g =>
      exists self,
        groups m !! g = Some self /\
        listeners_get (listeners self) listener = None
  | None => True
  end ->
  removeKeyListener listener key m = (Ok tt, m).
Proof.
  intros Hkey. unfold removeKeyListener, bind, gets.
  destruct (keyMap m !! key) as [g|]; [|reflexivity].
  destruct Hkey as (self & Hg & Hget).
  unfold removeListener. erewrite bind_run by (by apply this_run).
  by rewrite Hget.
Qed.

Lemma removing_unregistered_witness :
  removeKeyListener (quiet_listener 5) "k" manager_with_listener =
    (Ok tt, manager_with_listener).
Proof.
  apply (removing_unregistered_listener_is_noop (quiet_listener 5) "k"
           manager_with_listener).
  vm_compute. eexists. split; reflexivity.
Defined.

(** *** Closing *)

Lemma keeps_close_tail {X} (proj : MapEventsManager -> X) p :
  (forall m m', core m' = core m -> proj m' = proj m) ->
  (forall x m, proj (set_wire x m) = proj m) ->
  (forall x m, proj (set_inflight x m) = proj m) ->
  (forall x m, proj (set_emitter x m) = proj m) ->
  (forall x m, proj (set_streamPromise x m) = proj m) ->
  keeps proj
    (await p ;;
     stream_cancel ;;
     let* err := gets (fun m => cancelStatus (client m)) in
     onError err ;;
     if truthy_number (indexOf err "CANCELLED") then
       modify (set_streamPromise None)
     else block).
Proof.
  intros Hcore Hw Hi He Hs.
  apply keeps_bind; [apply keeps_through_core; [exact Hcore|apply keeps_await_core]|].
  intros _. apply keeps_bind.
  { apply keeps_modify. intros m. by rewrite Hi, Hw. }
  intros _. apply keeps_bind; [apply keeps_gets|]. intros err.
  apply keeps_bind.
  { unfold onError, emit. apply keeps_bind; [apply keeps_gets|]. intros closing.
    destruct (negb closing); [|apply keeps_ret].
    apply keeps_bind; [apply keeps_gets|]. intros name.
    apply keeps_modify. intros m. apply He. }
  intros _. destruct (truthy_number _); [|apply keeps_block].
  apply keeps_modify. intros m. apply Hs.
Qed.

(** Once [closeEventStream()] has been called, however that call ends
    (even if it never completes), a further call returns at once and
    changes nothing. *)
Theorem second_close_is_noop m o m1 :
  closeEventStream m = (o, m1) ->
  closeEventStream m1 = (Ok tt, m1).
Proof.
  intros Hrun.
  assert (Hdone : markedForClose m1 = true \/ streamPromise m1 = None).
  { unfold closeEventStream in Hrun.
    unfold bind at 1 2, gets in Hrun.
    destruct (streamPromise m) as [p|] eqn:Hp.
    - destruct (markedForClose m) eqn:Hc; cbn [negb] in Hrun.
      + injection Hrun as <- <-. by left.
      + left. unfold bind at 1, modify at 1 in Hrun.
        by rewrite (keeps_close_tail markedForClose p
                      ltac:(by_core) ltac:(done) ltac:(done) ltac:(done)
                      ltac:(done) _ _ _ Hrun).
    - injection Hrun as <- <-. by right. }
  unfold closeEventStream, bind, gets.
  destruct Hdone as [-> | ->]; [|reflexivity].
  by destruct (streamPromise m1).
Qed.

Lemma second_close_witness :
  closeEventStream (snd (closeEventStream manager_with_pending_ack)) =
    (Ok tt, snd (closeEventStream manager_with_pending_ack)).
Proof.
  apply (second_close_is_noop manager_with_pending_ack
           (fst (closeEventStream manager_with_pending_ack))).
  by destruct (closeEventStream manager_with_pending_ack).
Defined.

(** The handler that [closeEventStream()] installs resolves only when
    [indexOf('CANCELLED')] is truthy.  When the text of the stream's
    error begins with [CANCELLED] the index is 0: the stream has been
    cancelled and the manager is marked for close, but the call never
    completes and the stream promise is kept. *)
Theorem close_hangs_when_status_starts_with_CANCELLED m p :
  markedForClose m = false ->
  streamPromise m = Some p ->
  promise_state p m = Fulfilled tt ->
  indexOf (cancelStatus (client m)) "CANCELLED" = 0%Z ->
  exists m',
    closeEventStream m = (Blocked, m') /\
    wire m' = wire m ++ [Cancelled] /\
    markedForClose m' = true /\
    streamPromise m' = Some p /\
    emitter m' = emitter m.
Proof.
  intros Hclosing Hstream Hp Hstatus.
  destruct m; cbn in *; subst.
  unfold closeEventStream, bind, gets, modify, await, stream_cancel, onError,
    ret, block.
  cbn. unfold promise_state in *. cbn in *. rewrite Hp. cbn.
  unfold bind, gets, ret. cbn. rewrite Hstatus. cbn.
  eexists. repeat split.
Qed.

Lemma close_hangs_witness :
  exists m',
    closeEventStream (established_manager terse_client) = (Blocked, m') /\
    wire m' = wire (established_manager terse_client) ++ [Cancelled] /\
    markedForClose m' = true /\
    streamPromise m' = Some "1" /\
    emitter m' = emitter (established_manager terse_client).
Proof.
  apply (close_hangs_when_status_starts_with_CANCELLED
           (established_manager terse_client) "1"); by vm_compute.
Defined.

(** *** What registrations and removals leave alone *)

Lemma keeps_stream_write {X} (proj : MapEventsManager -> X) request :
  (forall m i,
     proj (set_inflight i (set_wire (wire m ++ [Sent request]) m)) = proj m) ->
  keeps proj (stream_write request).
Proof. intros Hf. apply keeps_modify. intros m. apply Hf. Qed.

Lemma streams_opened_sent m i request :
  streams_opened (set_inflight i (set_wire (wire m ++ [Sent request]) m)) =
  streams_opened m.
Proof.
  unfold streams_opened. cbn [wire set_inflight set_wire].
  rewrite omap_app, length_app. cbn. lia.
Qed.

#[local] Hint Extern 1 (keeps _ (stream_write _)) =>
  apply keeps_stream_write; intros;
  first [ reflexivity | apply streams_opened_sent ] : keeps.

Lemma keeps_ensureStream_config : keeps config ensureStream.
Proof. unfold ensureStream. solve_keeps. Qed.

#[local] Hint Resolve keeps_ensureStream_config : keeps.

Lemma keeps_idle {X} (proj : MapEventsManager -> X) :
  (forall m m', core m' = core m -> proj m' = proj m) -> keeps proj idle.
Proof.
  intros Hcore m o m' [= <- <-]. apply Hcore, deliver_keeps_core.
Qed.

(** No registration, removal or inbound message resets
    [markedForClose], and none changes the map name, the client or the
    serializer: a manager that has been marked for close stays so, also
    after a later registration has opened a new stream, and so it never
    again reports a stream error on the map's emitter. *)
Theorem markedForClose_is_never_reset :
  (forall l key isLite, keeps config (registerKeyListener l key isLite)) /\
  (forall l key, keeps config (removeKeyListener l key)) /\
  (forall l mapFilter isLite,
     keeps config (registerFilterListener l mapFilter isLite)) /\
  (forall l mapFilter, keeps config (removeFilterListener l mapFilter)) /\
  keeps config idle /\
  (forall m o m',
     closeEventStream m = (o, m') ->
     markedForClose m = true -> markedForClose m' = true) /\
  (forall m err,
     markedForClose m = true ->
     onError err m = (Ok tt, m) /\ onEnd m = (Ok tt, m) /\
     onCancel m = (Ok tt, m)).
Proof.
  repeat split.
  - intros l key isLite. unfold_code. solve_keeps.
  - intros l key. unfold_code. solve_keeps.
  - intros l mapFilter isLite. unfold_code. solve_keeps.
  - intros l mapFilter. unfold_code. solve_keeps.
  - apply keeps_idle. by_core.
  - intros m o m' Hrun Hc. unfold closeEventStream, bind, gets in Hrun.
    rewrite Hc in Hrun. cbn [negb] in Hrun.
    by destruct (streamPromise m); injection Hrun as <- <-.
  - unfold onError, bind, gets. by rewrite H.
  - unfold onEnd, bind, gets. by rewrite H.
  - unfold onCancel, bind, gets. by rewrite H.
Qed.

(** *** One stream *)

Lemma stream_kept_bind {A B} (c : M A) (k : A -> M B) :
  stream_kept c -> (forall a, stream_kept (k a)) -> stream_kept (bind c k).
Proof.
  intros Hc Hk m o m' p Hp Hrun. unfold bind in Hrun.
  destruct (c m) as [[a| |err] m1] eqn:Hcm.
  - destruct (Hc _ _ _ _ Hp Hcm) as [Hp1 Ho1].
    destruct (Hk a _ _ _ _ Hp1 Hrun) as [Hp2 Ho2]. split; congruence.
  - injection Hrun as <- <-. by eapply Hc.
  - injection Hrun as <- <-. by eapply Hc.
Qed.

Lemma stream_kept_of_keeps {A} (c : M A) :
  keeps streamPromise c -> keeps streams_opened c -> stream_kept c.
Proof.
  intros Hs Ho m o m' p Hp Hrun. split.
  - by rewrite (Hs _ _ _ Hrun).
  - by apply (Ho _ _ _ Hrun).
Qed.

Lemma stream_kept_ensureStream : stream_kept ensureStream.
Proof.
  intros m o m' p Hp Hrun. unfold ensureStream, bind, gets in Hrun.
  rewrite Hp in Hrun. by injection Hrun as <- <-.
Qed.

Ltac stream_kept_step :=
  first
    [ apply stream_kept_ensureStream
    | apply stream_kept_bind; [|intros ?]
    | match goal with
      | |- stream_kept (match ?x with _ => _ end) => destruct x
      end
    | apply stream_kept_of_keeps; solve [solve_keeps] ].

(** There is one duplex stream per manager: while the stream promise is
    set, no registration and no removal opens another stream or
    replaces the promise. *)
Theorem registrations_share_one_stream :
  (forall l key isLite, stream_kept (registerKeyListener l key isLite)) /\
  (forall l key, stream_kept (removeKeyListener l key)) /\
  (forall l mapFilter isLite,
     stream_kept (registerFilterListener l mapFilter isLite)) /\
  (forall l mapFilter, stream_kept (removeFilterListener l mapFilter)).
Proof.
  split; [|split; [|split]].
  - intros l key isLite. unfold_code. repeat stream_kept_step.
  - intros l key. unfold_code. repeat stream_kept_step.
  - intros l mapFilter isLite. unfold_code. repeat stream_kept_step.
  - intros l mapFilter. unfold_code. repeat stream_kept_step.
Qed.

(** *** Requests on the wire *)

Lemma requests_app w1 w2 : requests (w1 ++ w2) = requests w1 ++ requests w2.
Proof. apply omap_app. Qed.

Lemma keeps_ensureStream_requested : keeps requested ensureStream.
Proof.
  intros m o m' Hrun.
  unfold ensureStream, bind, gets, modify, mapEventSubscribe, stream_write,
    ret in Hrun.
  cbn in Hrun. destruct (streamPromise m); injection Hrun as <- <-; [done|].
  unfold requested. cbn [wire set_streamPromise set_inflight set_wire
    set_pendingSubscriptions new_promise set_promises set_reqFactory].
  rewrite <- app_assoc, requests_app. cbn. by rewrite app_nil_r.
Qed.

Lemma keeps_ensureStream_indexes : keeps indexes ensureStream.
Proof. unfold ensureStream. solve_keeps. Qed.

#[local] Hint Resolve keeps_ensureStream_requested keeps_ensureStream_indexes
  : keeps.

Lemma keeps_writeRequest_indexes request : keeps indexes (writeRequest request).
Proof. unfold writeRequest. solve_keeps. Qed.

Lemma writeRequest_requested request m m' :
  writeRequest request m = (Ok tt, m') ->
  getType request <> INIT ->
  requested m' = requested m ++ [request].
Proof.
  unfold writeRequest. intros Hrun Htype.
  apply bind_Ok_inv in Hrun as (stream & m1 & Hstream & Hrun).
  apply bind_Ok_inv in Hrun as ([] & m2 & Hawait & Hrun).
  apply keeps_ensureStream_requested in Hstream.
  assert (Hk : forall p, keeps requested (await p)) by (intros; auto with keeps).
  apply Hk in Hawait.
  unfold bind at 1 2 3, modify, stream_write in Hrun. cbn in Hrun.
  apply Hk in Hrun. rewrite Hrun. unfold requested in *.
  cbn [wire set_inflight set_wire]. rewrite requests_app, Hawait, Hstream.
  cbn. by destruct (getType request).
Qed.

Lemma mapListenerRequest_fields subscribe kf isLite m request m' :
  mapListenerRequest subscribe kf isLite m = (Ok request, m') ->
  getType request = (if subscribe then SUBSCRIBE else UNSUBSCRIBE) /\
  getSubscribe request = subscribe /\
  getLite request = default false isLite /\
  request_targets m request kf /\
  indexes m' = indexes m /\ requested m' = requested m.
Proof.
  unfold mapListenerRequest. intros Hrun.
  destruct kf; injection Hrun as <- <-; by repeat split.
Qed.

(** An acknowledged [doSubscribe]: one SUBSCRIBE for the group's key or
    filter went out; a filter group is then indexed under the filter id
    of the request. *)
Lemma doSubscribe_sent g isLite m m' self :
  groups m !! g = Some self ->
  doSubscribe g isLite m = (Ok tt, m') ->
  exists request,
    requested m' = requested m ++ [request] /\
    getType request = SUBSCRIBE /\ getLite request = isLite /\
    request_targets m request (keyOrFilter self) /\
    groups m' = groups m /\ keyMap m' = keyMap m /\
    filterMap m' = filterMap m /\ serializer m' = serializer m /\
    filterId2ListenerGroup m' =
      match keyOrFilter self with
      | OfKey _ => filterId2ListenerGroup m
      | OfFilter _ => <[getFilterid request := g]> (filterId2ListenerGroup m)
      end.
Proof.
  intros Hg Hrun. unfold doSubscribe in Hrun.
  erewrite bind_run in Hrun by (by apply this_run).
  apply bind_Ok_inv in Hrun as (request & m1 & Hreq & Hrun).
  apply bind_Ok_inv in Hrun as ([] & m2 & Hwrite & Hpost).
  apply mapListenerRequest_fields in Hreq
    as (Htype & _ & Hlite & Htargets & Hidx1 & Hreq1).
  pose proof (keeps_writeRequest_indexes _ _ _ _ Hwrite) as Hidx2.
  apply writeRequest_requested in Hwrite; [|by rewrite Htype].
  exists request.
  assert (Hg2 : groups m2 !! g = Some self).
  { unfold indexes in *. simplify_eq. congruence. }
  unfold postSubscribe in Hpost.
  erewrite bind_run in Hpost by (by apply this_run).
  unfold indexes in *.
  destruct (keyOrFilter self);
    [|unfold filterGroupSubscribed, modify in Hpost];
    injection Hpost as <-; simplify_eq;
    split_and!; try done; unfold requested in *;
    cbn [groups keyMap filterMap serializer filterId2ListenerGroup wire
         set_filterId2ListenerGroup set_keyMap set_filterMap];
    congruence.
Qed.

(** An acknowledged [doUnsubscribe]: one UNSUBSCRIBE for the group's
    key or filter went out, and the group is taken out of the
    indexes. *)
Lemma doUnsubscribe_sent g m m' self :
  groups m !! g = Some self ->
  doUnsubscribe g m = (Ok tt, m') ->
  exists request,
    requested m' = requested m ++ [request] /\
    getType request = UNSUBSCRIBE /\
    request_targets m request (keyOrFilter self) /\
    groups m' = groups m /\ serializer m' = serializer m /\
    match keyOrFilter self with
    | OfKey _ =>
        keyMap m' =
          delete (deserialize (serializer m) (getKey request)) (keyMap m) /\
        filterMap m' = filterMap m /\
        filterId2ListenerGroup m' = filterId2ListenerGroup m
    | OfFilter filter =>
        keyMap m' = keyMap m /\
        filterMap m' = delete filter (filterMap m) /\
        filterId2ListenerGroup m' =
          delete (getFilterid request) (filterId2ListenerGroup m)
    end.
Proof.
  intros Hg Hrun. unfold doUnsubscribe in Hrun.
  erewrite bind_run in Hrun by (by apply this_run).
  apply bind_Ok_inv in Hrun as (request & m1 & Hreq & Hrun).
  apply bind_Ok_inv in Hrun as ([] & m2 & Hwrite & Hpost).
  apply mapListenerRequest_fields in Hreq
    as (Htype & _ & Hlite & Htargets & Hidx1 & Hreq1).
  pose proof (keeps_writeRequest_indexes _ _ _ _ Hwrite) as Hidx2.
  apply writeRequest_requested in Hwrite; [|by rewrite Htype].
  exists request.
  assert (Hg2 : groups m2 !! g = Some self).
  { unfold indexes in *. simplify_eq. congruence. }
  unfold postUnsubscribe in Hpost.
  erewrite bind_run in Hpost by (by apply this_run).
  unfold indexes in *.
  destruct (keyOrFilter self);
    unfold keyGroupUnsubscribed, filterGroupUnsubscribed, bind, gets,
      modify in Hpost;
    injection Hpost as <-; simplify_eq;
    split_and!; try done; unfold requested in *;
    cbn [groups keyMap filterMap serializer filterId2ListenerGroup wire
         set_filterId2ListenerGroup set_keyMap set_filterMap];
    congruence.
Qed.

(** *** Listeners joining a group *)

Lemma listeners_set_absent ls l isLite :
  listeners_get ls l = None -> listeners_set ls l isLite = ls ++ [(l, isLite)].
Proof.
  induction ls as [|[l' v] ls IH]; cbn; [done|].
  destruct (identity l' =? identity l)%nat; [done|].
  intros H. by rewrite IH.
Qed.

(** [addListener] for a listener the group does not hold yet: the
    record is added, then the code decides on a registration. *)
Lemma addListener_new g l isLite m self :
  groups m !! g = Some self ->
  listeners_get (listeners self) l = None ->
  addListener g l isLite m =
  (if (length (listeners self) =? 0)%nat
      || (registeredIsLite self && negb isLite)
   then
     update g (set_registeredIsLite isLite) ;;
     (if (0 <? length (listeners self))%nat then doUnsubscribe g else ret tt) ;;
     doSubscribe g isLite
   else ret tt)
    (set_groups (<[g := with_listener l isLite self]> (groups m)) m).
Proof.
  intros Hg Hget. unfold addListener.
  erewrite bind_run by (by apply this_run).
  rewrite Hget. erewrite bind_run by (by apply update_run).
  cbv beta. rewrite (listeners_set_absent _ _ _ Hget).
  assert (Hcount :
    (if negb isLite
     then update g (fun self =>
            set_isLiteFalseCount (isLiteFalseCount self + 1) self)
     else ret tt)
      (set_groups
         (<[g := set_listeners (listeners self ++ [(l, isLite)]) self]>
            (groups m)) m) =
    (Ok tt, set_groups (<[g := with_listener l isLite self]> (groups m)) m)).
  { destruct isLite; cbn [negb].
    - unfold ret, with_listener, set_listeners. reflexivity.
    - erewrite update_run
        by (cbn [groups set_groups]; apply lookup_insert_eq).
      cbn [groups set_groups]. rewrite insert_insert_eq. reflexivity. }
  erewrite bind_run by exact Hcount.
  erewrite bind_run
    by (apply this_run; cbn [groups set_groups]; apply lookup_insert_eq).
  cbn [listeners registeredIsLite with_listener].
  rewrite length_app. cbn [length].
  replace (length (listeners self) + 1 =? 1)%nat
    with (length (listeners self) =? 0)%nat
    by (destruct (length (listeners self)) as [|[|n]]; reflexivity).
  replace (1 <? length (listeners self) + 1)%nat
    with (0 <? length (listeners self))%nat
    by (destruct (length (listeners self)) as [|[|n]]; reflexivity).
  reflexivity.
Qed.

(** Listeners are coalesced: a listener that joins a group which is
    already registered at a detail level that serves it (a lite
    listener, or any listener once the group is registered non-lite)
    is recorded in the group and nothing goes out on the stream. *)
Theorem covered_listener_sends_nothing g l isLite m self :
  groups m !! g = Some self ->
  listeners self <> [] ->
  listeners_get (listeners self) l = None ->
  registeredIsLite self && negb isLite = false ->
  addListener g l isLite m =
  (Ok tt, set_groups (<[g := with_listener l isLite self]> (groups m)) m).
Proof.
  intros Hg Hne Hget Hcovered.
  rewrite (addListener_new _ _ _ _ _ Hg Hget), Hcovered.
  destruct (listeners self); [done|reflexivity].
Qed.

Lemma covered_listener_witness :
  addListener 0%nat (quiet_listener 2) true manager_with_listener =
  (Ok tt,
   set_groups
     (<[0%nat := with_listener (quiet_listener 2) true
                   {| isActive := true; keyOrFilter := OfKey "k";
                      registeredIsLite := true;
                      listeners := [(quiet_listener 1, true)];
                      isLiteFalseCount := 0 |}]>
        (groups manager_with_listener)) manager_with_listener).
Proof.
  apply (covered_listener_sends_nothing 0%nat (quiet_listener 2) true
           manager_with_listener).
  - by vm_compute.
  - discriminate.
  - reflexivity.
  - reflexivity.
Defined.

(** The run of a re-registration: the group's registered level is set,
    an UNSUBSCRIBE and then a SUBSCRIBE are acknowledged. *)
Lemma reregistration_run g isLite m m1 self :
  groups m !! g = Some self ->
  (update g (set_registeredIsLite isLite) ;;
   doUnsubscribe g ;;
   doSubscribe g isLite) m = (Ok tt, m1) ->
  exists u s,
    requested m1 = requested m ++ [u; s] /\
    getType u = UNSUBSCRIBE /\ request_targets m u (keyOrFilter self) /\
    getType s = SUBSCRIBE /\ request_targets m s (keyOrFilter self) /\
    getLite s = isLite /\
    groups m1 = <[g := set_registeredIsLite isLite self]> (groups m) /\
    unindexed m1 (keyOrFilter self).
Proof.
  intros Hg Hrun.
  erewrite bind_run in Hrun by (by apply update_run).
  apply bind_Ok_inv in Hrun as ([] & m2 & Hunsub & Hsub).
  eapply doUnsubscribe_sent in Hunsub
    as (u & Hreq_u & Htype_u & Htarget_u & Hgroups_u & Hser_u & Hidx_u);
    [|cbn [groups set_groups]; apply lookup_insert_eq].
  eapply doSubscribe_sent in Hsub
    as (s & Hreq_s & Htype_s & Hlite_s & Htarget_s & Hgroups_s & Hkey_s
        & Hfilter_s & Hser_s & Hid_s);
    [|rewrite Hgroups_u; cbn [groups set_groups]; apply lookup_insert_eq].
  cbn [keyOrFilter set_registeredIsLite] in *.
  exists u, s. split_and!; try done.
  - rewrite Hreq_s, Hreq_u. unfold requested. cbn. by rewrite <- app_assoc.
  - unfold request_targets in *. rewrite Hser_u in Htarget_s. exact Htarget_s.
  - by rewrite Hgroups_s, Hgroups_u.
  - unfold unindexed, key_round_trip, request_targets in *.
    cbn [serializer set_groups keyMap filterMap] in *.
    destruct (keyOrFilter self) as [key|filter].
    + intros Hround. destruct Hidx_u as (Hkey_u & _).
      destruct Htarget_u as [Hbytes _].
      rewrite Hser_s, Hser_u in Hround.
      rewrite Hkey_s, Hkey_u, Hbytes, Hround. apply lookup_delete_eq.
    + destruct Hidx_u as (_ & Hfilter_u & _).
      rewrite Hfilter_s, Hfilter_u. apply lookup_delete_eq.
Qed.

(** Detail-level upgrade: when a listener that wants full events joins
    a group registered as lite, exactly an UNSUBSCRIBE followed by a
    SUBSCRIBE with [lite = false] goes out, both for the group's key or
    filter; the group is then registered non-lite and holds the new
    record. *)
Theorem upgrade_unsubscribes_then_subscribes g l m m1 self :
  groups m !! g = Some self ->
  listeners self <> [] ->
  listeners_get (listeners self) l = None ->
  registeredIsLite self = true ->
  addListener g l false m = (Ok tt, m1) ->
  exists u s,
    requested m1 = requested m ++ [u; s] /\
    getType u = UNSUBSCRIBE /\ request_targets m u (keyOrFilter self) /\
    getType s = SUBSCRIBE /\ request_targets m s (keyOrFilter self) /\
    getLite s = false /\
    groups m1 !! g =
      Some (set_registeredIsLite false (with_listener l false self)).
Proof.
  intros Hg Hne Hget Hlite Hrun.
  rewrite (addListener_new _ _ _ _ _ Hg Hget), Hlite in Hrun.
  rewrite orb_true_r in Hrun.
  destruct (listeners self) as [|x ls] eqn:Hls; [done|].
  cbn [length Nat.ltb Nat.leb] in Hrun.
  eapply reregistration_run in Hrun
    as (u & s & Hreq & Htu & Htgu & Hts & Htgs & Hl & Hgroups & _);
    [|cbn [groups set_groups]; apply lookup_insert_eq].
  exists u, s. split_and!; try done.
  rewrite Hgroups. cbn [groups set_groups].
  by rewrite insert_insert_eq, lookup_insert_eq.
Qed.

Lemma upgrade_witness :
  exists u s,
    requested manager_after_upgrade =
      requested manager_with_listener ++ [u; s] /\
    getType u = UNSUBSCRIBE /\
    request_targets manager_with_listener u (OfKey "k") /\
    getType s = SUBSCRIBE /\
    request_targets manager_with_listener s (OfKey "k") /\
    getLite s = false /\
    groups manager_after_upgrade !! 0%nat =
      Some (set_registeredIsLite false
              (with_listener (quiet_listener 2) false
                 {| isActive := true; keyOrFilter := OfKey "k";
                    registeredIsLite := true;
                    listeners := [(quiet_listener 1, true)];
                    isLiteFalseCount := 0 |})).
Proof.
  apply (upgrade_unsubscribes_then_subscribes 0%nat (quiet_listener 2)
           manager_with_listener manager_after_upgrade
           {| isActive := true; keyOrFilter := OfKey "k";
              registeredIsLite := true;
              listeners := [(quiet_listener 1, true)];
              isLiteFalseCount := 0 |}).
  - by vm_compute.
  - discriminate.
  - reflexivity.
  - reflexivity.
  - by vm_compute.
Defined.

(** A re-registration takes the group out of the index it was found
    in: the hook run after the UNSUBSCRIBE deletes the entry and the
    hook run after the SUBSCRIBE does not put it back.  After a detail
    upgrade the group, with its listeners, is no longer found under its
    key (if the serializer gives the key back) or its filter, so that a
    later registration for that key or filter starts a new group. *)
Theorem upgrade_leaves_group_unindexed g l m m1 self :
  groups m !! g = Some self ->
  listeners self <> [] ->
  listeners_get (listeners self) l = None ->
  registeredIsLite self = true ->
  addListener g l false m = (Ok tt, m1) ->
  unindexed m1 (keyOrFilter self) /\
  exists self1,
    groups m1 !! g = Some self1 /\
    listeners self1 = listeners self ++ [(l, false)].
Proof.
  intros Hg Hne Hget Hlite Hrun.
  rewrite (addListener_new _ _ _ _ _ Hg Hget), Hlite in Hrun.
  rewrite orb_true_r in Hrun.
  destruct (listeners self) as [|x ls] eqn:Hls; [done|].
  cbn [length Nat.ltb Nat.leb] in Hrun.
  eapply reregistration_run in Hrun
    as (u & s & _ & _ & _ & _ & _ & _ & Hgroups & Hidx);
    [|cbn [groups set_groups]; apply lookup_insert_eq].
  split; [exact Hidx|].
  eexists. split.
  - rewrite Hgroups. cbn [groups set_groups].
    by rewrite insert_insert_eq, lookup_insert_eq.
  - cbn [listeners set_registeredIsLite with_listener]. by rewrite Hls.
Qed.

Lemma upgrade_unindexed_witness :
  unindexed manager_after_upgrade (OfKey "k") /\
  exists self1,
    groups manager_after_upgrade !! 0%nat = Some self1 /\
    listeners self1 =
      [(quiet_listener 1, true)] ++ [(quiet_listener 2, false)].
Proof.
  apply (upgrade_leaves_group_unindexed 0%nat (quiet_listener 2)
           manager_with_listener manager_after_upgrade
           {| isActive := true; keyOrFilter := OfKey "k";
              registeredIsLite := true;
              listeners := [(quiet_listener 1, true)];
              isLiteFalseCount := 0 |}).
  - by vm_compute.
  - discriminate.
  - reflexivity.
  - reflexivity.
  - by vm_compute.
Defined.

(** *** Listeners leaving a group *)

Lemma listeners_delete_length ls l v :
  listeners_get ls l = Some v ->
  S (length (listeners_delete ls l)) = length ls.
Proof.
  induction ls as [|[l' v'] ls IH]; cbn; [done|].
  destruct (identity l' =? identity l)%nat; [done|].
  intros H. cbn [length]. f_equal. by apply IH.
Qed.

(** The run of an UNSUBSCRIBE followed by a SUBSCRIBE. *)
Lemma resubscribe_run g isLite m m1 self :
  groups m !! g = Some self ->
  (doUnsubscribe g ;; doSubscribe g isLite) m = (Ok tt, m1) ->
  exists u s,
    requested m1 = requested m ++ [u; s] /\
    getType u = UNSUBSCRIBE /\ request_targets m u (keyOrFilter self) /\
    getType s = SUBSCRIBE /\ request_targets m s (keyOrFilter self) /\
    getLite s = isLite /\
    groups m1 = groups m.
Proof.
  intros Hg Hrun.
  apply bind_Ok_inv in Hrun as ([] & m2 & Hunsub & Hsub).
  eapply doUnsubscribe_sent in Hunsub
    as (u & Hreq_u & Htype_u & Htarget_u & Hgroups_u & Hser_u & Hidx_u);
    [|exact Hg].
  eapply doSubscribe_sent in Hsub
    as (s & Hreq_s & Htype_s & Hlite_s & Htarget_s & Hgroups_s & _);
    [|by rewrite Hgroups_u].
  exists u, s. split_and!; try done.
  - rewrite Hreq_s, Hreq_u. by rewrite <- app_assoc.
  - unfold request_targets in *. by rewrite Hser_u in Htarget_s.
  - by rewrite Hgroups_s, Hgroups_u.
Qed.

(** Detail-level downgrade: when the only listener that wanted full
    events leaves a group that keeps other listeners, exactly an
    UNSUBSCRIBE followed by a SUBSCRIBE with [lite = true] goes out.
    The count of non-lite records drops to zero; the group's
    [registeredIsLite] field is left as it was. *)
Theorem downgrade_unsubscribes_then_subscribes g l m m1 self :
  groups m !! g = Some self ->
  listeners_get (listeners self) l = Some false ->
  (2 <= length (listeners self))%nat ->
  isLiteFalseCount self = 1%Z ->
  removeListener g l m = (Ok tt, m1) ->
  exists u s,
    requested m1 = requested m ++ [u; s] /\
    getType u = UNSUBSCRIBE /\ request_targets m u (keyOrFilter self) /\
    getType s = SUBSCRIBE /\ request_targets m s (keyOrFilter self) /\
    getLite s = true /\
    groups m1 !! g =
      Some (set_isLiteFalseCount 0
              (set_listeners (listeners_delete (listeners self) l) self)).
Proof.
  intros Hg Hget Hlen Hcount Hrun. unfold removeListener in Hrun.
  erewrite bind_run in Hrun by (by apply this_run).
  rewrite Hget in Hrun.
  pose proof (listeners_delete_length _ _ _ Hget) as Hdel.
  destruct (length (listeners self) =? 0)%nat eqn:Hzero;
    [apply Nat.eqb_eq in Hzero; lia|].
  erewrite bind_run in Hrun by (by apply update_run).
  erewrite bind_run in Hrun
    by (apply this_run; cbn [groups set_groups]; apply lookup_insert_eq).
  cbn [listeners set_listeners] in Hrun.
  destruct (length (listeners_delete (listeners self) l) =? 0)%nat eqn:Hzero';
    [apply Nat.eqb_eq in Hzero'; lia|].
  cbn [negb] in Hrun.
  erewrite bind_run in Hrun
    by (apply update_run; cbn [groups set_groups]; apply lookup_insert_eq).
  erewrite bind_run in Hrun
    by (apply this_run; cbn [groups set_groups]; apply lookup_insert_eq).
  cbn [isLiteFalseCount set_isLiteFalseCount set_listeners] in Hrun.
  rewrite Hcount in Hrun. cbn [Z.sub Z.eqb Z.add Z.opp Z.pos_sub] in Hrun.
  change (1 - 1 =? 0)%Z with true in Hrun.
  eapply resubscribe_run in Hrun
    as (u & s & Hreq & Htu & Htgu & Hts & Htgs & Hl & Hgroups);
    [|cbn [groups set_groups]; apply lookup_insert_eq].
  exists u, s. split_and!; try done.
  rewrite Hgroups. cbn [groups set_groups].
  rewrite insert_insert_eq, lookup_insert_eq. reflexivity.
Qed.

Lemma downgrade_witness :
  exists u s,
    requested (snd (removeListener 0%nat (quiet_listener 2)
                      manager_after_upgrade)) =
      requested manager_after_upgrade ++ [u; s] /\
    getType u = UNSUBSCRIBE /\
    request_targets manager_after_upgrade u (OfKey "k") /\
    getType s = SUBSCRIBE /\
    request_targets manager_after_upgrade s (OfKey "k") /\
    getLite s = true /\
    groups (snd (removeListener 0%nat (quiet_listener 2)
                   manager_after_upgrade)) !! 0%nat =
      Some {| isActive := true; keyOrFilter := OfKey "k";
              registeredIsLite := false;
              listeners := [(quiet_listener 1, true)];
              isLiteFalseCount := 0 |}.
Proof.
  apply (downgrade_unsubscribes_then_subscribes 0%nat (quiet_listener 2)
           manager_after_upgrade _
           {| isActive := true; keyOrFilter := OfKey "k";
              registeredIsLite := false;
              listeners := [(quiet_listener 1, true);
                            (quiet_listener 2, false)];
              isLiteFalseCount := 1 |}).
  - by vm_compute.
  - reflexivity.
  - cbn. lia.
  - reflexivity.
  - by vm_compute.
Defined.

(** *** The callbacks of [pendingSubscriptions] *)

Lemma notify_group_waiting g mapEvent m :
  waiting (snd (notify_group g mapEvent m)) = waiting m.
Proof.
  unfold notify_group. destruct (groups m !! g); [|done].
  by destruct (notifyListeners _ _).
Qed.

Lemma notify_filter_groups_waiting ids mapEvent m :
  waiting (snd (notify_filter_groups ids mapEvent m)) = waiting m.
Proof.
  revert m. induction ids as [|id ids IH]; intros m; cbn; [done|].
  destruct (filterId2ListenerGroup m !! id) as [g|]; [|apply IH].
  pose proof (notify_group_waiting g mapEvent m) as Hg.
  destruct (notify_group g mapEvent m) as [[[]|err] m1]; cbn in Hg.
  - by rewrite IH.
  - done.
Qed.

Lemma handleResponse_event_waiting event m :
  waiting (snd (handleResponse (Event event) m)) = waiting m.
Proof.
  unfold handleResponse.
  pose proof (notify_filter_groups_waiting (getFilteridsList event)
                (mkMapEvent (mapName m) event (serializer m)) m) as Hf.
  destruct (notify_filter_groups _ _ m) as [[[]|err] m1]; cbn in Hf; [|done].
  destruct (keyMap m1 !! _) as [g|]; [|done].
  by rewrite notify_group_waiting.
Qed.

(** What an acknowledgement does to the callbacks and the promises. *)
Lemma acknowledgement_waiting uid' m m' :
  String.eqb uid' "" = false ->
  m' = snd (handleResponse (Subscribed uid') m) \/
  m' = snd (handleResponse (Unsubscribed uid') m) ->
  pendingSubscriptions m' = delete uid' (pendingSubscriptions m) /\
  (promises m' = promises m \/
   exists cb, pendingSubscriptions m !! uid' = Some cb /\
              promises m' = <[settles cb := Fulfilled tt]> (promises m)).
Proof.
  intros Hne Hm'.
  assert (m' = snd (handleResponse (Subscribed uid') m)) as ->
    by (by destruct Hm').
  clear Hm'. unfold handleResponse. rewrite Hne.
  destruct (pendingSubscriptions m !! uid') as [cb|] eqn:Hcb; cbn [snd].
  - unfold invoke_callback, settle, promise_state.
    cbn [pendingSubscriptions set_pendingSubscriptions promises].
    destruct (default Pending (promises m !! settles cb));
      cbn [pendingSubscriptions set_pendingSubscriptions promises
           set_promises];
      (split; [by rewrite delete_delete_eq|eauto]).
  - cbn [pendingSubscriptions set_pendingSubscriptions promises]. auto.
Qed.

Lemma handleResponse_callbacks uid resp m :
  callbacks_consistent m ->
  callbacks_consistent (snd (handleResponse resp m)) /\
  (callback_pending uid m ->
   callback_pending uid (snd (handleResponse resp m))).
Proof.
  intros Hcons.
  assert (Hsame : forall m',
             waiting m' = waiting m ->
             callbacks_consistent m' /\
             (callback_pending uid m -> callback_pending uid m')).
  { intros m' Hw. unfold waiting in Hw. injection Hw as Hp Hs.
    unfold callbacks_consistent, callback_pending, promise_state.
    rewrite Hp, Hs. auto. }
  assert (Hack : forall uid' m',
             m' = snd (handleResponse (Subscribed uid') m) \/
             m' = snd (handleResponse (Unsubscribed uid') m) ->
             callbacks_consistent m' /\
             (callback_pending uid m -> callback_pending uid m')).
  { intros uid' m' Hm'.
    destruct (String.eqb uid' "") eqn:Hne.
    { apply Hsame. unfold handleResponse in Hm'. rewrite Hne in Hm'.
      by destruct Hm' as [-> | ->]. }
    destruct (acknowledgement_waiting uid' m m' Hne Hm') as [Hs Hp].
    split.
    - intros u cb. rewrite Hs. intros [_ Hu]%lookup_delete_Some.
      by apply Hcons.
    - unfold callback_pending, promise_state. rewrite Hs.
      destruct (decide (uid' = uid)) as [->|Hother].
      { intros _. right. apply lookup_delete_eq. }
      rewrite lookup_delete_ne by done.
      intros [Hpending|Hgone]; [left|by right].
      destruct Hp as [-> | (cb & Hcb & ->)]; [done|].
      apply Hcons in Hcb. rewrite Hcb.
      by rewrite lookup_insert_ne. }
  destruct resp as [uid'|uid'|cache|cache|event|].
  - apply (Hack uid'). by left.
  - apply (Hack uid'). by right.
  - apply Hsame. unfold handleResponse.
    by destruct (String.eqb cache (mapName m)).
  - apply Hsame. unfold handleResponse.
    by destruct (String.eqb cache (mapName m)).
  - apply Hsame, handleResponse_event_waiting.
  - by apply Hsame.
Qed.

Lemma handle_all_callbacks uid resps m :
  callbacks_consistent m ->
  callbacks_consistent (handle_all resps m) /\
  (callback_pending uid m -> callback_pending uid (handle_all resps m)).
Proof.
  revert m. induction resps as [|resp resps IH]; intros m Hcons; [done|].
  cbn [handle_all].
  destruct (handleResponse_callbacks uid resp m Hcons) as [Hcons1 Hpend1].
  destruct (handleResponse resp m) as [[[]|err] m1]; cbn [snd] in *.
  - destruct (IH m1 Hcons1) as [? ?]. auto.
  - destruct (IH (set_uncaught (uncaught m1 ++ [err]) m1) Hcons1) as [? ?].
    auto.
Qed.

Lemma deliver_callbacks uid m :
  callbacks_consistent m ->
  callbacks_consistent (deliver m) /\
  (callback_pending uid m -> callback_pending uid (deliver m)).
Proof.
  intros Hcons.
  exact (handle_all_callbacks uid (inflight m) (set_inflight [] m) Hcons).
Qed.

Lemma await_consistent p m o m' :
  callbacks_consistent m -> await p m = (o, m') -> callbacks_consistent m'.
Proof.
  intros Hcons. unfold await.
  pose proof (deliver_callbacks p m Hcons) as [Hd _].
  destruct (promise_state p m); [intros; by simplify_eq..|].
  destruct (promise_state p (deliver m)); intros; by simplify_eq.
Qed.

Lemma ensureStream_consistent m stream m' :
  callbacks_consistent m ->
  ensureStream m = (Ok stream, m') -> callbacks_consistent m'.
Proof.
  intros Hcons. unfold ensureStream, bind, gets.
  destruct (streamPromise m); cbn; unfold ret; [intros; by simplify_eq|].
  intros Hrun. simplify_eq. intros uid cb. unfold new_promise. cbn.
  intros [[<- <-]|[_ Hin]]%lookup_insert_Some; [done|by apply Hcons].
Qed.

(** The constructor leaves only the callback of its INIT request. *)
Lemma new_MapEventsManager_consistent name client ser :
  callbacks_consistent (new_MapEventsManager name client ser).
Proof.
  unfold new_MapEventsManager.
  match goal with |- context [ensureStream ?m0] => set (initial := m0) end.
  assert (Hinitial : callbacks_consistent initial).
  { intros uid cb. subst initial.
    cbn [pendingSubscriptions]. by rewrite lookup_empty. }
  destruct (ensureStream initial) as [[p| |err] m'] eqn:Hrun.
  - exact (ensureStream_consistent _ _ _ Hinitial Hrun).
  - discriminate Hrun.
  - discriminate Hrun.
Qed.

(** No callback is left behind: when [writeRequest] returns, the
    callback it registered under the request's uid is gone from
    [pendingSubscriptions], and every callback still kept is under the
    uid of its own request. *)
Theorem acknowledged_request_leaves_no_callback request m m' :
  callbacks_consistent m ->
  writeRequest request m = (Ok tt, m') ->
  pendingSubscriptions m' !! getUid request = None /\
  promise_state (getUid request) m' = Fulfilled tt /\
  callbacks_consistent m'.
Proof.
  intros Hcons Hrun. unfold writeRequest in Hrun.
  apply bind_Ok_inv in Hrun as (stream & m1 & Hstream & Hrun).
  apply bind_Ok_inv in Hrun as ([] & m2 & Hawait & Hrun).
  apply ensureStream_consistent in Hstream; [|done].
  eapply await_consistent in Hawait; [|done].
  unfold bind at 1 2 3, modify, stream_write in Hrun. cbn in Hrun.
  set (m3 := set_inflight _ _) in Hrun.
  assert (Hcons3 : callbacks_consistent m3).
  { intros uid cb. subst m3. cbn.
    intros [[<- <-]|[_ Hin]]%lookup_insert_Some; [done|by apply Hawait]. }
  assert (Hpend3 : callback_pending (getUid request) m3).
  { left. subst m3. unfold promise_state, new_promise. cbn.
    by rewrite lookup_insert_eq. }
  destruct (deliver_callbacks (getUid request) m3 Hcons3) as [Hcons' Hpend'].
  specialize (Hpend' Hpend3).
  unfold await in Hrun. destruct Hpend3 as [Hp|Hgone].
  - rewrite Hp in Hrun.
    destruct (promise_state (getUid request) (deliver m3)) as [[]| |] eqn:Hd;
      simplify_eq.
    split_and!; [|done..].
    destruct Hpend' as [Hp'|]; [congruence|done].
  - subst m3. cbn in Hgone. by rewrite lookup_insert_eq in Hgone.
Qed.

Lemma acknowledged_request_witness :
  pendingSubscriptions
    (snd (writeRequest (mkRequest "7" SUBSCRIBE true true [] None 0)
            (new_MapEventsManager "m" acking_client utf8)))
    !! getUid (mkRequest "7" SUBSCRIBE true true [] None 0) = None /\
  promise_state (getUid (mkRequest "7" SUBSCRIBE true true [] None 0))
    (snd (writeRequest (mkRequest "7" SUBSCRIBE true true [] None 0)
            (new_MapEventsManager "m" acking_client utf8))) = Fulfilled tt /\
  callbacks_consistent
    (snd (writeRequest (mkRequest "7" SUBSCRIBE true true [] None 0)
            (new_MapEventsManager "m" acking_client utf8))).
Proof.
  apply (acknowledged_request_leaves_no_callback
           (mkRequest "7" SUBSCRIBE true true [] None 0)
           (new_MapEventsManager "m" acking_client utf8)).
  - apply new_MapEventsManager_consistent.
  - by vm_compute.
Defined.

(** *** Requests that go out whatever the answer *)

Lemma pretty_N_go_nonempty x c s : pretty_N_go x (String c s) <> "".
Proof.
  revert c s. induction (N.lt_wf_0 x) as [x _ IH]; intros c s.
  destruct (decide (x = 0)%N) as [->|Hx].
  - by rewrite pretty_N_go_0.
  - rewrite pretty_N_go_step by lia. apply IH. apply N.div_lt; lia.
Qed.

(** Correlation ids are not empty. *)
Lemma pretty_nat_nonempty (n : nat) : String.eqb (pretty n) "" = false.
Proof.
  apply String.eqb_neq. unfold pretty, pretty_nat, pretty, pretty_N.
  destruct (decide _); [done|].
  rewrite pretty_N_go_step by lia. apply pretty_N_go_nonempty.
Qed.

(** What an acknowledgement does to the callbacks and the promises,
    exactly. *)
Lemma acknowledgement_promises uid' m m' :
  String.eqb uid' "" = false ->
  m' = snd (handleResponse (Subscribed uid') m) \/
  m' = snd (handleResponse (Unsubscribed uid') m) ->
  pendingSubscriptions m' = delete uid' (pendingSubscriptions m) /\
  promises m' =
    match pendingSubscriptions m !! uid' with
    | Some cb =>
        match promise_state (settles cb) m with
        | Pending => <[settles cb := Fulfilled tt]> (promises m)
        | _ => promises m
        end
    | None => promises m
    end.
Proof.
  intros Hne Hm'.
  assert (m' = snd (handleResponse (Subscribed uid') m)) as ->
    by (by destruct Hm').
  clear Hm'. unfold handleResponse. rewrite Hne.
  destruct (pendingSubscriptions m !! uid') as [cb|] eqn:Hcb; cbn [snd].
  - unfold invoke_callback, settle, promise_state.
    cbn [pendingSubscriptions set_pendingSubscriptions promises].
    destruct (default Pending (promises m !! settles cb));
      cbn [pendingSubscriptions set_pendingSubscriptions promises
           set_promises];
      by rewrite delete_delete_eq.
  - by cbn [pendingSubscriptions set_pendingSubscriptions promises].
Qed.

(** The promises and the callbacks after a response depend on nothing
    else of the manager. *)
Lemma handleResponse_waiting_ext resp m m' :
  waiting m = waiting m' ->
  waiting (snd (handleResponse resp m)) =
  waiting (snd (handleResponse resp m')).
Proof.
  intros Hw.
  assert (Hack : forall uid' n n',
            (n = snd (handleResponse (Subscribed uid') m) /\
             n' = snd (handleResponse (Subscribed uid') m')) \/
            (n = snd (handleResponse (Unsubscribed uid') m) /\
             n' = snd (handleResponse (Unsubscribed uid') m')) ->
            waiting n = waiting n').
  { intros uid' n n' Hn.
    destruct (String.eqb uid' "") eqn:Hne.
    { unfold handleResponse in Hn. rewrite Hne in Hn.
      by destruct Hn as [[-> ->]|[-> ->]]. }
    destruct (acknowledgement_promises uid' m n Hne) as [Hs Hp];
      [destruct Hn as [[-> _]|[-> _]]; auto|].
    destruct (acknowledgement_promises uid' m' n' Hne) as [Hs' Hp'];
      [destruct Hn as [[_ ->]|[_ ->]]; auto|].
    unfold waiting in *. injection Hw as Hpm Hsm.
    unfold promise_state in *. rewrite Hs, Hp, Hs', Hp', Hpm, Hsm. done. }
  destruct resp as [uid'|uid'|cache|cache|event|].
  - apply (Hack uid'). by left.
  - apply (Hack uid'). by right.
  - unfold handleResponse.
    by destruct (String.eqb cache (mapName m)),
                (String.eqb cache (mapName m')).
  - unfold handleResponse.
    by destruct (String.eqb cache (mapName m)),
                (String.eqb cache (mapName m')).
  - by rewrite !handleResponse_event_waiting.
  - done.
Qed.

Lemma handle_all_waiting_ext resps m m' :
  waiting m = waiting m' ->
  waiting (handle_all resps m) = waiting (handle_all resps m').
Proof.
  revert m m'. induction resps as [|resp resps IH]; intros m m' Hw; [done|].
  cbn [handle_all].
  pose proof (handleResponse_waiting_ext resp m m' Hw) as Hstep.
  destruct (handleResponse resp m) as [[[]|err] m1],
           (handleResponse resp m') as [[[]|err'] m1'];
    cbn [snd] in Hstep; by apply IH.
Qed.

Lemma await_outcome_ext p m m' :
  waiting m' = waiting m -> inflight m' = inflight m ->
  fst (await p m') = fst (await p m).
Proof.
  intros Hw Hi.
  assert (Hd : waiting (deliver m') = waiting (deliver m)).
  { unfold deliver. rewrite Hi. by apply handle_all_waiting_ext. }
  unfold waiting in Hw, Hd. injection Hw as Hp _. injection Hd as Hpd _.
  unfold await, promise_state. rewrite Hp, Hpd.
  destruct (default Pending (promises m !! p)); try done.
  by destruct (default Pending (promises (deliver m) !! p)).
Qed.

(** Whether the stream is established depends on the stream promise,
    the promises, the callbacks and the responses on their way. *)
Lemma stream_established_ext m m' :
  streamPromise m' = streamPromise m ->
  waiting m' = waiting m -> inflight m' = inflight m ->
  stream_established m -> stream_established m'.
Proof.
  intros Hs Hw Hi (p & Hp & Hawait). exists p. split; [congruence|].
  by rewrite (await_outcome_ext p m m').
Qed.

(** A response leaves a fulfilled promise fulfilled; it fulfils the
    promise of the request it acknowledges, and leaves the callback of
    any other request in place. *)
Lemma handleResponse_acknowledges uid resp m :
  String.eqb uid "" = false ->
  (promise_state uid m = Fulfilled tt ->
   promise_state uid (snd (handleResponse resp m)) = Fulfilled tt) /\
  (promise_state uid m = Pending ->
   (exists cb, pendingSubscriptions m !! uid = Some cb /\ settles cb = uid) ->
   promise_state uid (snd (handleResponse resp m)) = Fulfilled tt \/
   (resp <> Subscribed uid /\ resp <> Unsubscribed uid /\
    promise_state uid (snd (handleResponse resp m)) = Pending /\
    exists cb,
      pendingSubscriptions (snd (handleResponse resp m)) !! uid = Some cb /\
      settles cb = uid)).
Proof.
  intros Huid.
  assert (Hsame : forall m',
            waiting m' = waiting m ->
            resp <> Subscribed uid -> resp <> Unsubscribed uid ->
            (promise_state uid m = Fulfilled tt ->
             promise_state uid m' = Fulfilled tt) /\
            (promise_state uid m = Pending ->
             (exists cb, pendingSubscriptions m !! uid = Some cb /\
                         settles cb = uid) ->
             promise_state uid m' = Fulfilled tt \/
             (resp <> Subscribed uid /\ resp <> Unsubscribed uid /\
              promise_state uid m' = Pending /\
              exists cb, pendingSubscriptions m' !! uid = Some cb /\
                         settles cb = uid))).
  { intros m' Hw Hn1 Hn2. unfold waiting in Hw. injection Hw as Hp Hs.
    unfold promise_state. rewrite Hp, Hs. split; [done|].
    intros Hpending Hcb. right. done. }
  assert (Hack : forall uid' m',
            resp = Subscribed uid' \/ resp = Unsubscribed uid' ->
            m' = snd (handleResponse resp m) ->
            (promise_state uid m = Fulfilled tt ->
             promise_state uid m' = Fulfilled tt) /\
            (promise_state uid m = Pending ->
             (exists cb, pendingSubscriptions m !! uid = Some cb /\
                         settles cb = uid) ->
             promise_state uid m' = Fulfilled tt \/
             (resp <> Subscribed uid /\ resp <> Unsubscribed uid /\
              promise_state uid m' = Pending /\
              exists cb, pendingSubscriptions m' !! uid = Some cb /\
                         settles cb = uid))).
  { intros uid' m' Hresp Hm'.
    destruct (String.eqb uid' "") eqn:Hne.
    { assert (uid' <> uid).
      { intros ->. congruence. }
      apply Hsame.
      - rewrite Hm'. unfold handleResponse.
        destruct Hresp as [-> | ->]; by rewrite Hne.
      - destruct Hresp as [-> | ->]; congruence.
      - destruct Hresp as [-> | ->]; congruence. }
    destruct (acknowledgement_promises uid' m m' Hne) as [Hs Hp].
    { destruct Hresp as [-> | ->]; auto. }
    unfold promise_state in *. rewrite Hs, Hp.
    destruct (pendingSubscriptions m !! uid') as [cb'|] eqn:Hcb'.
    - destruct (default Pending (promises m !! settles cb')) eqn:Hstate.
      + split; [done|]. intros Hpending (cb & Hcb & Hsettles).
        destruct (decide (uid' = uid)) as [->|Hother].
        * rewrite Hcb in Hcb'. injection Hcb' as ->.
          rewrite Hsettles in Hstate. congruence.
        * right. rewrite lookup_delete_ne by done.
          split_and!; [destruct Hresp as [-> | ->]; congruence..|done|eauto].
      + split; [done|]. intros Hpending (cb & Hcb & Hsettles).
        destruct (decide (uid' = uid)) as [->|Hother].
        * rewrite Hcb in Hcb'. injection Hcb' as ->.
          rewrite Hsettles in Hstate. congruence.
        * right. rewrite lookup_delete_ne by done.
          split_and!; [destruct Hresp as [-> | ->]; congruence..|done|eauto].
      + destruct (decide (settles cb' = uid)) as [->|Hsettle].
        * rewrite lookup_insert_eq. cbn. auto.
        * rewrite lookup_insert_ne by done. split; [done|].
          intros Hpending (cb & Hcb & Hsettles).
          destruct (decide (uid' = uid)) as [->|Hother].
          { rewrite Hcb in Hcb'. injection Hcb' as ->. done. }
          right. rewrite lookup_delete_ne by done.
          split_and!; [destruct Hresp as [-> | ->]; congruence..|done|eauto].
    - split; [done|]. intros Hpending (cb & Hcb & Hsettles).
      destruct (decide (uid' = uid)) as [->|Hother]; [congruence|].
      right. rewrite lookup_delete_ne by done.
      split_and!; [destruct Hresp as [-> | ->]; congruence..|done|eauto]. }
  destruct resp as [uid'|uid'|cache|cache|event|].
  - apply (Hack uid'); auto.
  - apply (Hack uid'); auto.
  - apply Hsame; [|done..]. unfold handleResponse.
    by destruct (String.eqb cache (mapName m)).
  - apply Hsame; [|done..]. unfold handleResponse.
    by destruct (String.eqb cache (mapName m)).
  - apply Hsame; [|done..]. apply handleResponse_event_waiting.
  - by apply Hsame.
Qed.

(** Delivering responses that hold the acknowledgement of a request
    fulfils the promise of the request. *)
Lemma handle_all_acknowledges uid resps m :
  String.eqb uid "" = false ->
  (promise_state uid m = Fulfilled tt ->
   promise_state uid (handle_all resps m) = Fulfilled tt) /\
  (promise_state uid m = Pending ->
   (exists cb, pendingSubscriptions m !! uid = Some cb /\ settles cb = uid) ->
   Subscribed uid ∈ resps \/ Unsubscribed uid ∈ resps ->
   promise_state uid (handle_all resps m) = Fulfilled tt).
Proof.
  intros Huid. revert m.
  induction resps as [|resp resps IH]; intros m.
  { split; [done|]. intros _ _ [Hin|Hin]; by apply elem_of_nil in Hin. }
  cbn [handle_all].
  destruct (handleResponse_acknowledges uid resp m Huid) as [Hfull Hpend].
  assert (Hnext : forall m1,
            waiting m1 = waiting (snd (handleResponse resp m)) ->
            (promise_state uid m = Fulfilled tt ->
             promise_state uid (handle_all resps m1) = Fulfilled tt) /\
            (promise_state uid m = Pending ->
             (exists cb, pendingSubscriptions m !! uid = Some cb /\
                         settles cb = uid) ->
             Subscribed uid ∈ resp :: resps \/
             Unsubscribed uid ∈ resp :: resps ->
             promise_state uid (handle_all resps m1) = Fulfilled tt)).
  { intros m1 Hw. unfold waiting in Hw. injection Hw as Hp Hs.
    destruct (IH m1) as [IHfull IHpend].
    unfold promise_state in *. rewrite Hp, Hs in *.
    split; [auto|]. intros Hpending Hcb Hin.
    destruct (Hpend Hpending Hcb) as [Hdone|(Hn1 & Hn2 & Hstill & Hcb')];
      [auto|].
    apply IHpend; [done|done|].
    destruct Hin as [Hin|Hin]; apply elem_of_cons in Hin as [Heq|Hin];
      try congruence; auto. }
  destruct (handleResponse resp m) as [[[]|err] m1]; cbn [snd] in *;
    by apply Hnext.
Qed.

(** [writeRequest] on an established stream: the request goes out,
    whatever comes back; if its acknowledgement is among what the
    server answers to it, the call resolves. *)
Lemma writeRequest_established request m o m' :
  stream_established m ->
  writeRequest request m = (o, m') ->
  wire m' = wire m ++ [Sent request] /\
  (String.eqb (getUid request) "" = false ->
   Subscribed (getUid request) ∈ respond (client m) request \/
   Unsubscribed (getUid request) ∈ respond (client m) request ->
   o = Ok tt).
Proof.
  intros (p & Hp & Hest) Hrun. unfold writeRequest in Hrun.
  assert (Hstream : ensureStream m = (Ok p, m)).
  { unfold ensureStream, bind, gets. by rewrite Hp. }
  erewrite bind_run in Hrun by exact Hstream.
  destruct (await p m) as [o1 m2] eqn:Hawait. cbn [fst] in Hest. subst o1.
  erewrite bind_run in Hrun by exact Hawait.
  pose proof (keeps_await_core p _ _ _ Hawait) as Hcore.
  unfold bind at 1 2 3, modify, stream_write in Hrun. cbn in Hrun.
  set (m3 := set_inflight _ _) in Hrun.
  assert (Hwire3 : wire m3 = wire m ++ [Sent request]).
  { subst m3. unfold core in Hcore. cbn. congruence. }
  assert (Hclient : client m2 = client m).
  { unfold core in Hcore. congruence. }
  split.
  - rewrite <- Hwire3. eapply keeps_await_wire, Hrun.
  - intros Huid Hack.
    assert (Hpending : promise_state (getUid request) m3 = Pending).
    { subst m3. unfold promise_state, new_promise. cbn.
      by rewrite lookup_insert_eq. }
    destruct (handle_all_acknowledges (getUid request) (inflight m3)
                (set_inflight [] m3) Huid) as [_ Hfulfil].
    unfold await in Hrun. rewrite Hpending in Hrun.
    unfold deliver in Hrun. rewrite Hfulfil in Hrun.
    + by injection Hrun as <- _.
    + exact Hpending.
    + exists (mkCallback (getUid request)). split; [|done].
      subst m3. cbn. by rewrite lookup_insert_eq.
    + subst m3. cbn [inflight set_inflight]. rewrite Hclient.
      destruct Hack as [Hin|Hin]; [left|right]; apply elem_of_app; by right.
Qed.

Lemma mapListenerRequest_frame subscribe kf isLite m request m' :
  mapListenerRequest subscribe kf isLite m = (Ok request, m') ->
  String.eqb (getUid request) "" = false /\
  client m' = client m /\ wire m' = wire m /\
  (stream_established m -> stream_established m').
Proof.
  unfold mapListenerRequest. intros Hrun.
  destruct kf; injection Hrun as <- <-;
    (split_and!; [apply pretty_nat_nonempty|done|done|];
     by apply stream_established_ext).
Qed.

Lemma mapListenerRequest_runs subscribe kf isLite m :
  exists request m', mapListenerRequest subscribe kf isLite m = (Ok request, m').
Proof. unfold mapListenerRequest. destruct kf; eauto. Qed.

Lemma subscribes_sent w request :
  getType request = SUBSCRIBE ->
  subscribes (w ++ [Sent request]) = subscribes w ++ [request].
Proof.
  intros Htype. rewrite subscribes_app. unfold subscribes at 2. cbn.
  by rewrite Htype.
Qed.

Lemma requests_sent w request :
  getType request <> INIT ->
  requests (w ++ [Sent request]) = requests w ++ [request].
Proof.
  intros Htype. rewrite requests_app. unfold requests at 2. cbn.
  by destruct (getType request).
Qed.

(** [doSubscribe] on an established stream: one SUBSCRIBE for the
    group's key or filter goes out, whatever comes back; a filter group
    is indexed under the filter id of the request once the request is
    acknowledged, and not before. *)
Lemma doSubscribe_established g isLite m o m' self :
  groups m !! g = Some self ->
  stream_established m ->
  doSubscribe g isLite m = (o, m') ->
  exists request,
    wire m' = wire m ++ [Sent request] /\
    getType request = SUBSCRIBE /\ getSubscribe request = true /\
    getLite request = isLite /\
    request_targets m request (keyOrFilter self) /\
    groups m' = groups m /\ keyMap m' = keyMap m /\
    filterMap m' = filterMap m /\
    filterId2ListenerGroup m' =
      match o, keyOrFilter self with
      | Ok _, OfFilter _ =>
          <[getFilterid request := g]> (filterId2ListenerGroup m)
      | _, _ => filterId2ListenerGroup m
      end /\
    (Subscribed (getUid request) ∈ respond (client m) request -> o = Ok tt).
Proof.
  intros Hg Hest Hrun. unfold doSubscribe in Hrun.
  erewrite bind_run in Hrun by (by apply this_run).
  destruct (mapListenerRequest_runs true (keyOrFilter self) (Some isLite) m)
    as (request & m1 & Hreq).
  erewrite bind_run in Hrun by exact Hreq.
  destruct (mapListenerRequest_frame _ _ _ _ _ _ Hreq)
    as (Huid & Hclient & Hwire1 & Hest1).
  apply mapListenerRequest_fields in Hreq
    as (Htype & Hsub & Hlite & Htargets & Hidx1 & _).
  unfold bind in Hrun.
  destruct (writeRequest request m1) as [o2 m2] eqn:Hwrite.
  pose proof (keeps_writeRequest_indexes _ _ _ _ Hwrite) as Hidx2.
  destruct (writeRequest_established _ _ _ _ (Hest1 Hest) Hwrite)
    as [Hwire2 Hack].
  rewrite Hclient in Hack. specialize (Hack Huid).
  exists request. unfold indexes in *.
  destruct o2 as [[]| |err].
  - assert (Hg2 : groups m2 !! g = Some self) by (simplify_eq; congruence).
    unfold postSubscribe in Hrun.
    erewrite bind_run in Hrun by (by apply this_run).
    destruct (keyOrFilter self);
      [|unfold filterGroupSubscribed, modify in Hrun];
      injection Hrun as <- <-; simplify_eq;
      split_and!; try done;
      cbn [groups keyMap filterMap filterId2ListenerGroup wire
           set_filterId2ListenerGroup];
      congruence.
  - injection Hrun as <- <-. simplify_eq.
    split_and!; try done; try congruence.
    intros Hin. apply Hack. by left.
  - injection Hrun as <- <-. simplify_eq.
    split_and!; try done; try congruence.
    intros Hin. apply Hack. by left.
Qed.

(** [doUnsubscribe] on an established stream: one UNSUBSCRIBE for the
    group's key or filter goes out, whatever comes back; the group is
    taken out of the indexes once the request is acknowledged. *)
Lemma doUnsubscribe_established g m o m' self :
  groups m !! g = Some self ->
  stream_established m ->
  doUnsubscribe g m = (o, m') ->
  exists request,
    wire m' = wire m ++ [Sent request] /\
    getType request = UNSUBSCRIBE /\
    request_targets m request (keyOrFilter self) /\
    groups m' = groups m /\ serializer m' = serializer m /\
    (o = Ok tt ->
     match keyOrFilter self with
     | OfKey _ =>
         keyMap m' =
           delete (deserialize (serializer m) (getKey request)) (keyMap m)
     | OfFilter filter => filterMap m' = delete filter (filterMap m)
     end) /\
    (Unsubscribed (getUid request) ∈ respond (client m) request ->
     o = Ok tt).
Proof.
  intros Hg Hest Hrun. unfold doUnsubscribe in Hrun.
  erewrite bind_run in Hrun by (by apply this_run).
  destruct (mapListenerRequest_runs false (keyOrFilter self) None m)
    as (request & m1 & Hreq).
  erewrite bind_run in Hrun by exact Hreq.
  destruct (mapListenerRequest_frame _ _ _ _ _ _ Hreq)
    as (Huid & Hclient & Hwire1 & Hest1).
  apply mapListenerRequest_fields in Hreq
    as (Htype & Hsub & Hlite & Htargets & Hidx1 & _).
  unfold bind in Hrun.
  destruct (writeRequest request m1) as [o2 m2] eqn:Hwrite.
  pose proof (keeps_writeRequest_indexes _ _ _ _ Hwrite) as Hidx2.
  destruct (writeRequest_established _ _ _ _ (Hest1 Hest) Hwrite)
    as [Hwire2 Hack].
  rewrite Hclient in Hack. specialize (Hack Huid).
  exists request. unfold indexes in *.
  destruct o2 as [[]| |err].
  - assert (Hg2 : groups m2 !! g = Some self) by (simplify_eq; congruence).
    unfold postUnsubscribe in Hrun.
    erewrite bind_run in Hrun by (by apply this_run).
    destruct (keyOrFilter self);
      unfold keyGroupUnsubscribed, filterGroupUnsubscribed, bind, gets,
        modify in Hrun;
      injection Hrun as <- <-; simplify_eq;
      split_and!; try done;
      cbn [groups keyMap filterMap serializer filterId2ListenerGroup wire
           set_filterId2ListenerGroup set_keyMap set_filterMap];
      congruence.
  - injection Hrun as <- <-. simplify_eq.
    split_and!; try done; try congruence.
    intros Hin. apply Hack. by right.
  - injection Hrun as <- <-. simplify_eq.
    split_and!; try done; try congruence.
    intros Hin. apply Hack. by right.
Qed.

(** *** Listeners leaving a group: the last one *)

(** The group is dropped with its last listener.  On a manager whose
    stream is established, removing the only listener of a group puts
    exactly one UNSUBSCRIBE for the group's key or filter on the wire
    and empties the group, whatever the server answers; the call
    resolves if the server's answer holds the acknowledgement, and once
    it has resolved the group is no longer found under its key (if the
    serializer gives the key back) or its filter. *)
Theorem last_listener_removal_drops_group g l m o m1 self l0 v :
  groups m !! g = Some self ->
  listeners self = [(l0, v)] ->
  identity l0 = identity l ->
  stream_established m ->
  removeListener g l m = (o, m1) ->
  exists u,
    requested m1 = requested m ++ [u] /\
    getType u = UNSUBSCRIBE /\ request_targets m u (keyOrFilter self) /\
    groups m1 !! g = Some (set_listeners [] self) /\
    (Unsubscribed (getUid u) ∈ respond (client m) u -> o = Ok tt) /\
    (o = Ok tt -> unindexed m1 (keyOrFilter self)).
Proof.
  intros Hg Hls Hid Hest Hrun. unfold removeListener in Hrun.
  erewrite bind_run in Hrun by (by apply this_run).
  rewrite Hls in Hrun. cbn [listeners_get length Nat.eqb] in Hrun.
  rewrite Hid, Nat.eqb_refl in Hrun.
  erewrite bind_run in Hrun by (by apply update_run).
  erewrite bind_run in Hrun
    by (apply this_run; cbn [groups set_groups]; apply lookup_insert_eq).
  rewrite Hls in Hrun.
  cbn [listeners set_listeners listeners_delete length Nat.eqb] in Hrun.
  rewrite Hid, Nat.eqb_refl in Hrun. cbn [length Nat.eqb] in Hrun.
  eapply doUnsubscribe_established in Hrun
    as (u & Hwire & Htype & Htarget & Hgroups & Hser & Hidx & Hack);
    [|cbn [groups set_groups]; apply lookup_insert_eq
     |by apply (stream_established_ext m)].
  cbn [keyOrFilter set_listeners serializer set_groups keyMap filterMap
       client wire] in *.
  exists u. split_and!; try done.
  - unfold requested. rewrite Hwire. apply requests_sent. by rewrite Htype.
  - rewrite Hgroups. cbn [groups set_groups]. apply lookup_insert_eq.
  - intros Hok. specialize (Hidx Hok).
    unfold unindexed, key_round_trip, request_targets in *.
    cbn [serializer set_groups] in *.
    destruct (keyOrFilter self) as [key|filter].
    + intros Hround. destruct Htarget as [Hbytes _]. rewrite Hser in Hround.
      rewrite Hidx, Hbytes, Hround. apply lookup_delete_eq.
    + rewrite Hidx. apply lookup_delete_eq.
Qed.

Lemma last_listener_witness :
  exists u,
    requested (snd (removeListener 0%nat (quiet_listener 1)
                      manager_with_listener)) =
      requested manager_with_listener ++ [u] /\
    getType u = UNSUBSCRIBE /\
    request_targets manager_with_listener u (OfKey "k") /\
    groups (snd (removeListener 0%nat (quiet_listener 1)
                   manager_with_listener)) !! 0%nat =
      Some (set_listeners []
              {| isActive := true; keyOrFilter := OfKey "k";
                 registeredIsLite := true;
                 listeners := [(quiet_listener 1, true)];
                 isLiteFalseCount := 0 |}) /\
    (Unsubscribed (getUid u) ∈ respond (client manager_with_listener) u ->
     fst (removeListener 0%nat (quiet_listener 1) manager_with_listener) =
     Ok tt) /\
    (fst (removeListener 0%nat (quiet_listener 1) manager_with_listener) =
     Ok tt ->
     unindexed (snd (removeListener 0%nat (quiet_listener 1)
                       manager_with_listener)) (OfKey "k")).
Proof.
  apply (last_listener_removal_drops_group 0%nat (quiet_listener 1)
           manager_with_listener _ _
           {| isActive := true; keyOrFilter := OfKey "k";
              registeredIsLite := true;
              listeners := [(quiet_listener 1, true)];
              isLiteFalseCount := 0 |} (quiet_listener 1) true).
  - by vm_compute.
  - reflexivity.
  - reflexivity.
  - exists "1". split; by vm_compute.
  - apply surjective_pairing.
Defined.

(** *** First registrations *)

(** The first listener of a group that holds none, on an established
    stream: one SUBSCRIBE with the listener's detail level goes out,
    whatever comes back, and the group records the listener and that
    level. *)
Lemma addListener_first g l isLite m o m1 self :
  groups m !! g = Some self ->
  listeners self = [] ->
  stream_established m ->
  addListener g l isLite m = (o, m1) ->
  exists request,
    wire m1 = wire m ++ [Sent request] /\
    getType request = SUBSCRIBE /\ getSubscribe request = true /\
    getLite request = isLite /\
    request_targets m request (keyOrFilter self) /\
    groups m1 !! g =
      Some (set_registeredIsLite isLite (with_listener l isLite self)) /\
    keyMap m1 = keyMap m /\ filterMap m1 = filterMap m /\
    filterId2ListenerGroup m1 =
      match o, keyOrFilter self with
      | Ok _, OfFilter _ =>
          <[getFilterid request := g]> (filterId2ListenerGroup m)
      | _, _ => filterId2ListenerGroup m
      end /\
    (Subscribed (getUid request) ∈ respond (client m) request -> o = Ok tt).
Proof.
  intros Hg Hnil Hest Hrun.
  rewrite (addListener_new g l isLite m self) in Hrun
    by (rewrite ?Hnil; done).
  rewrite Hnil in Hrun. cbn [length Nat.eqb orb Nat.ltb Nat.leb] in Hrun.
  erewrite bind_run in Hrun
    by (apply update_run; cbn [groups set_groups]; apply lookup_insert_eq).
  erewrite bind_run in Hrun by reflexivity.
  eapply doSubscribe_established in Hrun
    as (request & Hwire & Htype & Hsub & Hlite & Htarget & Hgroups & Hkey
        & Hfilter & Hid & Hack);
    [|cbn [groups set_groups]; apply lookup_insert_eq
     |by apply (stream_established_ext m)].
  exists request. split_and!; try done.
  rewrite Hgroups. cbn [groups set_groups]. by rewrite lookup_insert_eq.
Qed.

(** The first listener on a key.  On a manager whose stream is
    established, the first [registerKeyListener] for a key creates a
    group that is found under the key and holds the listener with the
    requested detail level ([false] when none is given), and puts
    exactly one SUBSCRIBE on the wire, carrying the serialized key and
    that level; all this whatever the server answers.  The call
    resolves if the server's answer holds the acknowledgement. *)
Theorem first_key_listener_creates_group listener key isLite m o m1 :
  keyMap m !! key = None ->
  stream_established m ->
  registerKeyListener listener key isLite m = (o, m1) ->
  exists g request,
    keyMap m1 !! key = Some g /\
    groups m1 !! g =
      Some {| isActive := true; keyOrFilter := OfKey key;
              registeredIsLite := default false isLite;
              listeners := [(listener, default false isLite)];
              isLiteFalseCount := if default false isLite then 0 else 1 |} /\
    requested m1 = requested m ++ [request] /\
    getType request = SUBSCRIBE /\
    getLite request = default false isLite /\
    getKey request = serialize (serializer m) key /\
    filterId2ListenerGroup m1 = filterId2ListenerGroup m /\
    (Subscribed (getUid request) ∈ respond (client m) request -> o = Ok tt).
Proof.
  intros Hnone Hest Hrun. unfold registerKeyListener in Hrun.
  erewrite bind_run in Hrun by reflexivity.
  cbv beta in Hrun. rewrite Hnone in Hrun.
  erewrite bind_run in Hrun by reflexivity.
  eapply (addListener_first _ _ _ _ _ _ (new_ListenerGroup (OfKey key)))
    in Hrun
    as (request & Hwire & Htype & _ & Hlite & Htarget & Hgroup & Hkey & _
        & Hid & Hack);
    [|cbn [groups set_groups set_keyMap]; apply lookup_insert_eq
     |reflexivity
     |by apply (stream_established_ext m)].
  exists (size (groups m)), request.
  destruct Htarget as [Hbytes _].
  cbn [wire client serializer set_keyMap set_groups keyOrFilter
       new_ListenerGroup filterId2ListenerGroup keyMap] in *.
  split_and!; try done.
  - rewrite Hkey. apply lookup_insert_eq.
  - unfold requested. rewrite Hwire. apply requests_sent. by rewrite Htype.
  - rewrite Hid. by destruct o.
Qed.

Lemma first_key_listener_witness :
  exists g request,
    keyMap manager_with_listener !! "k" = Some g /\
    groups manager_with_listener !! g =
      Some {| isActive := true; keyOrFilter := OfKey "k";
              registeredIsLite := default false (Some true);
              listeners := [(quiet_listener 1, default false (Some true))];
              isLiteFalseCount :=
                if default false (Some true) then 0 else 1 |} /\
    requested manager_with_listener =
      requested (new_MapEventsManager "m" acking_client utf8) ++ [request] /\
    getType request = SUBSCRIBE /\
    getLite request = default false (Some true) /\
    getKey request =
      serialize (serializer (new_MapEventsManager "m" acking_client utf8))
        "k" /\
    filterId2ListenerGroup manager_with_listener =
      filterId2ListenerGroup (new_MapEventsManager "m" acking_client utf8) /\
    (Subscribed (getUid request)
       ∈ respond (client (new_MapEventsManager "m" acking_client utf8))
           request ->
     fst (registerKeyListener (quiet_listener 1) "k" (Some true)
            (new_MapEventsManager "m" acking_client utf8)) = Ok tt).
Proof.
  apply (first_key_listener_creates_group (quiet_listener 1) "k" (Some true)
           (new_MapEventsManager "m" acking_client utf8) _
           manager_with_listener).
  - by vm_compute.
  - exists "1". split; by vm_compute.
  - apply surjective_pairing.
Defined.

(** The first listener on a filter.  On a manager whose stream is
    established, the first [registerFilterListener] for a filter (the
    default filter when none is given) creates a group that is found
    under the filter and puts exactly one SUBSCRIBE carrying the filter
    on the wire, whatever the server answers.  The call resolves if the
    server's answer holds the acknowledgement; once it has resolved the
    group is also found under the filter id that the request carried,
    which is where events for the filter are looked up, and until then
    the filter-id index is left as it was. *)
Theorem first_filter_listener_indexes_group listener mapFilter isLite m o m1 :
  filterMap m !! default DEFAULT_FILTER mapFilter = None ->
  stream_established m ->
  registerFilterListener listener mapFilter isLite m = (o, m1) ->
  exists g request,
    filterMap m1 !! default DEFAULT_FILTER mapFilter = Some g /\
    groups m1 !! g =
      Some {| isActive := true;
              keyOrFilter := OfFilter (default DEFAULT_FILTER mapFilter);
              registeredIsLite := default false isLite;
              listeners := [(listener, default false isLite)];
              isLiteFalseCount := if default false isLite then 0 else 1 |} /\
    requested m1 = requested m ++ [request] /\
    getType request = SUBSCRIBE /\
    getLite request = default false isLite /\
    getFilter request = Some (default DEFAULT_FILTER mapFilter) /\
    keyMap m1 = keyMap m /\
    (Subscribed (getUid request) ∈ respond (client m) request -> o = Ok tt) /\
    (o = Ok tt ->
     filterId2ListenerGroup m1 !! getFilterid request = Some g) /\
    (o <> Ok tt -> filterId2ListenerGroup m1 = filterId2ListenerGroup m).
Proof.
  intros Hnone Hest Hrun. unfold registerFilterListener in Hrun.
  cbv zeta in Hrun.
  erewrite bind_run in Hrun by reflexivity.
  cbv beta in Hrun. rewrite Hnone in Hrun.
  erewrite bind_run in Hrun by reflexivity.
  eapply (addListener_first _ _ _ _ _ _
            (new_ListenerGroup (OfFilter (default DEFAULT_FILTER mapFilter))))
    in Hrun
    as (request & Hwire & Htype & _ & Hlite & Htarget & Hgroup & Hkey
        & Hfilter & Hid & Hack);
    [|cbn [groups set_groups set_filterMap]; apply lookup_insert_eq
     |reflexivity
     |by apply (stream_established_ext m)].
  exists (size (groups m)), request.
  cbn [wire client serializer set_filterMap set_groups keyOrFilter
       new_ListenerGroup filterId2ListenerGroup keyMap filterMap
       request_targets] in *.
  split_and!; try done.
  - rewrite Hfilter. apply lookup_insert_eq.
  - unfold requested. rewrite Hwire. apply requests_sent. by rewrite Htype.
  - intros ->. rewrite Hid. apply lookup_insert_eq.
  - intros Hno. rewrite Hid. destruct o as [[]| |err]; done.
Qed.

Lemma first_filter_listener_witness :
  exists g request,
    filterMap (snd (registerFilterListener (quiet_listener 1) None None
                      (new_MapEventsManager "m" acking_client utf8)))
      !! default DEFAULT_FILTER None = Some g /\
    groups (snd (registerFilterListener (quiet_listener 1) None None
                   (new_MapEventsManager "m" acking_client utf8))) !! g =
      Some {| isActive := true;
              keyOrFilter := OfFilter (default DEFAULT_FILTER None);
              registeredIsLite := default false None;
              listeners := [(quiet_listener 1, default false None)];
              isLiteFalseCount := if default false None then 0 else 1 |} /\
    requested (snd (registerFilterListener (quiet_listener 1) None None
                      (new_MapEventsManager "m" acking_client utf8))) =
      requested (new_MapEventsManager "m" acking_client utf8) ++ [request] /\
    getType request = SUBSCRIBE /\
    getLite request = default false None /\
    getFilter request = Some (default DEFAULT_FILTER None) /\
    keyMap (snd (registerFilterListener (quiet_listener 1) None None
                   (new_MapEventsManager "m" acking_client utf8))) =
      keyMap (new_MapEventsManager "m" acking_client utf8) /\
    (Subscribed (getUid request)
       ∈ respond (client (new_MapEventsManager "m" acking_client utf8))
           request ->
     fst (registerFilterListener (quiet_listener 1) None None
            (new_MapEventsManager "m" acking_client utf8)) = Ok tt) /\
    (fst (registerFilterListener (quiet_listener 1) None None
            (new_MapEventsManager "m" acking_client utf8)) = Ok tt ->
     filterId2ListenerGroup
       (snd (registerFilterListener (quiet_listener 1) None None
               (new_MapEventsManager "m" acking_client utf8)))
       !! getFilterid request = Some g) /\
    (fst (registerFilterListener (quiet_listener 1) None None
            (new_MapEventsManager "m" acking_client utf8)) <> Ok tt ->
     filterId2ListenerGroup
       (snd (registerFilterListener (quiet_listener 1) None None
               (new_MapEventsManager "m" acking_client utf8))) =
     filterId2ListenerGroup (new_MapEventsManager "m" acking_client utf8)).
Proof.
  apply (first_filter_listener_indexes_group (quiet_listener 1) None None
           (new_MapEventsManager "m" acking_client utf8)).
  - by vm_compute.
  - exists "1". split; by vm_compute.
  - apply surjective_pairing.
Defined.

(** *** Registering the same listener twice *)

(** C9 (as amended).  A second [addListener] with the same listener and
    the same detail level changes nothing, whatever the group and
    however the first call ended: not the group's records, not its
    counters, and nothing goes out on the stream.  When the group held
    no listener and the stream is established, the two calls put exactly
    one request on the wire, a SUBSCRIBE for the group's key or filter
    with the detail level asked for, whether or not the server
    acknowledges it; the group then holds the listener and is registered
    at that level. *)
Theorem C9_addListener_twice g listener isLite m o m1 self :
  groups m !! g = Some self ->
  addListener g listener isLite m = (o, m1) ->
  addListener g listener isLite m1 = (Ok tt, m1) /\
  (listeners self = [] -> stream_established m ->
   exists request,
     wire m1 = wire m ++ [Sent request] /\
     subscribed m1 = subscribed m ++ [request] /\
     getType request = SUBSCRIBE /\
     getSubscribe request = true /\ getLite request = isLite /\
     request_targets m request (keyOrFilter self) /\
     groups m1 !! g =
       Some (set_registeredIsLite isLite
               (with_listener listener isLite self))).
Proof.
  intros Hg Hrun. split.
  - destruct (addListener_registers _ _ _ _ _ _ _ Hg Hrun)
      as (self1 & Hg1 & Hget).
    unfold addListener. erewrite bind_run by (by apply this_run).
    rewrite Hget. by rewrite Bool.eqb_reflx.
  - intros Hnil Hest.
    destruct (addListener_first _ _ _ _ _ _ _ Hg Hnil Hest Hrun)
      as (request & Hwire & Htype & Hsub & Hlite & Htarget & Hgroup & _).
    exists request. split_and!; try done.
    unfold subscribed. rewrite Hwire. by apply subscribes_sent.
Qed.

(** Witness of C9: the first listener of key ["k"], registered for full
    events. *)
Lemma C9_addListener_witness :
  let m := manager_with_new_group in
  let m1 := snd (addListener 0%nat (quiet_listener 1) false m) in
  addListener 0%nat (quiet_listener 1) false m1 = (Ok tt, m1) /\
  exists request,
    wire m1 = wire m ++ [Sent request] /\
    subscribed m1 = subscribed m ++ [request] /\
    getType request = SUBSCRIBE /\
    getSubscribe request = true /\ getLite request = false /\
    request_targets m request (OfKey "k") /\
    groups m1 !! 0%nat =
      Some (set_registeredIsLite false
              (with_listener (quiet_listener 1) false
                 (new_ListenerGroup (OfKey "k")))).
Proof.
  cbv zeta.
  destruct (C9_addListener_twice 0%nat (quiet_listener 1) false
              manager_with_new_group
              (fst (addListener 0%nat (quiet_listener 1) false
                      manager_with_new_group))
              (snd (addListener 0%nat (quiet_listener 1) false
                      manager_with_new_group))
              (new_ListenerGroup (OfKey "k")))
    as [Hsecond Hfirst].
  - by vm_compute.
  - apply surjective_pairing.
  - split; [exact Hsecond|]. apply Hfirst.
    + reflexivity.
    + exists "1". split; by vm_compute.
Defined.

(** The claim as stated does not hold for a group that already has
    listeners: a lite listener that joins a group registered as lite is
    recorded by the first call, the second call changes nothing, and no
    SUBSCRIBE at all goes out. *)
Lemma C9_no_subscribe_counterexample :
  let m := manager_with_listener in
  let m1 := snd (addListener 0%nat (quiet_listener 2) true m) in
  let m2 := snd (addListener 0%nat (quiet_listener 2) true m1) in
  stream_established m /\
  fst (addListener 0%nat (quiet_listener 2) true m) = Ok tt /\
  fst (addListener 0%nat (quiet_listener 2) true m1) = Ok tt /\
  (exists self2,
     groups m2 !! 0%nat = Some self2 /\
     listeners_get (listeners self2) (quiet_listener 2) = Some true) /\
  subscribed m2 = subscribed m /\ wire m2 = wire m.
Proof.
  cbv zeta. split_and!.
  - exists "1". split; by vm_compute.
  - by vm_compute.
  - by vm_compute.
  - eexists. split; by vm_compute.
  - by vm_compute.
  - by vm_compute.
Qed.

End MapEventsSpec.

(** * The session *)

Module SessionSpec.
Import Js Session.

(** ** Cache keys *)

Lemma prefix_append a b : String.prefix a (String.append a b) = true.
Proof.
  induction a as [|c a IH]; [by destruct b|].
  change (String.prefix (String c a) (String.append (String c a) b))
    with (if Ascii.ascii_dec c c
          then String.prefix a (String.append a b) else false).
  by destruct (Ascii.ascii_dec c c).
Qed.

Lemma append_assoc a b c :
  String.append (String.append a b) c = String.append a (String.append b c).
Proof.
  induction a as [|x a IH]; [reflexivity|].
  change (String x (String.append (String.append a b) c) =
          String x (String.append a (String.append b c))).
  by rewrite IH.
Qed.

Lemma isKeyForCacheName_own cacheName format :
  isKeyForCacheName (makeCacheKey cacheName format) cacheName = true.
Proof. apply prefix_append. Qed.

Lemma isKeyForCacheName_colon cacheName rest format :
  isKeyForCacheName
    (makeCacheKey (String.append (String.append cacheName ":") rest) format)
    cacheName = true.
Proof.
  unfold isKeyForCacheName, makeCacheKey.
  rewrite !(append_assoc (String.append cacheName ":")).
  apply prefix_append.
Qed.

Section Clients.
Context {NamedCacheClient : Type}.
Implicit Types (m : list (option (string * NamedCacheClient)))
  (s : Session NamedCacheClient).

(** ** The map *)

Lemma map_delete_lookup key m i :
  map_delete key m !! i =
  (fun slot =>
     match slot with
     | Some (k, client) =>
         if String.eqb k key then None else Some (k, client)
     | None => None
     end) <$> m !! i.
Proof. unfold map_delete. apply list_lookup_fmap. Qed.

Lemma map_entries_app m1 m2 :
  map_entries (m1 ++ m2) = map_entries m1 ++ map_entries m2.
Proof. apply omap_app. Qed.

Lemma map_entries_delete_nil key m :
  map_entries m = [] -> map_entries (map_delete key m) = [].
Proof.
  unfold map_entries, map_delete.
  induction m as [|[[k client]|] m IH]; cbn; [done|discriminate|].
  exact IH.
Qed.

Lemma map_size_delete_le key m :
  (map_size (map_delete key m) <= map_size m)%nat.
Proof.
  unfold map_size, map_entries, map_delete.
  induction m as [|[[k client]|] m IH]; cbn; [lia| |exact IH].
  destruct (String.eqb k key); cbn; lia.
Qed.

Lemma without_cache_clean cacheName m :
  (forall j k client,
     m !! j = Some (Some (k, client)) ->
     isKeyForCacheName k cacheName = false) ->
  without_cache cacheName m = m.
Proof.
  intros Hclean. apply list_eq. intros j. unfold without_cache.
  rewrite list_lookup_fmap.
  destruct (m !! j) as [[[k client]|]|] eqn:Hj; cbn; [|done..].
  by rewrite (Hclean j k client Hj).
Qed.

Lemma without_cache_delete cacheName key m :
  isKeyForCacheName key cacheName = true ->
  without_cache cacheName (map_delete key m) = without_cache cacheName m.
Proof.
  intros Hkey. unfold without_cache, map_delete.
  rewrite <- list_fmap_compose. apply list_fmap_ext.
  intros j [[k client]|] _; cbn; [|done].
  destruct (String.eqb k key) eqn:Heq; [|done].
  apply String.eqb_eq in Heq as ->. by rewrite Hkey.
Qed.

Lemma map_get_without_cache cacheName key m :
  map_get key (without_cache cacheName m) =
  if isKeyForCacheName key cacheName then None else map_get key m.
Proof.
  unfold map_get, map_entries, without_cache.
  induction m as [|[[k client]|] m IH]; cbn.
  - by destruct (isKeyForCacheName key cacheName).
  - destruct (isKeyForCacheName k cacheName) eqn:Hk; cbn.
    + rewrite IH. destruct (isKeyForCacheName key cacheName) eqn:Hkey; [done|].
      destruct (String.eqb k key) eqn:Heq; [|done].
      apply String.eqb_eq in Heq as ->. congruence.
    + destruct (String.eqb k key) eqn:Heq; cbn.
      * apply String.eqb_eq in Heq as ->. by rewrite Hk.
      * exact IH.
  - exact IH.
Qed.

(** ** Emitting *)

Lemma emit_frame name args s :
  caches (emit name args s) = caches s /\
  markedForClose (emit name args s) = markedForClose s /\
  channelClosed (emit name args s) = channelClosed s.
Proof.
  unfold emit, on_event, resolve. cbn.
  destruct (String.eqb name "event"); [|done].
  destruct (markedForClose s && _); [|done].
  cbn. by destruct (sessionClosedPromise s).
Qed.

Lemma emit_other name args s :
  String.eqb name "event" = false ->
  closed (emit name args s) = closed s /\
  sessionClosedPromise (emit name args s) = sessionClosedPromise s.
Proof. intros Hname. unfold emit. by rewrite Hname. Qed.

(** What the ['event'] listener does to [closed] and to the promise. *)
Lemma emit_event args s :
  if markedForClose s && (map_size (caches s) =? 0)%nat
  then closed (emit "event" args s) = true /\
       sessionClosedPromise (emit "event" args s) =
         match sessionClosedPromise s with
         | Pending => Fulfilled true
         | p => p
         end
  else closed (emit "event" args s) = closed s /\
       sessionClosedPromise (emit "event" args s) = sessionClosedPromise s.
Proof.
  unfold emit, on_event, resolve. cbn.
  destruct (markedForClose s && _); [|done].
  cbn. by destruct (sessionClosedPromise s) eqn:Hpromise; cbn; rewrite ?Hpromise.
Qed.

(** The handlers of ['cache_released'] and ['cache_closed']. *)
Lemma removal_handler name cacheName format s :
  String.eqb name "event" = false ->
  let s1 :=
    emit "event" [name; cacheName; format]
      (emit name [cacheName; format]
         (set_caches (map_delete (makeCacheKey cacheName format) (caches s))
            s)) in
  caches s1 = map_delete (makeCacheKey cacheName format) (caches s) /\
  markedForClose s1 = markedForClose s /\
  channelClosed s1 = channelClosed s /\
  if markedForClose s
     && (map_size (map_delete (makeCacheKey cacheName format) (caches s))
         =? 0)%nat
  then closed s1 = true /\
       sessionClosedPromise s1 =
         match sessionClosedPromise s with
         | Pending => Fulfilled true
         | p => p
         end
  else closed s1 = closed s /\
       sessionClosedPromise s1 = sessionClosedPromise s.
Proof.
  intros Hname s1. subst s1.
  set (s0 := set_caches _ s).
  destruct (emit_frame name [cacheName; format] s0) as (Hc1 & Hm1 & Hch1).
  destruct (emit_other name [cacheName; format] s0 Hname) as (Hcl1 & Hp1).
  set (s1 := emit name _ s0) in *.
  destruct (emit_frame "event" [name; cacheName; format] s1)
    as (Hc2 & Hm2 & Hch2).
  pose proof (emit_event [name; cacheName; format] s1) as Hevent.
  rewrite Hm1, Hc1, Hp1, Hcl1 in Hevent.
  split_and!.
  - by rewrite Hc2, Hc1.
  - by rewrite Hm2, Hm1.
  - by rewrite Hch2, Hch1.
  - exact Hevent.
Qed.

(** ** The ['cache_destroyed'] handler *)

Lemma destroy_key_frame cacheName key s :
  caches (destroy_key cacheName key s) =
    (if isKeyForCacheName key cacheName
     then map_delete key (caches s) else caches s) /\
  markedForClose (destroy_key cacheName key s) = markedForClose s.
Proof.
  unfold destroy_key. destruct (isKeyForCacheName key cacheName); [|done].
  set (s0 := set_caches _ s).
  destruct (emit_frame "cache_destroyed" [cacheName] s0) as (Hc1 & Hm1 & _).
  destruct (emit_frame "event" ["cache_destroyed"; cacheName]
              (emit "cache_destroyed" [cacheName] s0)) as (Hc2 & Hm2 & _).
  by rewrite Hc2, Hc1, Hm2, Hm1.
Qed.

Lemma for_keys_destroy_caches cacheName n i s :
  (length (caches s) <= n + i)%nat ->
  (forall j k client,
     (j < i)%nat -> caches s !! j = Some (Some (k, client)) ->
     isKeyForCacheName k cacheName = false) ->
  caches (for_keys n i (destroy_key cacheName) s) =
  without_cache cacheName (caches s).
Proof.
  revert i s. induction n as [|n IH]; intros i s Hlen Hclean.
  - cbn. symmetry. apply without_cache_clean. intros j k client Hj.
    apply (Hclean j k client); [|done].
    apply lookup_lt_Some in Hj. lia.
  - cbn [for_keys].
    destruct (caches s !! i) as [[[k client]|]|] eqn:Hi.
    + destruct (destroy_key_frame cacheName k s) as [Hcaches _].
      rewrite IH.
      * rewrite Hcaches.
        destruct (isKeyForCacheName k cacheName) eqn:Hk; [|done].
        by apply without_cache_delete.
      * rewrite Hcaches.
        destruct (isKeyForCacheName k cacheName);
          [unfold map_delete; rewrite length_fmap|]; lia.
      * intros j k' client' Hj. rewrite Hcaches.
        destruct (isKeyForCacheName k cacheName) eqn:Hk.
        -- rewrite map_delete_lookup.
           destruct (caches s !! j) as [[[k'' client'']|]|] eqn:Hlook;
             cbn; [|done..].
           destruct (String.eqb k'' k) eqn:Heq; [done|].
           intros [= -> ->].
           destruct (decide (j = i)) as [->|Hne].
           ++ rewrite Hi in Hlook. injection Hlook as -> ->.
              by rewrite String.eqb_refl in Heq.
           ++ apply (Hclean j k' client'); [lia|done].
        -- intros Hlook. destruct (decide (j = i)) as [->|Hne].
           ++ rewrite Hi in Hlook. by injection Hlook as -> ->.
           ++ apply (Hclean j k' client'); [lia|done].
    + apply IH; [lia|].
      intros j k' client' Hj Hlook. destruct (decide (j = i)) as [->|Hne].
      * rewrite Hi in Hlook. discriminate.
      * apply (Hclean j k' client'); [lia|done].
    + symmetry. apply without_cache_clean. intros j k' client' Hj.
      apply (Hclean j k' client'); [|done].
      apply lookup_lt_Some in Hj. apply lookup_ge_None in Hi. lia.
Qed.

Lemma on_cache_destroyed_caches cacheName s :
  caches (on_cache_destroyed cacheName s) =
  without_cache cacheName (caches s).
Proof.
  unfold on_cache_destroyed. apply for_keys_destroy_caches; [lia|].
  intros j k client Hj. lia.
Qed.

(** A destroyed cache is evicted in every format: after the
    ['cache_destroyed'] handler has run for [cacheName], no key that
    [isKeyForCacheName] accepts for it leads to a client, and every
    other key leads to what it led to before. *)
Theorem destroyed_cache_is_evicted_in_every_format cacheName key s :
  map_get key (caches (on_cache_destroyed cacheName s)) =
  if isKeyForCacheName key cacheName then None
  else map_get key (caches s).
Proof.
  rewrite on_cache_destroyed_caches. apply map_get_without_cache.
Qed.

(** Destroying the cache [a] also evicts the clients of every cache
    whose name starts with [a:], in every format: their keys start with
    [a:] as well. *)
Theorem destroying_a_cache_evicts_colon_names cacheName rest format s :
  map_get
    (makeCacheKey (String.append (String.append cacheName ":") rest) format)
    (caches (on_cache_destroyed cacheName s)) = None.
Proof.
  rewrite on_cache_destroyed_caches, map_get_without_cache.
  by rewrite isKeyForCacheName_colon.
Qed.

(** ** When the session is closed *)

Lemma for_keys_destroy_size cacheName n i s :
  (map_size (caches (for_keys n i (destroy_key cacheName) s))
   <= map_size (caches s))%nat.
Proof.
  revert i s. induction n as [|n IH]; intros i s; cbn [for_keys]; [lia|].
  destruct (caches s !! i) as [[[k client]|]|]; [|apply IH|lia].
  etransitivity; [apply IH|].
  destruct (destroy_key_frame cacheName k s) as [-> _].
  destruct (isKeyForCacheName k cacheName); [|lia].
  apply map_size_delete_le.
Qed.

Lemma destroy_key_closed cacheName key s :
  closed (destroy_key cacheName key s) = true ->
  closed s = true \/
  (markedForClose s = true /\
   map_size (caches (destroy_key cacheName key s)) = 0%nat).
Proof.
  destruct (destroy_key_frame cacheName key s) as [Hcaches _].
  rewrite Hcaches. unfold destroy_key.
  destruct (isKeyForCacheName key cacheName); [|auto].
  set (s0 := set_caches _ s).
  assert (Hm0 : markedForClose s0 = markedForClose s) by reflexivity.
  assert (Hc0 : caches s0 = map_delete key (caches s)) by reflexivity.
  assert (Hcl0 : closed s0 = closed s) by reflexivity.
  destruct (emit_frame "cache_destroyed" [cacheName] s0) as (Hc1 & Hm1 & _).
  destruct (emit_other "cache_destroyed" [cacheName] s0 eq_refl)
    as (Hcl1 & _).
  set (s1 := emit "cache_destroyed" _ s0) in *.
  pose proof (emit_event ["cache_destroyed"; cacheName] s1) as Hevent.
  rewrite Hm1, Hc1, Hm0, Hc0 in Hevent. clearbody s1 s0.
  intros Hclosed.
  destruct (markedForClose s); cbn [andb] in Hevent.
  - destruct (map_size (map_delete key (caches s)) =? 0)%nat eqn:Hsize.
    + apply Nat.eqb_eq in Hsize. auto.
    + destruct Hevent as [Heq _]. left. congruence.
  - destruct Hevent as [Heq _]. left. congruence.
Qed.

Lemma for_keys_destroy_closed cacheName n i s :
  closed (for_keys n i (destroy_key cacheName) s) = true ->
  closed s = true \/
  (markedForClose s = true /\
   map_size (caches (for_keys n i (destroy_key cacheName) s)) = 0%nat).
Proof.
  revert i s. induction n as [|n IH]; intros i s; cbn [for_keys]; [auto|].
  destruct (caches s !! i) as [[[k client]|]|]; [|apply IH|auto].
  intros Hclosed.
  destruct (destroy_key_frame cacheName k s) as [_ Hmarked].
  apply IH in Hclosed as [Hclosed|[Hm Hsize]].
  - apply destroy_key_closed in Hclosed as [?|[? Hsize]]; [auto|].
    right. split; [done|].
    pose proof (for_keys_destroy_size cacheName n (S i)
                  (destroy_key cacheName k s)). lia.
  - right. by rewrite <- Hmarked.
Qed.

(** The session is marked closed only by a handler that runs after
    [close()] was called and leaves no active cache.  The handlers of
    ['cache_released'] and ['cache_closed'] mark it closed whenever that
    is so. *)
Theorem session_closes_only_when_marked_and_empty s :
  (forall cacheName,
     isClosed (on_cache_destroyed cacheName s) = true ->
     isClosed s = true \/
     (markedForClose s = true /\
      getActiveCacheCount (on_cache_destroyed cacheName s) = 0%nat)) /\
  (forall cacheName format,
     isClosed (on_cache_released cacheName format s) = true <->
     isClosed s = true \/
     (markedForClose s = true /\
      getActiveCacheCount (on_cache_released cacheName format s) = 0%nat)) /\
  (forall cacheName format,
     isClosed (on_cache_closed cacheName format s) = true <->
     isClosed s = true \/
     (markedForClose s = true /\
      getActiveCacheCount (on_cache_closed cacheName format s) = 0%nat)).
Proof.
  unfold isClosed, getActiveCacheCount.
  assert (Hremoval : forall name cacheName format,
    String.eqb name "event" = false ->
    let s1 :=
      emit "event" [name; cacheName; format]
        (emit name [cacheName; format]
           (set_caches (map_delete (makeCacheKey cacheName format) (caches s))
              s)) in
    closed s1 = true <->
    closed s = true \/
    (markedForClose s = true /\ map_size (caches s1) = 0%nat)).
  { intros name cacheName format Hname s1.
    destruct (removal_handler name cacheName format s Hname)
      as (Hcaches & _ & _ & Hevent).
    fold s1 in Hcaches, Hevent. rewrite Hcaches.
    destruct (markedForClose s); cbn [andb] in Hevent.
    - destruct (map_size _ =? 0)%nat eqn:Hsize.
      + apply Nat.eqb_eq in Hsize. destruct Hevent as [-> _]. tauto.
      + apply Nat.eqb_neq in Hsize. destruct Hevent as [-> _].
        split; [auto|]. intros [?|[_ ?]]; [done|lia].
    - destruct Hevent as [-> _]. split; [auto|].
      by intros [?|[? _]]. }
  split_and!.
  - intros cacheName. apply for_keys_destroy_closed.
  - intros cacheName format. by apply (Hremoval "cache_released").
  - intros cacheName format. by apply (Hremoval "cache_closed").
Qed.

(** ** [close()] *)

Section Close.
Variable release :
  NamedCacheClient -> Session NamedCacheClient ->
  Outcome unit * Session NamedCacheClient.

Lemma release_all_nothing fuel i s :
  map_entries (caches s) = [] ->
  (length (caches s) <= fuel + i)%nat ->
  release_all release fuel i s = (Ok tt, s).
Proof.
  intros Hnone. revert i. induction fuel as [|fuel IH]; intros i Hlen;
    cbn [release_all];
    destruct (caches s !! i) as [[[k client]|]|] eqn:Hi; try done.
  - apply lookup_lt_Some in Hi. lia.
  - apply lookup_lt_Some in Hi. lia.
  - apply list_elem_of_lookup_2 in Hi.
    assert (Hin : (k, client) ∈ map_entries (caches s))
      by (apply list_elem_of_omap; by exists (Some (k, client))).
    rewrite Hnone in Hin. by apply elem_of_nil in Hin.
  - apply IH. lia.
Qed.

(** Closing a session that has no active cache never marks it closed:
    [close()] returns with the channel closed, but no event is emitted,
    so [isClosed()] stays as it was and the promise of
    [waitUntilClosed()] is not settled. *)
Theorem close_without_caches_never_closes fuel s :
  markedForClose s = false ->
  getActiveCacheCount s = 0%nat ->
  (length (caches s) <= fuel)%nat ->
  exists s',
    close release fuel s = (Ok tt, s') /\
    markedForClose s' = true /\ channelClosed s' = true /\
    isClosed s' = isClosed s /\
    waitUntilClosed s' = waitUntilClosed s /\
    emitted s' = emitted s.
Proof.
  intros Hopen Hcount Hfuel. unfold close. rewrite Hopen.
  rewrite release_all_nothing.
  - eexists. split; [reflexivity|]. by cbn.
  - cbn. unfold getActiveCacheCount, map_size in Hcount.
    by apply nil_length_inv.
  - cbn. lia.
Qed.

Variables cacheName cacheFormat : NamedCacheClient -> string.

Hypothesis release_raises_cache_released :
  forall client s,
    release client s =
    (Ok tt, on_cache_released (cacheName client) (cacheFormat client) s).

Lemma release_all_run fuel i s :
  keyed_by cacheName cacheFormat (caches s) ->
  markedForClose s = true ->
  (length (caches s) <= fuel + i)%nat ->
  map_entries (take i (caches s)) = [] ->
  exists s',
    release_all release fuel i s = (Ok tt, s') /\
    markedForClose s' = true /\
    channelClosed s' = channelClosed s /\
    map_entries (caches s') = [] /\
    (closed s = true -> closed s' = true) /\
    (sessionClosedPromise s = Fulfilled true ->
     sessionClosedPromise s' = Fulfilled true) /\
    (map_entries (caches s) <> [] ->
     closed s' = true /\
     (sessionClosedPromise s = Pending ->
      sessionClosedPromise s' = Fulfilled true)).
Proof.
  revert i s. induction fuel as [|fuel IH]; intros i s Hkeys Hmarked Hlen Hpre;
    cbn [release_all];
    destruct (caches s !! i) as [[[k client]|]|] eqn:Hi.
  1,2: apply lookup_lt_Some in Hi; lia.
  1,4: (apply lookup_ge_None in Hi; rewrite take_ge in Hpre by done;
        exists s; split_and!; done).
  - rewrite release_raises_cache_released.
    assert (Hk : k = makeCacheKey (cacheName client) (cacheFormat client)).
    { apply Hkeys. apply list_elem_of_In. by eapply list_elem_of_lookup_2. }
    destruct (removal_handler "cache_released" (cacheName client)
                (cacheFormat client) s eq_refl)
      as (Hcaches & Hm1 & Hch1 & Hevent).
    change (emit "event" _ _)
      with (on_cache_released (cacheName client) (cacheFormat client) s)
      in Hcaches, Hm1, Hch1, Hevent.
    set (s1 := on_cache_released _ _ s) in *.
    rewrite <- Hk in Hcaches, Hevent. rewrite Hmarked in Hevent.
    cbn [andb] in Hevent.
    destruct (IH (S i) s1) as (s' & Hrun & Hm' & Hch' & Hnone & Hcl & Hp & Hsome).
    + intros key client'. rewrite Hcaches. unfold map_delete.
      intros ([[k'' c'']|] & Heq & Hin)%in_map_iff; [|done].
      destruct (String.eqb k'' k); [done|]. injection Heq as -> ->.
      by apply Hkeys.
    + by rewrite Hm1.
    + rewrite Hcaches. unfold map_delete. rewrite length_fmap. lia.
    + rewrite Hcaches. unfold map_delete. rewrite <- fmap_take.
      rewrite (take_S_r _ _ _ Hi), fmap_app, map_entries_app.
      fold (map_delete k (take i (caches s))).
      rewrite (map_entries_delete_nil k _ Hpre). cbn.
      by rewrite String.eqb_refl.
    + exists s'. split_and!; try done.
      * by rewrite Hch', Hch1.
      * destruct (map_size (map_delete k (caches s)) =? 0)%nat;
          destruct Hevent as [Hc1 Hp1]; intros Hc; apply Hcl; congruence.
      * destruct (map_size (map_delete k (caches s)) =? 0)%nat;
          destruct Hevent as [Hc1 Hp1]; intros Hfull; apply Hp;
          rewrite Hp1; by rewrite ?Hfull.
      * intros _.
        destruct (map_size (map_delete k (caches s)) =? 0)%nat eqn:Hsize;
          destruct Hevent as [Hc1 Hp1].
        -- split; [by apply Hcl|]. intros Hpending. apply Hp.
           by rewrite Hp1, Hpending.
        -- apply Nat.eqb_neq in Hsize.
           destruct Hsome as [Hclosed Hpromise].
           { rewrite Hcaches. intros Hnil. apply Hsize.
             unfold map_size. by rewrite Hnil. }
           split; [done|]. intros Hpending. apply Hpromise. congruence.
  - destruct (IH (S i) s) as (s' & Hrun & Hrest); [done|done|lia| |].
    + rewrite (take_S_r _ _ _ Hi), map_entries_app, Hpre. done.
    + by exists s'.
Qed.

(** Closing a session with active caches: when every client's
    [release()] raises ['cache_released'] for its own name and format,
    [close()] returns with no active cache left, the channel closed, the
    session marked closed and the promise of [waitUntilClosed()]
    fulfilled with [true]. *)
Theorem close_releases_every_cache_then_closes fuel s :
  keyed_by cacheName cacheFormat (caches s) ->
  markedForClose s = false ->
  (0 < getActiveCacheCount s)%nat ->
  (length (caches s) <= fuel)%nat ->
  exists s',
    close release fuel s = (Ok tt, s') /\
    isClosed s' = true /\
    getActiveCacheCount s' = 0%nat /\
    markedForClose s' = true /\ channelClosed s' = true /\
    (waitUntilClosed s = Pending -> waitUntilClosed s' = Fulfilled true).
Proof.
  intros Hkeys Hopen Hcount Hfuel. unfold close. rewrite Hopen.
  destruct (release_all_run fuel 0 (set_markedForClose true s))
    as (s' & Hrun & Hm' & Hch' & Hnone & _ & _ & Hsome);
    [done|done|cbn; lia|done|].
  rewrite Hrun. eexists. split; [reflexivity|].
  destruct Hsome as [Hclosed Hpromise].
  { cbn [caches set_markedForClose]. intros Hnil.
    unfold getActiveCacheCount, map_size in Hcount.
    rewrite Hnil in Hcount. cbn in Hcount. lia. }
  unfold isClosed, getActiveCacheCount, waitUntilClosed, map_size.
  cbn [closed caches markedForClose channelClosed sessionClosedPromise
       set_channelClosed set_markedForClose].
  by rewrite Hnone.
Qed.

End Close.
End Clients.

Lemma close_without_caches_witness :
  exists s',
    close release_now 1 (new_session [None]) = (Ok tt, s') /\
    markedForClose s' = true /\ channelClosed s' = true /\
    isClosed s' = isClosed (new_session [None]) /\
    waitUntilClosed s' = waitUntilClosed (new_session [None]) /\
    emitted s' = emitted (new_session [None]).
Proof.
  apply (close_without_caches_never_closes release_now 1 (new_session [None])).
  - reflexivity.
  - reflexivity.
  - cbn. lia.
Defined.

Lemma close_releases_witness :
  exists s',
    close release_now 3 two_caches = (Ok tt, s') /\
    isClosed s' = true /\
    getActiveCacheCount s' = 0%nat /\
    markedForClose s' = true /\ channelClosed s' = true /\
    (waitUntilClosed two_caches = Pending ->
     waitUntilClosed s' = Fulfilled true).
Proof.
  apply (close_releases_every_cache_then_closes release_now fst snd).
  - intros client s. reflexivity.
  - intros key client [H|[H|[H|[]]]]; by simplify_eq.
  - reflexivity.
  - cbn. lia.
  - cbn. lia.
Defined.

End SessionSpec.
